(** * Graph.ts: the module graph of the bundler

    A shallow embedding of [src/Graph.ts].  The class [Graph] keeps a mutable
    store ([moduleById], [modules], [externalModules], [watchFiles], ...) that
    the promise chain of [fetchModule] / [fetchAllDependencies] updates one
    handler at a time.  Each handler (the code between two suspension points)
    is embedded as one computation in a state-and-exception monad over the
    store; a step relation schedules the pending handlers.  The synchronous
    passes of [build] ([includeMarked], the chunk grouping) are embedded as
    plain functions. *)

From Stdlib Require Import ZArith Ascii String List Lia Sorting.Sorted Sorting.Permutation.
From stdpp Require Import base option list gmap sets strings.

Open Scope string_scope.
Open Scope list_scope.

(* [set_solver] clears hypotheses it has already consumed. *)
Set Warnings "-clear-no-such-hyp".

(** ** JavaScript values, as far as the code inspects them *)

(** A hook can settle with any JavaScript value; [Graph.ts] looks at
    [typeof], truthiness and one property.  The payload of a number is never
    read. *)
#[warnings="-register-all"]
Inductive JsValue :=
| JUndefined
| JNull
| JBool (b : bool)
| JNumber (z : Z)
| JString (s : string)
| JFunction
| JObject (fields : list (string * JsValue)).

Definition typeof (v : JsValue) : string :=
  match v with
  | JUndefined => "undefined"
  | JNull => "object"
  | JBool _ => "boolean"
  | JNumber _ => "number"
  | JString _ => "string"
  | JFunction => "function"
  | JObject _ => "object"
  end.

(** [ToBoolean]. *)
Definition truthy (v : JsValue) : bool :=
  match v with
  | JUndefined | JNull => false
  | JBool b => b
  | JNumber z => negb (z =? 0)%Z
  | JString s => negb (String.eqb s "")
  | JFunction | JObject _ => true
  end.

Fixpoint assoc {V} (k : string) (l : list (string * V)) : option V :=
  match l with
  | [] => None
  | (k', v) :: rest => if String.eqb k k' then Some v else assoc k rest
  end.

(** [v.name] for the values above: a property read on a primitive that has
    no such property, or on an object without the field, is [undefined]. *)
Definition getProp (v : JsValue) (name : string) : JsValue :=
  match v with
  | JObject fields => default JUndefined (assoc name fields)
  | _ => JUndefined
  end.


(** [s.startsWith(p)] *)
Fixpoint startsWith (s p : string) : bool :=
  match p, s with
  | EmptyString, _ => true
  | String c p', String d s' => Ascii.eqb c d && startsWith s' p'
  | String _ _, EmptyString => false
  end.

(** The one-character string [\0]. *)
Definition NUL : string := String (ascii_of_nat 0) EmptyString.

(** An id a plugin would make up for a virtual module. *)
Definition virtualId : string := NUL +:+ "virtual".

(** ** The [external] option and the classifier the constructor builds
    (Graph.ts, lines 144-152) *)

Definition IsExternal := string -> string -> bool -> bool.

(** [options.external]: a function, an array of ids, a single id, or
    nothing. *)
Inductive ExternalOption :=
| ExternalFunction (external : IsExternal)
| ExternalArray (ids : list string)
| ExternalId (id : string)
| ExternalAbsent.

Definition constructor_isExternal (external : ExternalOption) : IsExternal :=
  match external with
  | ExternalFunction external =>
      fun id parentId isResolved =>
        negb (startsWith id NUL) && external id parentId isResolved
  | ExternalArray external =>
      let ids : gset string := list_to_set external in
      fun id _ _ => bool_decide (id ∈ ids)
  | ExternalId external =>
      (* [external ? [external] : []]: the empty string is falsy *)
      let ids : gset string :=
        list_to_set (if negb (String.eqb external "") then [external] else []) in
      fun id _ _ => bool_decide (id ∈ ids)
  | ExternalAbsent =>
      let ids : gset string := ∅ in
      fun id _ _ => bool_decide (id ∈ ids)
  end.

(** ** Errors *)

(** [error({code, message})] throws an [Error] carrying the code; other
    failures are plain [Error]s, a [TypeError] of the engine, or the
    rejection of a hook. *)
Inductive Err :=
| ErrCoded (code message : string)
| ErrPlain (message : string)
| ErrType
| ErrHook (message : string).

Inductive Res (A : Type) :=
| Ok (a : A)
| Throw (e : Err).
Arguments Ok {A} a.
Arguments Throw {A} e.


(** ** The host functions of the repository that [Graph.ts] imports

    [utils/path], [utils/relativeId] and the analysis of a parsed module in
    [Module.ts] are not part of the sources at hand; the graph is embedded
    over any implementation of them. *)

Record ImportDescription := { imp_source : string; imp_name : string }.

Inductive DynamicImportExpression :=
| DynString (s : string)
| DynNode (node : nat).

Record Asset := { asset_name : string; asset_source : string }.

(** What [Module.setSource] reads off the parsed program. *)
Record ModuleShape := {
  sh_sources : list string;
  sh_imports : list (string * ImportDescription);
  sh_exports : list (string * string);
  sh_exportAllSources : list string;
  sh_dynamicImportExpressions : list DynamicImportExpression
}.

Record ModuleJSON := {
  json_id : string;
  originalCode : string;
  json_ast : nat;
  json_resolvedIds : option (list (string * string));
  transformAssets : option (list Asset);
  customTransformCache : bool
}.

Record Host := {
  external : ExternalOption;
  isRelative : string -> bool;
  (** [resolve(importer, '..', source)] *)
  resolve : string -> string -> string;
  relativeId : string -> string;
  getAliasName : string -> option string -> string;
  analyse : ModuleJSON -> ModuleShape
}.


(** ** Validation of the [load] result (Graph.ts, lines 527-539) *)

Definition BAD_LOADER_message (H : Host) (id : string) : string :=
  "Error loading " +:+ relativeId H id +:+
  ": plugin load hook should return a string, a { code, map } object, or nothing/null".

Definition fetchModule_checkSource (H : Host) (id : string) (source : JsValue)
  : Res JsValue :=
  if String.eqb (typeof source) "string" then Ok source
  else if truthy source && String.eqb (typeof source) "object"
          && String.eqb (typeof (getProp source "code")) "string" then Ok source
  else Throw (ErrCoded "BAD_LOADER" (BAD_LOADER_message H id)).



(** The rejection handler of the [load] call (lines 519-526). *)
Definition fetchModule_loadFailed (id : string) (importer : option string)
    (errMessage : string) : Err :=
  let msg := "Could not load " +:+ id in
  let msg :=
    match importer with
    | Some importer =>
        if negb (String.eqb importer "") then msg +:+ " (imported by " +:+ importer +:+ ")"
        else msg
    | None => msg
    end in
  ErrPlain (msg +:+ ": " +:+ errMessage).

(** ** Plain JavaScript objects used as dictionaries

    An object's own string keys are kept in insertion order; assigning to an
    existing key keeps its place.  [for (k in o)] visits the keys that are
    array indices first, in ascending numeric order, then the other keys in
    insertion order. *)

Abbreviation JsObj V := (list (string * V)) (only parsing).

Definition obj_get {V} (k : string) (o : JsObj V) : option V := assoc k o.

Definition obj_has {V} (k : string) (o : JsObj V) : bool :=
  match assoc k o with
  | Some _ => true
  | None => false
  end.

Fixpoint obj_set {V} (k : string) (v : V) (o : JsObj V) : JsObj V :=
  match o with
  | [] => [(k, v)]
  | (k', v') :: rest =>
      if String.eqb k k' then (k, v) :: rest else (k', v') :: obj_set k v rest
  end.

Definition digitValue (c : ascii) : option N :=
  let n := N_of_ascii c in
  if ((48 <=? n) && (n <=? 57))%N then Some (n - 48)%N else None.

Fixpoint digitsValue (s : string) (acc : N) : option N :=
  match s with
  | EmptyString => Some acc
  | String c rest =>
      match digitValue c with
      | Some d => digitsValue rest (acc * 10 + d)%N
      | None => None
      end
  end.

(** A canonical numeric string below [2^32 - 1]. *)
Definition arrayIndex (s : string) : option N :=
  match s with
  | EmptyString => None
  | String c rest =>
      if Ascii.eqb c "0" && negb (String.eqb rest "") then None
      else match digitsValue s 0 with
           | Some n => if (n <? 4294967295)%N then Some n else None
           | None => None
           end
  end.

Fixpoint insertIndexKey {V} (n : N) (e : string * V) (l : list (N * (string * V)))
  : list (N * (string * V)) :=
  match l with
  | [] => [(n, e)]
  | (n', e') :: rest =>
      if (n <? n')%N then (n, e) :: (n', e') :: rest
      else (n', e') :: insertIndexKey n e rest
  end.

Definition indexEntries {V} (o : JsObj V) : list (N * (string * V)) :=
  foldr (fun e acc =>
           match arrayIndex (fst e) with
           | Some n => insertIndexKey n e acc
           | None => acc
           end) [] o.

Definition isIndexKey (k : string) : bool :=
  match arrayIndex k with
  | Some _ => true
  | None => false
  end.

(** The entries of [o] in [for-in] order. *)
Definition obj_entries {V} (o : JsObj V) : list (string * V) :=
  map snd (indexEntries o) ++ List.filter (fun e => negb (isIndexKey (fst e))) o.

Definition obj_keys {V} (o : JsObj V) : list string := map fst (obj_entries o).

(** [a[i] = v] on an array: an index past the end grows the array, the
    slots in between stay empty. *)
Definition array_set {V} (i : nat) (v : V) (a : list (option V)) : list (option V) :=
  if decide (i < length a) then <[i := Some v]> a
  else a ++ replicate (i - length a) None ++ [Some v].

(** ** Modules, external modules and the graph *)

(** Objects are known by their address: the position at which they were
    allocated. *)
Abbreviation addr := nat (only parsing).

(** The [resolution] of a dynamic import: nothing, the replacement as the
    hook gave it, or a module object. *)
Inductive Resolution :=
| ResUndefined
| ResReplacement (replacement : string)
| ResModule (a : addr).

Record DynamicImportResolution := {
  alias : option string;
  resolution : Resolution
}.

Record ModuleRec := {
  mod_id : string;
  sources : list string;
  resolvedIds : JsObj string;
  imports : JsObj ImportDescription;
  exports : JsObj string;
  exportAllSources : list string;
  exportsAll : JsObj string;
  dynamicImportExpressions : list DynamicImportExpression;
  dynamicImportResolutions : list (option DynamicImportResolution);
  (** the property line 640 writes when the object it holds is a [Module] *)
  mod_exportsNamespace : bool
}.

Record ExternalRec := {
  ext_id : string;
  exportsNamespace : bool;
  (** the names [traceExport] was called with, latest last *)
  tracedExports : list string
}.

Inductive Obj :=
| OModule (m : ModuleRec)
| OExternal (e : ExternalRec).

(** [object.isExternal] *)
Definition obj_isExternal (o : Obj) : bool :=
  match o with
  | OModule _ => false
  | OExternal _ => true
  end.

(** ** What the graph does to the world and to its own tables

    The log lists, in program order, every [moduleById.set], every
    [watchFiles] entry, every hook and [transform] call, every re-emitted
    asset and every warning. *)

Inductive Warning :=
| WUnresolvedImport (source importer message url : string)
| WNamespaceConflict (reexporter name : string) (sources : list string)
    (message : string).

Definition warningCode (w : Warning) : string :=
  match w with
  | WUnresolvedImport _ _ _ _ => "UNRESOLVED_IMPORT"
  | WNamespaceConflict _ _ _ _ => "NAMESPACE_CONFLICT"
  end.

Inductive HookCall :=
| HookLoad (id : string)
| HookResolveId (source : string) (importer : option string)
| HookResolveDynamicImport (expr : DynamicImportExpression) (importer : string).

Inductive Effect :=
| EffSetModule (id : string) (a : addr)
| EffWatch (id : string)
| EffHook (h : HookCall)
| EffTransform (id : string)
| EffEmitAsset (name source : string)
| EffWarn (w : Warning).

Record Graph := {
  moduleById : gmap string addr;
  heap : list Obj;
  modules : list addr;
  externalModules : list addr;
  watchFiles : gset string;
  cachedModules : gmap string ModuleJSON;
  log : list Effect
}.

Definition with_moduleById (f : gmap string addr -> gmap string addr) (g : Graph) :=
  {| moduleById := f (moduleById g); heap := heap g; modules := modules g;
     externalModules := externalModules g; watchFiles := watchFiles g;
     cachedModules := cachedModules g; log := log g |}.

Definition with_heap (f : list Obj -> list Obj) (g : Graph) :=
  {| moduleById := moduleById g; heap := f (heap g); modules := modules g;
     externalModules := externalModules g; watchFiles := watchFiles g;
     cachedModules := cachedModules g; log := log g |}.

Definition with_modules (f : list addr -> list addr) (g : Graph) :=
  {| moduleById := moduleById g; heap := heap g; modules := f (modules g);
     externalModules := externalModules g; watchFiles := watchFiles g;
     cachedModules := cachedModules g; log := log g |}.

Definition with_externalModules (f : list addr -> list addr) (g : Graph) :=
  {| moduleById := moduleById g; heap := heap g; modules := modules g;
     externalModules := f (externalModules g); watchFiles := watchFiles g;
     cachedModules := cachedModules g; log := log g |}.

Definition with_watchFiles (f : gset string -> gset string) (g : Graph) :=
  {| moduleById := moduleById g; heap := heap g; modules := modules g;
     externalModules := externalModules g; watchFiles := f (watchFiles g);
     cachedModules := cachedModules g; log := log g |}.

Definition with_log (f : list Effect -> list Effect) (g : Graph) :=
  {| moduleById := moduleById g; heap := heap g; modules := modules g;
     externalModules := externalModules g; watchFiles := watchFiles g;
     cachedModules := cachedModules g; log := f (log g) |}.

(** ** The monad of one handler: state that survives a throw *)

Definition M (A : Type) := Graph -> Res A * Graph.

Definition ret {A} (a : A) : M A := fun g => (Ok a, g).

Definition throw {A} (e : Err) : M A := fun g => (Throw e, g).

Definition bind {A B} (c : M A) (k : A -> M B) : M B :=
  fun g =>
    match c g with
    | (Ok a, g') => k a g'
    | (Throw e, g') => (Throw e, g')
    end.

Notation "'let!' x ':=' c 'in' k" := (bind c (fun x => k))
  (at level 10, x name, c at level 100, k at level 200).
Notation "c '>>' k" := (bind c (fun _ => k))
  (at level 100, k at level 200, right associativity).

Definition gets {A} (f : Graph -> A) : M A := fun g => (Ok (f g), g).

Definition modify (f : Graph -> Graph) : M unit := fun g => (Ok tt, f g).

Definition when (b : bool) (c : M unit) : M unit := if b then c else ret tt.

Fixpoint forEach {A} (l : list A) (body : A -> M unit) : M unit :=
  match l with
  | [] => ret tt
  | x :: rest => body x >> forEach rest body
  end.

Definition emit (e : Effect) : M unit := modify (with_log (fun l => l ++ [e])).

(** [new Module(...)] / [new ExternalModule(...)]: a fresh object, known
    from then on by its address. *)
Definition alloc (o : Obj) : M addr :=
  fun g => (Ok (length (heap g)), with_heap (fun h => h ++ [o]) g).

Definition readObj (a : addr) : M (option Obj) := gets (fun g => heap g !! a).

(** The handlers hold [module] by reference; it is always a [Module]. *)
Definition getModule (a : addr) : M ModuleRec :=
  let! o := readObj a in
  match o with
  | Some (OModule m) => ret m
  | _ => throw ErrType
  end.

Definition updModule (a : addr) (f : ModuleRec -> ModuleRec) : M unit :=
  let! m := getModule a in
  modify (with_heap (fun h => <[a := OModule (f m)]> h)).

(** [this.moduleById.set(id, object)] *)
Definition moduleById_set (id : string) (a : addr) : M unit :=
  modify (with_moduleById (fun m => <[id := a]> m)) >> emit (EffSetModule id a).

Definition moduleById_get (id : string) : M (option addr) :=
  gets (fun g => moduleById g !! id).

Definition moduleById_has (id : string) : M bool :=
  gets (fun g => bool_decide (is_Some (moduleById g !! id))).

Definition warn (w : Warning) : M unit := emit (EffWarn w).

Definition callHook (h : HookCall) : M unit := emit (EffHook h).

Definition watchFiles_add (id : string) : M unit :=
  modify (with_watchFiles (fun w => {[id]} ∪ w)) >> emit (EffWatch id).

Definition modules_push (a : addr) : M unit :=
  modify (with_modules (fun l => l ++ [a])).

Definition externalModules_push (a : addr) : M unit :=
  modify (with_externalModules (fun l => l ++ [a])).

(** [this.pluginDriver.emitAsset(name, source)] *)
Definition emitAsset (name source : string) : M unit := emit (EffEmitAsset name source).

(** [transform(this, sourceDescription, module)]: the call is recorded; what
    it settles with is up to the plugins. *)
Definition transform (id : string) : M unit := emit (EffTransform id).

(** ** Objects of [Module.ts] and [ExternalModule.ts] *)

(** Modelled from the spec: the constructor of [Module] ([Module.ts] is not
    among the sources); a module starts with its id and empty tables. *)
Definition newModule (id : string) : ModuleRec :=
  {| mod_id := id; sources := []; resolvedIds := []; imports := [];
     exports := []; exportAllSources := []; exportsAll := [];
     dynamicImportExpressions := []; dynamicImportResolutions := [];
     mod_exportsNamespace := false |}.

(** Modelled from the spec: the constructor of [ExternalModule]. *)
Definition newExternalModule (id : string) : ExternalRec :=
  {| ext_id := id; exportsNamespace := false; tracedExports := [] |}.

(** Modelled from the spec: [Module.setSource] fills the tables read off the
    parsed program and takes over the cached [resolvedIds], if any. *)
Definition setSource (H : Host) (source : ModuleJSON) (m : ModuleRec) : ModuleRec :=
  let shape := analyse H source in
  {| mod_id := mod_id m;
     sources := sh_sources shape;
     resolvedIds := default [] (json_resolvedIds source);
     imports := sh_imports shape;
     exports := sh_exports shape;
     exportAllSources := sh_exportAllSources shape;
     exportsAll := exportsAll m;
     dynamicImportExpressions := sh_dynamicImportExpressions shape;
     dynamicImportResolutions := dynamicImportResolutions m;
     mod_exportsNamespace := mod_exportsNamespace m |}.

Definition with_resolvedIds (f : JsObj string -> JsObj string) (m : ModuleRec) :=
  {| mod_id := mod_id m; sources := sources m; resolvedIds := f (resolvedIds m);
     imports := imports m; exports := exports m;
     exportAllSources := exportAllSources m; exportsAll := exportsAll m;
     dynamicImportExpressions := dynamicImportExpressions m;
     dynamicImportResolutions := dynamicImportResolutions m;
     mod_exportsNamespace := mod_exportsNamespace m |}.

Definition with_exportsAll (f : JsObj string -> JsObj string) (m : ModuleRec) :=
  {| mod_id := mod_id m; sources := sources m; resolvedIds := resolvedIds m;
     imports := imports m; exports := exports m;
     exportAllSources := exportAllSources m; exportsAll := f (exportsAll m);
     dynamicImportExpressions := dynamicImportExpressions m;
     dynamicImportResolutions := dynamicImportResolutions m;
     mod_exportsNamespace := mod_exportsNamespace m |}.

Definition with_dynamicImportResolutions
    (f : list (option DynamicImportResolution) -> list (option DynamicImportResolution))
    (m : ModuleRec) :=
  {| mod_id := mod_id m; sources := sources m; resolvedIds := resolvedIds m;
     imports := imports m; exports := exports m;
     exportAllSources := exportAllSources m; exportsAll := exportsAll m;
     dynamicImportExpressions := dynamicImportExpressions m;
     dynamicImportResolutions := f (dynamicImportResolutions m);
     mod_exportsNamespace := mod_exportsNamespace m |}.

Definition set_mod_exportsNamespace (m : ModuleRec) :=
  {| mod_id := mod_id m; sources := sources m; resolvedIds := resolvedIds m;
     imports := imports m; exports := exports m;
     exportAllSources := exportAllSources m; exportsAll := exportsAll m;
     dynamicImportExpressions := dynamicImportExpressions m;
     dynamicImportResolutions := dynamicImportResolutions m;
     mod_exportsNamespace := true |}.

(** Modelled from the spec: [ExternalModule.traceExport(name)] records that
    the binding [name] of the external module is imported. *)
Definition traceExport (e : addr) (name : string) : M unit :=
  let! o := readObj e in
  match o with
  | Some (OExternal x) =>
      modify (with_heap (fun h =>
        <[e := OExternal {| ext_id := ext_id x;
                            exportsNamespace := exportsNamespace x;
                            tracedExports := tracedExports x ++ [name] |}]> h))
  | _ => throw ErrType
  end.

(** [object.exportsNamespace = true], on whichever kind of object it is. *)
Definition set_exportsNamespace (a : addr) : M unit :=
  let! o := readObj a in
  match o with
  | Some (OExternal x) =>
      modify (with_heap (fun h =>
        <[a := OExternal {| ext_id := ext_id x; exportsNamespace := true;
                            tracedExports := tracedExports x |}]> h))
  | Some (OModule m) =>
      modify (with_heap (fun h => <[a := OModule (set_mod_exportsNamespace m)]> h))
  | None => throw ErrType
  end.

Definition truthyString (s : string) : bool := negb (String.eqb s "").

(** What [resolveId] settles with: a string, [false], or [null]/[undefined]
    (the hook contract; the empty string is a falsy string). *)
Inductive ResolveIdResult :=
| RidString (id : string)
| RidFalse
| RidNullish.

Definition ridTruthy (r : ResolveIdResult) : bool :=
  match r with
  | RidString id => truthyString id
  | _ => false
  end.

Definition ridIsFalse (r : ResolveIdResult) : bool :=
  match r with
  | RidFalse => true
  | _ => false
  end.

(** ** The handlers of [fetchModule] *)

Section Handlers.

Variable H : Host.

(** [this.isExternal], as the constructor built it. *)
Definition isExternal : IsExternal := constructor_isExternal (external H).

(** What a call of [fetchModule] hands back when its synchronous part is
    over: a promise already resolved with the registered module, or the
    promise of a module whose [load] hook has just been called (its handlers
    hold [id], [importer] and [module]). *)
Inductive Fetch :=
| Fetched (existingModule : addr)
| Loading (id : string) (importer : option string) (module : addr).

(** Lines 505-518. *)
Definition fetchModule (id : string) (importer : option string) : M Fetch :=
  let! existingModule := moduleById_get id in
  match existingModule with
  | Some existingModule =>
      let! o := readObj existingModule in
      match o with
      | Some o =>
          if obj_isExternal o
          then throw (ErrPlain ("Cannot fetch external module " +:+ id))
          else ret (Fetched existingModule)
      | None => throw ErrType
      end
  | None =>
      let! module := alloc (OModule (newModule id)) in
      moduleById_set id module >>
      watchFiles_add id >>
      callHook (HookLoad id) >>
      ret (Loading id importer module)
  end.

(** Lines 541-547. *)
Definition sourceDescription (source : JsValue) : JsValue :=
  if String.eqb (typeof source) "string"
  then JObject [("code", source); ("ast", JNull)]
  else source.

(** [s === v] for a string [s]. *)
Definition strictEqString (s : string) (v : JsValue) : bool :=
  match v with
  | JString s' => String.eqb s s'
  | _ => false
  end.

(** What the handler of lines 540-564 returns: the cached module, or the
    promise of [transform]. *)
Inductive Sourced :=
| Cached (cachedModule : ModuleJSON)
| Transforming.

(** Lines 540-564. *)
Definition fetchModule_cacheOrTransform (id : string) (source : JsValue) : M Sourced :=
  let sourceDescription := sourceDescription source in
  let! cachedModule := gets (fun g => cachedModules g !! id) in
  match cachedModule with
  | Some cachedModule =>
      if negb (customTransformCache cachedModule)
         && strictEqString (originalCode cachedModule) (getProp sourceDescription "code")
      then
        (* re-emit transform assets *)
        match transformAssets cachedModule with
        | Some assets =>
            forEach assets (fun asset => emitAsset (asset_name asset) (asset_source asset))
        | None => ret tt
        end >>
        ret (Cached cachedModule)
      else transform id >> ret Transforming
  | None => transform id >> ret Transforming
  end.

(** The synchronous part of [fetchAllDependencies] (lines 607-654): every
    [resolveDynamicImport] hook is called at once; the handlers of the static
    sources are queued.  The module is returned for the scheduler to read
    both lists off. *)
Definition fetchAllDependencies (module : addr) : M ModuleRec :=
  let! m := getModule module in
  forEach (dynamicImportExpressions m)
    (fun dynamicImportExpression =>
       callHook (HookResolveDynamicImport dynamicImportExpression (mod_id m))) >>
  ret m.

(** Lines 565-571. *)
Definition fetchModule_setSource (id : string) (module : addr) (source : ModuleJSON)
  : M ModuleRec :=
  updModule module (setSource H source) >>
  modules_push module >>
  moduleById_set id module >>
  fetchAllDependencies module.

(** Lines 572-576. *)
Definition ownExportsAll (m : ModuleRec) : JsObj string :=
  foldl (fun exportsAll name =>
           if negb (String.eqb name "default")
           then obj_set name (mod_id m) exportsAll
           else exportsAll)
        (exportsAll m) (obj_keys (exports m)).

Definition NAMESPACE_CONFLICT_message (reexporter name first second : string) : string :=
  "Conflicting namespaces: " +:+ relativeId H reexporter +:+ " re-exports '" +:+ name
  +:+ "' from both " +:+ relativeId H first +:+ " and " +:+ relativeId H second
  +:+ " (will be ignored)".

(** Lines 577-601, one [exportAllSources] entry. *)
Definition mergeExportAll (module : addr) (source : string) : M unit :=
  let! m := getModule module in
  let! exportAllModule :=
    match obj_get source (resolvedIds m) with
    | Some id => moduleById_get id
    | None => ret None
    end in
  let! o :=
    match exportAllModule with
    | Some a => readObj a
    | None => ret None
    end in
  match o with
  | None => throw ErrType
  | Some (OExternal _) => ret tt
  | Some (OModule exportAllModule) =>
      forEach (obj_entries (exportsAll exportAllModule))
        (fun '(name, origin) =>
           let! m := getModule module in
           match obj_get name (exportsAll m) with
           | Some mine =>
               warn (WNamespaceConflict (mod_id m) name [mine; origin]
                       (NAMESPACE_CONFLICT_message (mod_id m) name mine origin))
           | None => updModule module (with_exportsAll (obj_set name origin))
           end)
  end.

(** Lines 571-603: the handler that runs once [fetchAllDependencies] has
    resolved. *)
Definition fetchModule_finish (module : addr) : M addr :=
  updModule module (fun m => with_exportsAll (fun _ => ownExportsAll m) m) >>
  let! m := getModule module in
  forEach (exportAllSources m) (mergeExportAll module) >>
  ret module.

(** ** The handlers of [fetchAllDependencies] *)

(** What the handler of lines 654-662 returns: a value, or the promise of
    the [resolveId] hook. *)
Inductive Resolving :=
| Resolved (resolvedId : ResolveIdResult)
| AwaitResolveId.

(** Lines 654-662. *)
Definition fetchAllDependencies_resolve (module : addr) (source : string) : M Resolving :=
  let! m := getModule module in
  let resolvedId := obj_get source (resolvedIds m) in
  if match resolvedId with Some id => truthyString id | None => false end
  then ret (Resolved (RidString (default "" resolvedId)))
  else if isExternal source (mod_id m) false then ret (Resolved RidFalse)
  else callHook (HookResolveId source (Some (mod_id m))) >> ret AwaitResolveId.

Definition UNRESOLVED_IMPORT_error (source importer : string) : Err :=
  ErrCoded "UNRESOLVED_IMPORT"
    ("Could not resolve '" +:+ source +:+ "' from " +:+ relativeId H importer).

Definition UNRESOLVED_IMPORT_warning (source importer : string) : Warning :=
  WUnresolvedImport source (relativeId H importer)
    ("'" +:+ source +:+ "' is imported by " +:+ relativeId H importer
     +:+ ", but could not be resolved – treating it as an external dependency")
    "https://rollupjs.org/guide/en#warning-treating-module-as-external-dependency".

Definition INVALID_EXTERNAL_ID_error (source importer : string) : Err :=
  ErrCoded "INVALID_EXTERNAL_ID"
    ("'" +:+ source +:+ "' is imported as an external by " +:+ relativeId H importer
     +:+ ", but is already an existing non-external module id.").

(** Lines 666-668. *)
Definition externalIdOf (m : ModuleRec) (source : string) (resolvedId : ResolveIdResult)
  : string :=
  match resolvedId with
  | RidString id =>
      if truthyString id then id
      else if isRelative H source then resolve H (mod_id m) source else source
  | _ => if isRelative H source then resolve H (mod_id m) source else source
  end.

(** Lines 715-720: the loop leaves the handler at the first import
    declaration from another source. *)
Fixpoint traceImports (externalModule : addr) (source : string)
    (declarations : list (string * ImportDescription)) : M unit :=
  match declarations with
  | [] => ret tt
  | (name, importDeclaration) :: rest =>
      if negb (String.eqb (imp_source importDeclaration) source) then ret tt
      else traceExport externalModule (imp_name importDeclaration) >>
           traceImports externalModule source rest
  end.

(** What the handler of lines 663-725 returns: nothing, or the promise of
    the nested [fetchModule]. *)
Inductive StaticDone :=
| StaticExternal
| StaticFetch (f : Fetch).

(** Lines 663-725. *)
Definition fetchAllDependencies_resolved (module : addr) (source : string)
    (resolvedId : ResolveIdResult) : M StaticDone :=
  let! m := getModule module in
  let externalId := externalIdOf m source resolvedId in
  let isExternal0 := ridIsFalse resolvedId || isExternal externalId (mod_id m) true in
  let! isExternal :=
    if negb (ridTruthy resolvedId) && negb isExternal0 then
      when (isRelative H source) (throw (UNRESOLVED_IMPORT_error source (mod_id m))) >>
      when (negb (ridIsFalse resolvedId))
           (warn (UNRESOLVED_IMPORT_warning source (mod_id m))) >>
      ret true
    else ret isExternal0 in
  if isExternal then
    updModule module (with_resolvedIds (obj_set source externalId)) >>
    let! has := moduleById_has externalId in
    when (negb has)
      (let! module := alloc (OExternal (newExternalModule externalId)) in
       externalModules_push module >>
       moduleById_set externalId module) >>
    let! externalModule := moduleById_get externalId in
    let! o :=
      match externalModule with
      | Some a => readObj a
      | None => ret None
      end in
    match externalModule, o with
    | Some externalModule, Some (OExternal _) =>
        (* add external declarations so we can detect which are never used *)
        let! m := getModule module in
        traceImports externalModule source (obj_entries (imports m)) >>
        ret StaticExternal
    | _, _ => throw (INVALID_EXTERNAL_ID_error source (mod_id m))
    end
  else
    let id := match resolvedId with RidString id => id | _ => "" end in
    updModule module (with_resolvedIds (obj_set source id)) >>
    let! f := fetchModule id (Some (mod_id m)) in
    ret (StaticFetch f).

(** What the handler of lines 613-646 returns: nothing, or the promise of
    the nested [fetchModule] with the alias its continuation will record. *)
Inductive DynamicDone :=
| DynamicRecorded
| DynamicFetch (alias : string) (f : Fetch).

(** Lines 613-646; [replacement] is what [resolveDynamicImport] settled
    with, [None] for [null]/[undefined]. *)
Definition fetchAllDependencies_dynamic (module : addr) (index : nat)
    (dynamicImportExpression : DynamicImportExpression) (replacement : option string)
  : M DynamicDone :=
  let! m := getModule module in
  if negb (match replacement with Some r => truthyString r | None => false end) then
    updModule module (with_dynamicImportResolutions
      (array_set index {| alias := None; resolution := ResUndefined |})) >>
    ret DynamicRecorded
  else
    let replacement := default "" replacement in
    let alias :=
      getAliasName H replacement
        match dynamicImportExpression with
        | DynString s => Some s
        | DynNode _ => None
        end in
    match dynamicImportExpression with
    | DynNode _ =>
        updModule module (with_dynamicImportResolutions
          (array_set index {| alias := Some alias;
                              resolution := ResReplacement replacement |})) >>
        ret DynamicRecorded
    | DynString _ =>
        if isExternal replacement (mod_id m) true then
          let! has := moduleById_has replacement in
          let! externalModule :=
            if negb has then
              let! externalModule := alloc (OExternal (newExternalModule replacement)) in
              externalModules_push externalModule >>
              moduleById_set replacement module >>
              ret (Some externalModule)
            else moduleById_get replacement in
          match externalModule with
          | Some externalModule =>
              updModule module (with_dynamicImportResolutions
                (array_set index {| alias := Some alias;
                                    resolution := ResModule externalModule |})) >>
              set_exportsNamespace externalModule >>
              ret DynamicRecorded
          | None => throw ErrType
          end
        else
          let! f := fetchModule replacement (Some (mod_id m)) in
          ret (DynamicFetch alias f)
    end.

(** Lines 642-644: the continuation of the nested [fetchModule]. *)
Definition fetchAllDependencies_dynamicFetched (module : addr) (index : nat)
    (alias : string) (depModule : addr) : M unit :=
  updModule module (with_dynamicImportResolutions
    (array_set index {| alias := Some alias; resolution := ResModule depModule |})).

End Handlers.

(** ** A concrete host and concrete modules, to run the handlers on *)

Definition emptyShape : ModuleShape :=
  {| sh_sources := []; sh_imports := []; sh_exports := [];
     sh_exportAllSources := []; sh_dynamicImportExpressions := [] |}.

(** [main.js]:
    [import { a } from './local'; import { b } from 'ext'; import('ext');
     export const x = 1; export default 2;] *)
Definition mainShape : ModuleShape :=
  {| sh_sources := ["./local"; "ext"];
     sh_imports := [("a", {| imp_source := "./local"; imp_name := "a" |});
                    ("b", {| imp_source := "ext"; imp_name := "b" |})];
     sh_exports := [("x", "x"); ("default", "default")];
     sh_exportAllSources := [];
     sh_dynamicImportExpressions := [DynString "ext"] |}.

Definition demoHost : Host :=
  {| external := ExternalArray ["ext"];
     isRelative := fun source => startsWith source ".";
     resolve := fun importer source => source;
     relativeId := fun id => id;
     getAliasName := fun id _ => id;
     analyse := fun source => nth (json_ast source) [mainShape] emptyShape |}.

Definition mainJSON : ModuleJSON :=
  {| json_id := "main.js"; originalCode := "import ..."; json_ast := 0;
     json_resolvedIds := None;
     transformAssets := Some [{| asset_name := "logo.svg"; asset_source := "<svg/>" |}];
     customTransformCache := false |}.

Definition emptyGraph (cache : gmap string ModuleJSON) : Graph :=
  {| moduleById := ∅; heap := []; modules := []; externalModules := [];
     watchFiles := ∅; cachedModules := cache; log := [] |}.

(** The graph once [main.js] has been fetched, loaded and its source set
    (the entry module, at address 0). *)
Definition mainGraph : Graph :=
  snd ((fetchModule "main.js" None >>
        fetchModule_setSource demoHost "main.js" 0 mainJSON)
         (emptyGraph ∅)).

(** ** The promise chain as a pool of pending handlers

    JavaScript runs one handler at a time, to completion.  A build in
    progress is the graph together with the handlers that wait for a hook to
    settle or for their turn; one step runs one of them.  Which one runs
    next, and what each hook settles with, is not up to the graph. *)

(** Who waits for the promise of a [fetchModule] call. *)
Inductive Waiter :=
| WaitEntry (index : nat)
| WaitStatic (parent : addr)
| WaitDynamic (parent : addr) (index : nat) (alias : string).

Inductive Task :=
| TEntry (index : nat) (entryName : string)
| TLoad (id : string) (importer : option string) (module : addr) (w : Waiter)
| TSource (id : string) (module : addr) (w : Waiter) (source : JsValue)
| TTransform (id : string) (module : addr) (w : Waiter)
| TSetSource (id : string) (module : addr) (w : Waiter) (source : ModuleJSON)
| TStatic (module : addr) (source : string)
| TResolveId (module : addr) (source : string)
| TResolved (module : addr) (source : string) (resolvedId : ResolveIdResult)
| TDynamic (module : addr) (index : nat) (expr : DynamicImportExpression)
| TDynamicFetched (module : addr) (index : nat) (alias : string) (depModule : addr)
| TFinish (module : addr) (w : Waiter).

(** What the handler that runs is given: the value or rejection of the hook
    it waited for, or nothing when it only waited for its turn. *)
Inductive Settled :=
| Turn
| SettledLoad (r : Res JsValue)
| SettledResolveId (r : Res ResolveIdResult)
| SettledDynamic (r : Res (option string))
| SettledTransform (r : Res ModuleJSON).

Record Build := {
  graph : Graph;
  pool : list Task;
  (** per module whose dependencies are being fetched: the static and dynamic
      imports whose promise has not resolved yet *)
  joins : gmap addr nat;
  (** the modules the entry promises resolved with *)
  entryModules : list (nat * addr);
  rejections : list Err
}.

Definition with_graph (g : Graph) (b : Build) : Build :=
  {| graph := g; pool := pool b; joins := joins b;
     entryModules := entryModules b; rejections := rejections b |}.

Definition spawn (ts : list Task) (b : Build) : Build :=
  {| graph := graph b; pool := pool b ++ ts; joins := joins b;
     entryModules := entryModules b; rejections := rejections b |}.

Definition reject (e : Err) (b : Build) : Build :=
  {| graph := graph b; pool := pool b; joins := joins b;
     entryModules := entryModules b; rejections := rejections b ++ [e] |}.

Definition childDone (parent : addr) (b : Build) : Build :=
  {| graph := graph b; pool := pool b; joins := alter Nat.pred parent (joins b);
     entryModules := entryModules b; rejections := rejections b |}.

Definition resolveWaiter (w : Waiter) (module : addr) (b : Build) : Build :=
  match w with
  | WaitEntry index =>
      {| graph := graph b; pool := pool b; joins := joins b;
         entryModules := entryModules b ++ [(index, module)];
         rejections := rejections b |}
  | WaitStatic parent => childDone parent b
  | WaitDynamic parent index alias =>
      spawn [TDynamicFetched parent index alias module] b
  end.

Definition awaitFetch (w : Waiter) (f : Fetch) (b : Build) : Build :=
  match f with
  | Fetched existingModule => resolveWaiter w existingModule b
  | Loading id importer module => spawn [TLoad id importer module w] b
  end.

(** Run a handler on the graph; a throw rejects its promise and nothing
    waits for it any more. *)
Definition runHandler {A} (c : M A) (k : A -> Build -> Build) (b : Build) : Build :=
  match c (graph b) with
  | (Ok a, g) => k a (with_graph g b)
  | (Throw e, g) => reject e (with_graph g b)
  end.

Definition UNRESOLVED_ENTRY (message : string) : Err := ErrCoded "UNRESOLVED_ENTRY" message.

(** Lines 235-251. *)
Definition loadModule_resolved (entryName : string) (id : ResolveIdResult) : M Fetch :=
  match id with
  | RidFalse => throw (UNRESOLVED_ENTRY "Entry module cannot be external")
  | RidNullish =>
      throw (UNRESOLVED_ENTRY ("Could not resolve entry (" +:+ entryName +:+ ")"))
  | RidString id => fetchModule id None
  end.

(** Line 311: every entry's [resolveId] hook is called at once. *)
Definition loadEntryModules (entryAndManualChunkIds : list string) : M unit :=
  forEach entryAndManualChunkIds (fun id => callHook (HookResolveId id None)).

Definition startBuild (cache : gmap string ModuleJSON)
    (entryAndManualChunkIds : list string) : Build :=
  {| graph := snd (loadEntryModules entryAndManualChunkIds (emptyGraph cache));
     pool := imap TEntry entryAndManualChunkIds;
     joins := ∅; entryModules := []; rejections := [] |}.

(** [err.message] *)
Definition errMessage (e : Err) : string :=
  match e with
  | ErrCoded _ message | ErrPlain message | ErrHook message => message
  | ErrType => "TypeError"
  end.

Definition setJoin (module : addr) (n : nat) (b : Build) : Build :=
  {| graph := graph b; pool := pool b; joins := <[module := n]> (joins b);
     entryModules := entryModules b; rejections := rejections b |}.

(** One handler, given what it waited for. *)
Definition runTask (H : Host) (t : Task) (s : Settled) (b : Build) : option Build :=
  match t, s with
  | TEntry index entryName, SettledResolveId (Ok id) =>
      Some (runHandler (loadModule_resolved entryName id) (awaitFetch (WaitEntry index)) b)
  | TEntry _ _, SettledResolveId (Throw e) => Some (reject e b)
  | TLoad id importer module w, SettledLoad (Ok source) =>
      match fetchModule_checkSource H id source with
      | Ok source => Some (spawn [TSource id module w source] b)
      | Throw e => Some (reject e b)
      end
  | TLoad id importer module w, SettledLoad (Throw e) =>
      Some (reject (fetchModule_loadFailed id importer (errMessage e)) b)
  | TSource id module w source, Turn =>
      Some (runHandler (fetchModule_cacheOrTransform id source)
              (fun r =>
                 match r with
                 | Cached cachedModule => spawn [TSetSource id module w cachedModule]
                 | Transforming => spawn [TTransform id module w]
                 end) b)
  | TTransform id module w, SettledTransform (Ok source) =>
      Some (spawn [TSetSource id module w source] b)
  | TTransform _ _ _, SettledTransform (Throw e) => Some (reject e b)
  | TSetSource id module w source, Turn =>
      Some (runHandler (fetchModule_setSource H id module source)
              (fun m b =>
                 setJoin module
                   (length (dynamicImportExpressions m) + length (sources m))
                   (spawn (imap (TDynamic module) (dynamicImportExpressions m)
                           ++ map (TStatic module) (sources m)
                           ++ [TFinish module w]) b)) b)
  | TStatic module source, Turn =>
      Some (runHandler (fetchAllDependencies_resolve H module source)
              (fun r =>
                 match r with
                 | Resolved resolvedId => spawn [TResolved module source resolvedId]
                 | AwaitResolveId => spawn [TResolveId module source]
                 end) b)
  | TResolveId module source, SettledResolveId (Ok resolvedId) =>
      Some (spawn [TResolved module source resolvedId] b)
  | TResolveId _ _, SettledResolveId (Throw e) => Some (reject e b)
  | TResolved module source resolvedId, Turn =>
      Some (runHandler (fetchAllDependencies_resolved H module source resolvedId)
              (fun d =>
                 match d with
                 | StaticExternal => childDone module
                 | StaticFetch f => awaitFetch (WaitStatic module) f
                 end) b)
  | TDynamic module index expr, SettledDynamic (Ok replacement) =>
      Some (runHandler (fetchAllDependencies_dynamic H module index expr replacement)
              (fun d =>
                 match d with
                 | DynamicRecorded => childDone module
                 | DynamicFetch alias f => awaitFetch (WaitDynamic module index alias) f
                 end) b)
  | TDynamic _ _ _, SettledDynamic (Throw e) => Some (reject e b)
  | TDynamicFetched module index alias depModule, Turn =>
      Some (runHandler (fetchAllDependencies_dynamicFetched module index alias depModule)
              (fun _ => childDone module) b)
  | TFinish module w, Turn =>
      if decide (joins b !! module = Some 0)
      then Some (runHandler (fetchModule_finish H module) (resolveWaiter w) b)
      else None
  | _, _ => None
  end.

Definition takeTask (i : nat) (b : Build) : Build :=
  {| graph := graph b; pool := delete i (pool b); joins := joins b;
     entryModules := entryModules b; rejections := rejections b |}.

(** The [i]-th pending handler runs, given [s]. *)
Definition stepAt (H : Host) (i : nat) (s : Settled) (b : Build) : option Build :=
  match pool b !! i with
  | Some t => runTask H t s (takeTask i b)
  | None => None
  end.

Definition step (H : Host) (b b' : Build) : Prop :=
  exists i s, stepAt H i s b = Some b'.

(** The builds that [loadEntryModules] can get to. *)
Definition reachable (H : Host) (cache : gmap string ModuleJSON)
    (entryAndManualChunkIds : list string) (b : Build) : Prop :=
  rtc (step H) (startBuild cache entryAndManualChunkIds) b.

(** A schedule, run from the left. *)
Fixpoint runSchedule (H : Host) (schedule : list (nat * Settled)) (b : Build)
  : option Build :=
  match schedule with
  | [] => Some b
  | (i, s) :: rest =>
      match stepAt H i s b with
      | Some b' => runSchedule H rest b'
      | None => None
      end
  end.

(** The code a [load] result carries, when it has one of the two accepted
    shapes. *)
Definition loadedCode (source : JsValue) : option string :=
  match source with
  | JString code => Some code
  | JObject fields =>
      match assoc "code" fields with
      | Some (JString code) => Some code
      | _ => None
      end
  | _ => None
  end.

Definition assetEffect (asset : Asset) : Effect :=
  EffEmitAsset (asset_name asset) (asset_source asset).

Definition isTransformEffect (e : Effect) : bool :=
  match e with
  | EffTransform _ => true
  | _ => false
  end.


(** ** Invariants of a build in progress *)

(** Effects other than a registration, a watch entry or a [load] call. *)
Definition inert (e : Effect) : Prop :=
  match e with
  | EffSetModule _ _ | EffWatch _ | EffHook (HookLoad _) => False
  | _ => True
  end.

(** The log and the tables agree, and every [load] call in the log comes
    after the registration and the watch entry of its id and is the only
    [load] call for that id. *)
Record registry_ok (g : Graph) : Prop := {
  reg_set : forall id a, EffSetModule id a ∈ log g <-> moduleById g !! id = Some a;
  reg_watch : forall id, EffWatch id ∈ log g <-> id ∈ watchFiles g;
  reg_load : forall i id,
    log g !! i = Some (EffHook (HookLoad id)) ->
    (exists j a, j < i /\ log g !! j = Some (EffSetModule id a)) /\
    (exists j, j < i /\ log g !! j = Some (EffWatch id)) /\
    (forall j, log g !! j = Some (EffHook (HookLoad id)) -> j = i)
}.

(** Objects stay where they are and keep their kind. *)
Definition heap_le (h h' : list Obj) : Prop :=
  forall a o, h !! a = Some o ->
    exists o', h' !! a = Some o' /\ obj_isExternal o' = obj_isExternal o.

Record graph_le (g g' : Graph) : Prop := {
  le_moduleById : moduleById g ⊆ moduleById g';
  le_log : exists evs, log g' = log g ++ evs;
  le_heap : heap_le (heap g) (heap g');
  le_cache : cachedModules g' = cachedModules g
}.

(** A handler of [fetchModule] that is still pending belongs to the module
    registered under its id. *)
Definition task_ok (g : Graph) (t : Task) : Prop :=
  match t with
  | TLoad id _ module _ | TSource id module _ _
  | TTransform id module _ | TSetSource id module _ _ =>
      moduleById g !! id = Some module
  | _ => True
  end.

Record build_ok (b : Build) : Prop := {
  ok_registry : registry_ok (graph b);
  ok_pool : Forall (task_ok (graph b)) (pool b)
}.

(** A computation that leaves [moduleById] and [watchFiles] alone and logs
    only inert effects. *)
Definition benign {A} (c : M A) : Prop :=
  forall g,
    moduleById (snd (c g)) = moduleById g /\
    watchFiles (snd (c g)) = watchFiles g /\
    cachedModules (snd (c g)) = cachedModules g /\
    (exists evs, log (snd (c g)) = log g ++ evs /\ Forall inert evs) /\
    heap_le (heap g) (heap (snd (c g))).

(** A computation that keeps the registry in order, given [P] of
    [moduleById] before it, and establishes [Q] of its result and
    [moduleById] after it. *)
Definition sound {A} (P : gmap string addr -> Prop) (c : M A)
    (Q : A -> gmap string addr -> Prop) : Prop :=
  forall g, registry_ok g -> P (moduleById g) ->
    registry_ok (snd (c g)) /\ graph_le g (snd (c g)) /\
    forall a, fst (c g) = Ok a -> Q a (moduleById (snd (c g))).




(** The module a pending [fetchModule] promise belongs to is the one
    registered under its id. *)
Definition fetch_registered (f : Fetch) (m : gmap string addr) : Prop :=
  match f with
  | Fetched _ => True
  | Loading id _ module => m !! id = Some module
  end.

(** A complete run of [loadEntryModules] on [main.js]: the static import
    ['./local'] resolves to [/local.js], ['ext'] is external, and the dynamic
    import ['ext'] is handled last. *)
Definition localJSON : ModuleJSON :=
  {| json_id := "/local.js"; originalCode := "export const a = 1"; json_ast := 1;
     json_resolvedIds := None; transformAssets := None;
     customTransformCache := false |}.

Definition demoSchedule : list (nat * Settled) :=
  [(0, SettledResolveId (Ok (RidString "main.js")));
   (0, SettledLoad (Ok (JString "import ...")));
   (0, Turn);
   (0, SettledTransform (Ok mainJSON));
   (0, Turn);
   (1, Turn); (1, Turn);
   (2, SettledResolveId (Ok (RidString "/local.js")));
   (2, Turn);
   (0, SettledDynamic (Ok (Some "ext")));
   (1, Turn);
   (1, SettledLoad (Ok (JString "export const a = 1")));
   (1, Turn);
   (1, SettledTransform (Ok localJSON));
   (1, Turn); (1, Turn); (0, Turn)].

Definition demoStart : Build := startBuild ∅ ["main.js"].

Definition demoBuild : Build :=
  default demoStart (runSchedule demoHost demoSchedule demoStart).


(** ** [includeMarked] (Graph.ts, lines 263-281)

    [Module.include] and [Module.includeAllInBundle] belong to [Module.ts],
    which is not among the sources; the pass is embedded over any
    implementation of them.  The inclusion state of a build is the set of
    AST nodes flagged as included. *)

Inductive IncludeCall :=
| CallInclude (module : addr)
| CallIncludeAllInBundle (module : addr).

Section IncludeMarked.

(** [module.include()]: the new inclusion state and the returned flag. *)
Variable include : addr -> gset nat -> gset nat * bool.

(** [module.includeAllInBundle()] *)
Variable includeAllInBundle : addr -> gset nat -> gset nat.

(** One run of the [for] loop of lines 270-274, from inclusion state [s]
    with calls [calls] made so far: the state, the calls and
    [needsTreeshakingPass] when the loop is over. *)
Fixpoint treeshakingPass_run (modules : list addr) (s : gset nat)
    (calls : list IncludeCall) (needsTreeshakingPass : bool)
  : gset nat * list IncludeCall * bool :=
  match modules with
  | [] => (s, calls, needsTreeshakingPass)
  | module :: rest =>
      let '(s', changed) := include module s in
      treeshakingPass_run rest s' (calls ++ [CallInclude module])
        (if changed then true else needsTreeshakingPass)
  end.

(** The [do ... while] loop of lines 267-276; [fuel] bounds the number of
    passes, [treeshakingPass] is the counter of line 266.  [None]: out of
    fuel. *)
Fixpoint treeshakingLoop (fuel : nat) (modules : list addr) (s : gset nat)
    (calls : list IncludeCall) (treeshakingPass : nat)
  : option (gset nat * list IncludeCall * nat) :=
  match fuel with
  | O => None
  | S fuel =>
      let '(s', calls', needsTreeshakingPass) :=
        treeshakingPass_run modules s calls false in
      if needsTreeshakingPass
      then treeshakingLoop fuel modules s' calls' (S treeshakingPass)
      else Some (s', calls', S treeshakingPass)
  end.

Definition includeAll (modules : list addr) (s : gset nat) (calls : list IncludeCall)
  : gset nat * list IncludeCall :=
  foldl (fun '(s, calls) module =>
           (includeAllInBundle module s, calls ++ [CallIncludeAllInBundle module]))
        (s, calls) modules.

(** [includeMarked(modules)], from inclusion state [s]: the final state and
    the calls made, in order. *)
Definition includeMarked (treeshake : bool) (fuel : nat) (modules : list addr)
    (s : gset nat) : option (gset nat * list IncludeCall) :=
  if treeshake then
    match treeshakingLoop fuel modules s [] 1 with
    | Some (s', calls, _) => Some (s', calls)
    | None => None
    end
  else Some (includeAll modules s []).

(** The inclusion state after [n] passes. *)
Fixpoint afterPasses (n : nat) (modules : list addr) (s : gset nat) : gset nat :=
  match n with
  | O => s
  | S n => afterPasses n modules (fst (fst (treeshakingPass_run modules s [] false)))
  end.

End IncludeMarked.

(** A concrete [include]: module [m] includes its own node [m] and, once
    that is included, the node [m + 1] it refers to. *)
Definition demoInclude (module : addr) (s : gset nat) : gset nat * bool :=
  if bool_decide (module ∈ s) then
    if bool_decide (S module ∈ s) then (s, false) else ({[S module]} ∪ s, true)
  else ({[module]} ∪ s, true).

(** The precondition of the tree-shaking loop: on the modules at hand,
    [include] only adds nodes of the graph to the inclusion state, and
    returns [true] exactly when it changed the state. *)
Definition include_grows (include : addr -> gset nat -> gset nat * bool)
    (nodes : gset nat) (modules : list addr) : Prop :=
  forall m t, m ∈ modules -> t ⊆ nodes ->
    t ⊆ fst (include m t) /\ fst (include m t) ⊆ nodes.

Definition include_reports (include : addr -> gset nat -> gset nat * bool)
    (nodes : gset nat) (modules : list addr) : Prop :=
  forall m t, m ∈ modules -> t ⊆ nodes ->
    (snd (include m t) = true <-> fst (include m t) <> t).

(** ** The chunk grouping of [build] (Graph.ts, lines 443-468) *)

(** A module as [analyzeModuleExecution] hands it to the grouping: the
    object, its [entryPointsHash] (a [Uint8Array]) and its place in the
    execution order. *)
Record OrderedModule := {
  om_module : addr;
  entryPointsHash : list Byte.byte;
  execIndex : nat;
  isEntryPoint : bool
}.

(** Modelled from the spec: a [Chunk] is an ordered list of modules
    ([Chunk.ts] is not among the sources), with its [entryModule] if any. *)
Record Chunk := {
  chunk_modules : list OrderedModule;
  entryModule : option OrderedModule
}.

Definition newChunk (orderedModules : list OrderedModule) : Chunk :=
  {| chunk_modules := orderedModules; entryModule := None |}.

(** Modelled from the spec: [sortByExecutionOrder] of
    [utils/execution-order] sorts the array by execution order. *)
Fixpoint insertByExecIndex (m : OrderedModule) (l : list OrderedModule)
  : list OrderedModule :=
  match l with
  | [] => [m]
  | x :: rest =>
      if (execIndex m <? execIndex x)%nat then m :: x :: rest
      else x :: insertByExecIndex m rest
  end.

Definition sortByExecutionOrder (units : list OrderedModule) : list OrderedModule :=
  foldr insertByExecIndex [] units.

(** The property names every object literal inherits from
    [Object.prototype]: reading one of them off [{}] gives a function (or
    the prototype itself), never [undefined]. *)
Definition objectPrototypeKeys : list string :=
  ["constructor"; "__proto__"; "hasOwnProperty"; "isPrototypeOf";
   "propertyIsEnumerable"; "toLocaleString"; "toString"; "valueOf";
   "__defineGetter__"; "__defineSetter__"; "__lookupGetter__"; "__lookupSetter__"].

Section BuildChunks.

(** [Uint8ArrayToHexString] of [utils/entryHashing] and [chunk.isEmpty] of
    [Chunk.ts] are not among the sources. *)
Variable Uint8ArrayToHexString : list Byte.byte -> string.
Variable chunkIsEmpty : list OrderedModule -> bool.

(** Lines 453-459, one module.  [chunkModules] is created as [{}], so a key
    that is not an own property may still be found on the prototype: then
    [curChunk] is truthy and [curChunk.push] is not a function. *)
Definition build_group (chunkModules : Res (list (string * list OrderedModule)))
    (module : OrderedModule) : Res (list (string * list OrderedModule)) :=
  match chunkModules with
  | Ok chunkModules =>
      let entryPointsHashStr := Uint8ArrayToHexString (entryPointsHash module) in
      match obj_get entryPointsHashStr chunkModules with
      | Some curChunk =>
          Ok (obj_set entryPointsHashStr (curChunk ++ [module]) chunkModules)
      | None =>
          if bool_decide (entryPointsHashStr ∈ objectPrototypeKeys) then Throw ErrType
          else Ok (obj_set entryPointsHashStr [module] chunkModules)
      end
  | Throw e => Throw e
  end.

(** Lines 443-468: the chunks of [orderedModules]. *)
Definition build_chunks (preserveModules : bool) (orderedModules : list OrderedModule)
  : Res (list Chunk) :=
  if preserveModules then
    Ok (map (fun module =>
               if isEntryPoint module || negb (chunkIsEmpty [module])
               then {| chunk_modules := [module]; entryModule := Some module |}
               else newChunk [module])
            orderedModules)
  else
    match foldl build_group (Ok []) orderedModules with
    | Ok chunkModules =>
        Ok (map (fun '(entryHashSum, chunkModulesOrdered) =>
                   newChunk (sortByExecutionOrder chunkModulesOrdered))
                (obj_entries chunkModules))
    | Throw e => Throw e
    end.

(** The modules of [l] whose hash encodes to [key], in order. *)
Definition withKey (key : string) (l : list OrderedModule) : list OrderedModule :=
  List.filter (fun m => String.eqb (Uint8ArrayToHexString (entryPointsHash m)) key) l.

End BuildChunks.

(** A concrete encoder, two hex digits per byte, and three modules: two
    reached from the same entries, one from another entry. *)
Definition hexDigit (n : N) : ascii :=
  ascii_of_N (if (n <? 10)%N then 48 + n else 87 + n).

Definition demoHex (bytes : list Byte.byte) : string :=
  foldr (fun b acc =>
           let n := Byte.to_N b in
           String (hexDigit (n / 16)) (String (hexDigit (n mod 16)) acc))
        EmptyString bytes.

Definition demoOrdered : list OrderedModule :=
  [{| om_module := 2; entryPointsHash := [Byte.x0a; Byte.xff]; execIndex := 0;
      isEntryPoint := false |};
   {| om_module := 1; entryPointsHash := [Byte.x01; Byte.x00]; execIndex := 1;
      isEntryPoint := true |};
   {| om_module := 0; entryPointsHash := [Byte.x0a; Byte.xff]; execIndex := 2;
      isEntryPoint := true |}].

Section Grouped.

Variable Uint8ArrayToHexString : list Byte.byte -> string.

(** What the grouping loop has built after the modules [processed]: one own
    key per hash encoding met, holding the modules with that encoding in the
    order met. *)
Definition grouped (processed : list OrderedModule)
    (chunkModules : list (string * list OrderedModule)) : Prop :=
  List.NoDup (map fst chunkModules) /\
  forall k, obj_get k chunkModules =
            match withKey Uint8ArrayToHexString k processed with
            | [] => None
            | ms => Some ms
            end.

End Grouped.

(** Strings of hex digits. *)
Definition isHexDigit (c : ascii) : bool :=
  let n := N_of_ascii c in
  ((48 <=? n) && (n <=? 57) || (97 <=? n) && (n <=? 102)
   || (65 <=? n) && (n <=? 70))%N.

Fixpoint isHexString (s : string) : bool :=
  match s with
  | EmptyString => true
  | String c rest => isHexDigit c && isHexString rest
  end.

(** The same run after its first step: [main.js] is registered, its [load]
    hook pending. *)
Definition demoLoading : Build :=
  default demoStart (runSchedule demoHost (take 1 demoSchedule) demoStart).

(** ** The default warning handler (Graph.ts, lines 35-44) *)

(** What the closure of [makeOnwarn] holds and has done: [warned], an object
    without prototype whose keys are the strings printed so far, and the
    lines written with [console.error], oldest first. *)
Record Onwarn := {
  warned : list (string * bool);
  console : list string
}.

Definition makeOnwarn : Onwarn := {| warned := []; console := [] |}.

(** The handler [makeOnwarn] returns, called with a warning whose
    [toString()] is [str]. *)
Definition onwarn (str : string) (st : Onwarn) : Onwarn :=
  if obj_has str (warned st) then st
  else {| warned := obj_set str true (warned st); console := console st ++ [str] |}.

(** The handler called once per warning of [warnings], in order. *)
Definition onwarn_all {W} (toString : W -> string) (warnings : list W) : Onwarn :=
  foldl (fun st warning => onwarn (toString warning) st) makeOnwarn warnings.

(** ** The plugin cache: the constructor (Graph.ts, lines 85-98) and
    [getCache] (lines 206-222) *)

(** [delete o[k]] *)
Definition obj_delete {V} (k : string) (o : JsObj V) : JsObj V :=
  List.filter (fun e => negb (String.eqb k (fst e))) o.

(** A loop over a list of keys that updates [s], left at the first throw. *)
Definition forKeys {S} (keys : list string) (body : string -> S -> Res S) (s : S)
  : Res S :=
  foldl (fun acc k =>
           match acc with
           | Ok s => body k s
           | Throw e => Throw e
           end) (Ok s) keys.

(** A [SerializablePluginCache] maps a key to the pair [[accessCount,
    value]]; [pluginCache] maps a plugin name to its cache.  Access counts
    are counts of builds, far below [2^53]. *)
Abbreviation SerializablePluginCache := (list (string * (Z * JsValue))) (only parsing).
Abbreviation PluginCache := (list (string * list (string * (Z * JsValue)))) (only parsing).

(** [options.cache]: [false], nothing, or an object with [modules] and
    [plugins], either of which may be missing. *)
Inductive CacheOption :=
| CacheFalse
| CacheAbsent
| CacheObject (modules : option (list ModuleJSON)) (plugins : option PluginCache).

(** Lines 85-89. *)
Definition constructor_cachedModules (cache : CacheOption) : gmap string ModuleJSON :=
  match cache with
  | CacheObject (Some modules) _ =>
      foldl (fun cachedModules module => <[json_id module := module]> cachedModules)
            ∅ modules
  | _ => ∅
  end.

(** Line 96: [cache[key][0]++] for every key of one plugin's cache. *)
Definition constructor_touch (cache : SerializablePluginCache)
  : Res SerializablePluginCache :=
  forKeys (obj_keys cache)
    (fun key cache =>
       match obj_get key cache with
       | Some (accessCount, value) => Ok (obj_set key (accessCount + 1, value)%Z cache)
       | None => Throw ErrType
       end) cache.

(** Lines 93-97: increment access counter. *)
Definition constructor_touchAll (pluginCache : PluginCache) : Res PluginCache :=
  forKeys (obj_keys pluginCache)
    (fun name pluginCache =>
       match obj_get name pluginCache with
       | Some cache =>
           match constructor_touch cache with
           | Ok cache => Ok (obj_set name cache pluginCache)
           | Throw e => Throw e
           end
       | None => Throw ErrType
       end) pluginCache.

(** Lines 90-98: [this.pluginCache], left [undefined] when [options.cache]
    is [false]. *)
Definition constructor_pluginCache (cache : CacheOption) : Res (option PluginCache) :=
  match cache with
  | CacheFalse => Ok None
  | _ =>
      let pluginCache :=
        match cache with
        | CacheObject _ (Some plugins) => plugins
        | _ => []
        end in
      match constructor_touchAll pluginCache with
      | Ok pluginCache => Ok (Some pluginCache)
      | Throw e => Throw e
      end
  end.

(** [accessCount >= this.cacheExpiry]; [cacheExpiry] is [None] when the
    option is [undefined], to which no number compares. *)
Definition expired (cacheExpiry : option Z) (accessCount : Z) : bool :=
  match cacheExpiry with
  | Some cacheExpiry => (cacheExpiry <=? accessCount)%Z
  | None => false
  end.

(** Lines 210-214, for one plugin's cache: the cache after the evictions and
    [allDeleted]. *)
Definition getCache_evict (cacheExpiry : option Z) (cache : SerializablePluginCache)
  : Res (SerializablePluginCache * bool) :=
  forKeys (obj_keys cache)
    (fun key '(cache, allDeleted) =>
       match obj_get key cache with
       | Some (accessCount, _) =>
           if expired cacheExpiry accessCount then Ok (obj_delete key cache, allDeleted)
           else Ok (cache, false)
       | None => Throw ErrType
       end) (cache, true).

(** Lines 207-216: handle plugin cache eviction. *)
Definition getCache_plugins (cacheExpiry : option Z) (pluginCache : PluginCache)
  : Res PluginCache :=
  forKeys (obj_keys pluginCache)
    (fun name pluginCache =>
       match obj_get name pluginCache with
       | Some cache =>
           match getCache_evict cacheExpiry cache with
           | Ok (cache, allDeleted) =>
               let pluginCache := obj_set name cache pluginCache in
               if allDeleted then Ok (obj_delete name pluginCache) else Ok pluginCache
           | Throw e => Throw e
           end
       | None => Throw ErrType
       end) pluginCache.



(** An object's own keys are distinct. *)
Definition obj_wf {V} (o : JsObj V) : Prop := NoDup (map fst o).

Definition pluginCache_wf (pluginCache : PluginCache) : Prop :=
  obj_wf pluginCache /\ Forall (fun e => obj_wf (snd e)) pluginCache.

(** [pluginCache[name][key]] *)
Definition cacheEntry (pluginCache : PluginCache) (name key : string)
  : option (Z * JsValue) :=
  match obj_get name pluginCache with
  | Some cache => obj_get key cache
  | None => None
  end.

(** A plugin cache to run the loops on: one entry used in the build before,
    one that has not been used for two builds. *)
Definition demoPluginCache : list (string * list (string * (Z * JsValue))) :=
  [("commonjs", [("a.js", (0%Z, JString "fresh")); ("b.js", (2%Z, JString "stale"))]);
   ("json", [("c.json", (2%Z, JNull))])].

(** ** [context] and [getModuleContext] (Graph.ts, lines 163-176) *)

(** [options.moduleContext]: a function from an id to a context (or to
    nothing), an object from paths to contexts, [null], or anything else. *)
Inductive ModuleContextOption :=
| ModuleContextFunction (optionsModuleContext : string -> option string)
| ModuleContextObject (optionsModuleContext : list (string * string))
| ModuleContextNull
| ModuleContextOther.

(** [String(options.context)] *)
Definition constructor_context (context : option string) : string :=
  default "undefined" context.

(** [value || context] *)
Definition orContext (value : option string) (context : string) : string :=
  match value with
  | Some value => if truthyString value then value else context
  | None => context
  end.

Section ModuleContext.

(** [resolve(key)] of [utils/path], which is not among the sources. *)
Variable resolvePath : string -> string.

(** Lines 169-172: the [Map] from resolved paths to contexts. *)
Definition constructor_moduleContext (optionsModuleContext : list (string * string))
  : gmap string (option string) :=
  foldl (fun moduleContext key =>
           <[resolvePath key := obj_get key optionsModuleContext]> moduleContext)
        ∅ (obj_keys optionsModuleContext).

(** Lines 165-176.  [typeof null] is ['object'], and a [for-in] loop over
    [null] has no iterations. *)
Definition constructor_getModuleContext (optionsModuleContext : ModuleContextOption)
    (context : string) : string -> string :=
  match optionsModuleContext with
  | ModuleContextFunction optionsModuleContext =>
      fun id => orContext (optionsModuleContext id) context
  | ModuleContextObject optionsModuleContext =>
      let moduleContext := constructor_moduleContext optionsModuleContext in
      fun id => orContext (mjoin (moduleContext !! id)) context
  | ModuleContextNull =>
      let moduleContext : gmap string (option string) := ∅ in
      fun id => orContext (mjoin (moduleContext !! id)) context
  | ModuleContextOther => fun _ => context
  end.

End ModuleContext.

(** ** [loadEntryModules] (Graph.ts, lines 283-335) *)

(** The [input] option: one id, an array of ids, or an object from aliases
    to ids. *)
Inductive EntryOption :=
| EntryString (entryModules : string)
| EntryArray (entryModules : list string)
| EntryObject (entryModules : list (string * string)).

Record EntryIds := {
  removeAliasExtensions : bool;
  entryModuleAliases : list string;
  entryModuleIds : list string;
  entryAndManualChunkIds : list string
}.

(** [o[k]] for a key [k] that [Object.keys(o)] has listed. *)
Definition obj_at {V} (missing : V) (k : string) (o : JsObj V) : V :=
  default missing (obj_get k o).

(** Lines 302-309: the ids of the manual chunks join the ids to load,
    unless already there. *)
Definition addManualChunkIds (manualChunks : list (string * list string))
    (entryAndManualChunkIds : list string) : list string :=
  foldl (fun entryAndManualChunkIds name =>
           let manualChunkIds := obj_at [] name manualChunks in
           foldl (fun entryAndManualChunkIds id =>
                    if bool_decide (id ∈ entryAndManualChunkIds)
                    then entryAndManualChunkIds
                    else entryAndManualChunkIds ++ [id])
                 entryAndManualChunkIds manualChunkIds)
        entryAndManualChunkIds (obj_keys manualChunks).

(** Lines 287-309. *)
Definition loadEntryModules_ids (entryModules : EntryOption)
    (manualChunks : option (list (string * list string))) : EntryIds :=
  let entryModules :=
    match entryModules with
    | EntryString entryModules => EntryArray [entryModules]
    | _ => entryModules
    end in
  let '(removeAliasExtensions, entryModuleAliases, entryModuleIds) :=
    match entryModules with
    | EntryObject entryModules =>
        let entryModuleAliases := obj_keys entryModules in
        (false, entryModuleAliases,
         map (fun name => obj_at "" name entryModules) entryModuleAliases)
    | EntryArray entryModules => (true, entryModules, entryModules)
    | EntryString entryModules => (true, [entryModules], [entryModules])
    end in
  let entryAndManualChunkIds := entryModuleIds in
  {| removeAliasExtensions := removeAliasExtensions;
     entryModuleAliases := entryModuleAliases;
     entryModuleIds := entryModuleIds;
     entryAndManualChunkIds :=
       match manualChunks with
       | Some manualChunks => addManualChunkIds manualChunks entryAndManualChunkIds
       | None => entryAndManualChunkIds
       end |}.

(** [array.indexOf(x)], [None] for [-1]. *)
Definition indexOf {A} `{EqDecision A} (x : A) (array : list A) : option nat :=
  fst <$> list_find (fun y => y = x) array.

(** [o[k] = v] on an object literal [o], for a [v] that is an object:
    assigning to [__proto__] replaces the prototype and adds no own key. *)
Definition literal_set {V} (k : string) (v : V) (o : JsObj V) : JsObj V :=
  if String.eqb k "__proto__" then o else obj_set k v o.

Record LoadedEntries := {
  loaded_entryModules : list addr;
  loaded_entryModuleAliases : list string;
  (** an element is [None] where the array holds [undefined] *)
  manualChunkModules : option (list (string * list (option addr)))
}.

Section LoadEntryModules.

Variable H : Host.

(** [module.id] *)
Variable idOf : addr -> string.

(** Lines 313-316. *)
Definition removeExtensions (entryAndChunkModules : list addr)
    (entryModuleAliases : list string) : Res (list string) :=
  foldl (fun acc i =>
           match acc with
           | Ok entryModuleAliases =>
               match entryAndChunkModules !! i, entryModuleAliases !! i with
               | Some module, Some alias =>
                   Ok (<[i := getAliasName H (idOf module) (Some alias)]>
                         entryModuleAliases)
               | _, _ => Throw ErrType
               end
           | Throw e => Throw e
           end)
        (Ok entryModuleAliases) (seq 0 (length entryModuleAliases)).

(** Lines 312-333: the handler that runs when every [loadModule] promise of
    line 311 has resolved, with the modules in the order of
    [entryAndManualChunkIds]. *)
Definition loadEntryModules_loaded (ids : EntryIds)
    (manualChunks : option (list (string * list string)))
    (entryAndChunkModules : list addr) : Res LoadedEntries :=
  match (if removeAliasExtensions ids
         then removeExtensions entryAndChunkModules (entryModuleAliases ids)
         else Ok (entryModuleAliases ids)) with
  | Ok entryModuleAliases =>
      let entryModules := take (length (entryModuleIds ids)) entryAndChunkModules in
      let manualChunkModules :=
        match manualChunks with
        | Some manualChunks =>
            Some (foldl (fun manualChunkModules chunkName =>
                           let chunk := obj_at [] chunkName manualChunks in
                           literal_set chunkName
                             (map (fun entryId =>
                                     let entryIndex :=
                                       indexOf entryId (entryAndManualChunkIds ids) in
                                     entryIndex ≫= fun entryIndex =>
                                       entryAndChunkModules !! entryIndex)
                                  chunk)
                             manualChunkModules)
                        [] (obj_keys manualChunks))
        | None => None
        end in
      Ok {| loaded_entryModules := entryModules;
            loaded_entryModuleAliases := entryModuleAliases;
            manualChunkModules := manualChunkModules |}
  | Throw e => Throw e
  end.

End LoadEntryModules.

(** What the inner loop of lines 305-307 keeps: the ids to load are the
    ids it started from followed by distinct new ones. *)
Definition extends_ids (ids0 cur : list string) (allowed : string -> Prop) : Prop :=
  exists added, cur = ids0 ++ added /\ NoDup added /\
    forall id, id ∈ added -> (id ∉ ids0) /\ allowed id.

(** ** The entry points of [build] (Graph.ts, lines 357-370 and 393-418) *)

(** [array.indexOf(x, fromIndex)], [None] for [-1]. *)
Definition indexOfFrom {A} `{EqDecision A} (x : A) (array : list A) (fromIndex : nat)
  : option nat :=
  (fun i => fromIndex + i) <$> indexOf x (drop fromIndex array).

(** An array element inside a template string; a missing one prints as
    [undefined]. *)
Definition printed (array : list string) (i : nat) : string :=
  default "undefined" (array !! i).

Definition DUPLICATE_ENTRY_POINTS_error (alias duplicateAlias id : string) : Err :=
  ErrCoded "DUPLICATE_ENTRY_POINTS"
    ("Duplicate entry points detected. The input entries " +:+ alias +:+ " and "
     +:+ duplicateAlias +:+ " both point to the same module, " +:+ id).

(** Lines 357-370.  Modules are compared by identity, that is by address. *)
Definition build_checkEntryPoints (idOf : addr -> string) (entryModules : list addr)
    (entryModuleAliases : list string) : Res unit :=
  foldl (fun acc i =>
           match acc with
           | Ok _ =>
               match entryModules !! i with
               | Some entryModule =>
                   match indexOfFrom entryModule entryModules (i + 1) with
                   | Some duplicateIndex =>
                       Throw (DUPLICATE_ENTRY_POINTS_error
                                (printed entryModuleAliases i)
                                (printed entryModuleAliases duplicateIndex)
                                (idOf entryModule))
                   | None => Ok tt
                   end
               | None => Ok tt
               end
           | Throw e => Throw e
           end)
        (Ok tt) (seq 0 (length entryModules)).

(** [module.chunkAlias = alias], in the table of the [chunkAlias] properties
    of the module objects; an [undefined] alias reads like none. *)
Definition set_chunkAlias (module : addr) (alias : option string)
    (chunkAlias : gmap addr string) : gmap addr string :=
  match alias with
  | Some alias => <[module := alias]> chunkAlias
  | None => delete module chunkAlias
  end.

(** Lines 393-397: the loop runs from the last entry module to the first. *)
Definition build_setChunkAliases (entryModules : list addr)
    (entryModuleAliases : list string) (chunkAlias : gmap addr string)
  : gmap addr string :=
  foldl (fun chunkAlias i =>
           match entryModules !! i with
           | Some entryModule =>
               set_chunkAlias entryModule (entryModuleAliases !! i) chunkAlias
           | None => chunkAlias
           end)
        chunkAlias (reverse (seq 0 (length entryModules))).

(** Lines 410-417. *)
Definition build_addDynamicEntries (dynamicImports : list addr)
    (dynamicImportAliases : list string) (entryModules : list addr)
    (chunkAlias : gmap addr string) : list addr * gmap addr string :=
  foldl (fun '(entryModules, chunkAlias) i =>
           match dynamicImports !! i with
           | Some dynamicImportModule =>
               if bool_decide (indexOf dynamicImportModule entryModules = None) then
                 (entryModules ++ [dynamicImportModule],
                  if negb (match chunkAlias !! dynamicImportModule with
                           | Some alias => truthyString alias
                           | None => false
                           end)
                  then set_chunkAlias dynamicImportModule (dynamicImportAliases !! i)
                         chunkAlias
                  else chunkAlias)
               else (entryModules, chunkAlias)
           | None => (entryModules, chunkAlias)
           end)
        (entryModules, chunkAlias) (seq 0 (length dynamicImports)).

(** What lines 399-408 call on the dynamically imported modules. *)
Inductive InlineCall :=
| CallMarkPublicExports (module : addr)
| CallIncludeNamespace (module : addr).

(** Lines 393-418: the entry modules, their [chunkAlias] and the calls made
    when [build] gets to its third phase. *)
Definition build_entryPoints (inlineDynamicImports : bool) (entryModules : list addr)
    (entryModuleAliases : list string) (dynamicImports : list addr)
    (dynamicImportAliases : list string) (chunkAlias : gmap addr string)
  : Res (list addr * gmap addr string * list InlineCall) :=
  let chunkAlias := build_setChunkAliases entryModules entryModuleAliases chunkAlias in
  if inlineDynamicImports then
    let entryModule := entryModules !! 0 in
    if (1 <? length entryModules)%nat then
      Throw (ErrPlain
        "Internal Error: can only inline dynamic imports for single-file builds.")
    else
      Ok (entryModules, chunkAlias,
          flat_map (fun dynamicImportModule =>
                      (if bool_decide (entryModule <> Some dynamicImportModule)
                       then [CallMarkPublicExports dynamicImportModule] else [])
                      ++ [CallIncludeNamespace dynamicImportModule])
                   dynamicImports)
  else
    let '(entryModules, chunkAlias) :=
      build_addDynamicEntries dynamicImports dynamicImportAliases entryModules
        chunkAlias in
    Ok (entryModules, chunkAlias, []).

(** The distinct elements of a list, each at its first occurrence. *)
Definition firstOccurrences (l : list string) : list string :=
  foldl (fun seen x => if bool_decide (x ∈ seen) then seen else seen ++ [x]) [] l.

(** ** Reasoning about one handler

    [triple I P c Q]: run from a graph with the invariant [I] and the
    precondition [P], the computation [c] leaves a graph with [I], whether
    it returns or throws, and a returned value satisfies [Q] there. *)
Definition triple {A} (I P : Graph -> Prop) (c : M A) (Q : A -> Graph -> Prop) : Prop :=
  forall g, I g -> P g ->
    I (snd (c g)) /\ forall a, fst (c g) = Ok a -> Q a (snd (c g)).

(** The module at [module] has the id [id] and, in its [exportsAll], at
    least the names of [mine] with their origins. *)
Definition ownsExports (module : addr) (id : string) (mine : list (string * string))
    (g : Graph) : Prop :=
  exists m, heap g !! module = Some (OModule m) /\ mod_id m = id /\
    forall name origin, obj_get name mine = Some origin ->
      obj_get name (exportsAll m) = Some origin.

(** A graph with two modules to run the merge of [export *] on: [main.js],
    at address 0, exports [x] itself and re-exports all of [dep.js], at
    address 1, which exports [x] and [y]. *)
Definition demoReexporter : ModuleRec :=
  {| mod_id := "main.js"; sources := ["./dep"]; resolvedIds := [("./dep", "dep.js")];
     imports := []; exports := [("x", "x")]; exportAllSources := ["./dep"];
     exportsAll := [("x", "main.js")];
     dynamicImportExpressions := []; dynamicImportResolutions := [];
     mod_exportsNamespace := false |}.

Definition demoReexported : ModuleRec :=
  {| mod_id := "dep.js"; sources := []; resolvedIds := [];
     imports := []; exports := [("x", "x"); ("y", "y")]; exportAllSources := [];
     exportsAll := [("x", "dep.js"); ("y", "dep.js")];
     dynamicImportExpressions := []; dynamicImportResolutions := [];
     mod_exportsNamespace := false |}.

Definition demoMergeGraph : Graph :=
  {| moduleById := {["main.js" := 0; "dep.js" := 1]};
     heap := [OModule demoReexporter; OModule demoReexported];
     modules := [0; 1]; externalModules := []; watchFiles := {["main.js"; "dep.js"]};
     cachedModules := ∅; log := [] |}.

(** ** More invariants of a build in progress *)

(** [object.id] *)
Definition obj_id (o : Obj) : string :=
  match o with
  | OModule m => mod_id m
  | OExternal x => ext_id x
  end.

(** Objects stay where they are and keep their kind and their id. *)
Definition heap_ext (h h' : list Obj) : Prop :=
  forall a o, h !! a = Some o ->
    exists o', h' !! a = Some o' /\
      obj_isExternal o' = obj_isExternal o /\ obj_id o' = obj_id o.

Definition isModuleAt (g : Graph) (a : addr) (id : string) : Prop :=
  exists m, heap g !! a = Some (OModule m) /\ mod_id m = id.

Section Invariants.

Variable H : Host.

(** The effects a handler may log without touching the tables: a
    [resolveId] call for an import that [isExternal] has turned down, a
    [resolveDynamicImport] call, a re-emitted asset, a warning. *)
Definition silent (e : Effect) : Prop :=
  match e with
  | EffHook (HookResolveId source (Some importer)) =>
      isExternal H source importer false = false
  | EffHook (HookResolveDynamicImport _ _) | EffEmitAsset _ _ | EffWarn _ => True
  | _ => False
  end.

(** A step that leaves the tables alone: objects may be allocated or
    updated in place, silent effects logged. *)
Record qstep (g g' : Graph) : Prop := {
  q_moduleById : moduleById g' = moduleById g;
  q_watchFiles : watchFiles g' = watchFiles g;
  q_modules : modules g' = modules g;
  q_externalModules : externalModules g' = externalModules g;
  q_log : exists evs, log g' = log g ++ evs /\ Forall silent evs;
  q_heap : heap_ext (heap g) (heap g')
}.

Definition quiet {A} (c : M A) : Prop := forall g, qstep g (snd (c g)).

(** A step of any handler but the two that push onto [modules] or call
    [transform]. *)
Record gstep (g g' : Graph) : Prop := {
  s_moduleById : moduleById g ⊆ moduleById g';
  s_heap : heap_ext (heap g) (heap g');
  s_modules : modules g' = modules g;
  s_transform : forall id, EffTransform id ∈ log g' -> EffTransform id ∈ log g;
  s_load : forall id, EffHook (HookLoad id) ∈ log g -> EffHook (HookLoad id) ∈ log g'
}.

Record graph_wf (g : Graph) : Prop := {
  wf_watched : forall id, id ∈ watchFiles g -> EffHook (HookLoad id) ∈ log g;
  wf_loaded : forall id, EffHook (HookLoad id) ∈ log g ->
    exists a, moduleById g !! id = Some a /\ isModuleAt g a id;
  wf_modules : forall a, a ∈ modules g ->
    exists m, heap g !! a = Some (OModule m) /\ moduleById g !! mod_id m = Some a;
  wf_modules_NoDup : NoDup (modules g);
  wf_externalModules : forall a, a ∈ externalModules g ->
    exists x, heap g !! a = Some (OExternal x) /\ is_Some (moduleById g !! ext_id x);
  wf_external_ids : forall i j a a' x x',
    externalModules g !! i = Some a -> externalModules g !! j = Some a' ->
    heap g !! a = Some (OExternal x) -> heap g !! a' = Some (OExternal x') ->
    ext_id x = ext_id x' -> i = j;
  wf_transform_loaded : forall id,
    EffTransform id ∈ log g -> EffHook (HookLoad id) ∈ log g;
  wf_transform_once : forall i j id,
    log g !! i = Some (EffTransform id) -> log g !! j = Some (EffTransform id) -> i = j;
  wf_resolveId : forall source importer,
    EffHook (HookResolveId source (Some importer)) ∈ log g ->
    isExternal H source importer false = false
}.

(** The id a pending handler of [fetchModule] works on, up to the handler
    that sets the source. *)
Definition stage_id (t : Task) : option string :=
  match t with
  | TLoad id _ _ _ | TSource id _ _ _ | TTransform id _ _ | TSetSource id _ _ _ => Some id
  | _ => None
  end.

(** What a pending handler can rely on: the module of a [fetchModule] in
    progress is the [Module] registered under its id, loaded, not yet in
    [modules] and, until the cache has been looked at, not transformed; the
    module a promise has resolved or will resolve with is a [Module]. *)
Definition task_wf (g : Graph) (t : Task) : Prop :=
  match t with
  | TLoad id _ module _ | TSource id module _ _ =>
      moduleById g !! id = Some module /\ isModuleAt g module id /\
      EffHook (HookLoad id) ∈ log g /\
      (module ∉ modules g) /\ (EffTransform id ∉ log g)
  | TTransform id module _ | TSetSource id module _ _ =>
      moduleById g !! id = Some module /\ isModuleAt g module id /\
      EffHook (HookLoad id) ∈ log g /\
      module ∉ modules g
  | TFinish module _ => exists m, heap g !! module = Some (OModule m)
  | TDynamicFetched _ _ _ depModule => exists m, heap g !! depModule = Some (OModule m)
  | _ => True
  end.

(** No two pending handlers of [fetchModule] work on the same id. *)
Definition stage_unique (pool : list Task) : Prop :=
  forall i j t t' id,
    pool !! i = Some t -> pool !! j = Some t' ->
    stage_id t = Some id -> stage_id t' = Some id -> i = j.

Record build_wf (b : Build) : Prop := {
  bw_graph : graph_wf (graph b);
  bw_tasks : Forall (task_wf (graph b)) (pool b);
  bw_stage : stage_unique (pool b);
  bw_entries : forall index a, (index, a) ∈ entryModules b ->
    exists m, heap (graph b) !! a = Some (OModule m)
}.

(** What [fetchModule] hands back, seen from the graph [g0] its handler
    started in: a [Module] that is there, or the module of a load that has
    just begun, under an id that was not registered. *)
Definition fetch_ok (g0 : Graph) (f : Fetch) (g : Graph) : Prop :=
  match f with
  | Fetched existingModule => exists m, heap g !! existingModule = Some (OModule m)
  | Loading id importer module =>
      moduleById g0 !! id = None /\ task_wf g (TLoad id importer module (WaitEntry 0))
  end.

(** The invariant of a handler that started in [g0]. *)
Definition since (g0 g : Graph) : Prop := graph_wf g /\ gstep g0 g.

End Invariants.

(* ================================================================== *)
(** * Theorems *)

Section IsExternalFacts.

Lemma startsWith_empty (s : string) : startsWith s "" = true.
Proof. by destruct s. Qed.

Lemma startsWith_NUL_spec (s : string) :
  startsWith s NUL = true <-> exists rest, s = String (ascii_of_nat 0) rest.
Proof.
  unfold NUL. destruct s as [|c rest].
  - split; [discriminate | intros [? [=]]].
  - change (startsWith (String c rest) (String (ascii_of_nat 0) ""))
      with (Ascii.eqb (ascii_of_nat 0) c && startsWith rest "").
    rewrite startsWith_empty, andb_true_r. split.
    + intros Hc%Ascii.eqb_eq. exists rest. by rewrite Hc.
    + intros [rest' [= -> _]]. apply Ascii.eqb_refl.
Qed.

(** C4, as stated, fails: an id beginning with [\0] that the [external]
    array lists is classified external. *)
Lemma isExternal_array_lists_NUL_id :
  startsWith virtualId NUL = true /\
  constructor_isExternal (ExternalArray [virtualId]) virtualId "main.js" true = true.
Proof. split; reflexivity. Qed.

(** C4 (amended): for an id beginning with [\0] the classifier built from a
    function is false whatever the function answers; the classifier built
    from an array, a single id or nothing is plain membership in the listed
    ids, so it is true exactly for a listed id, [\0] or not. *)
Theorem isExternal_NUL_prefixed (id parentId : string) (isResolved : bool) :
  startsWith id NUL = true ->
  (forall f, constructor_isExternal (ExternalFunction f) id parentId isResolved = false) /\
  (forall ids, constructor_isExternal (ExternalArray ids) id parentId isResolved = true
               <-> id ∈ ids) /\
  (forall id', constructor_isExternal (ExternalId id') id parentId isResolved = true
               <-> id = id') /\
  constructor_isExternal ExternalAbsent id parentId isResolved = false.
Proof.
  intros Hnul. split; [|split; [|split]].
  - intros f. simpl. by rewrite Hnul.
  - intros ids. simpl. rewrite bool_decide_eq_true. apply elem_of_list_to_set.
  - intros id'. simpl. rewrite bool_decide_eq_true, elem_of_list_to_set.
    destruct (String.eqb_spec id' "") as [->|Hne]; simpl.
    + split; [by intros ?%elem_of_nil|].
      intros ->. by apply startsWith_NUL_spec in Hnul as [rest [=]].
    + rewrite list_elem_of_singleton. done.
  - reflexivity.
Qed.

Lemma isExternal_NUL_prefixed_witness :
  (forall f, constructor_isExternal (ExternalFunction f) virtualId "main.js" true = false) /\
  (forall ids, constructor_isExternal (ExternalArray ids) virtualId "main.js" true = true
               <-> virtualId ∈ ids) /\
  (forall id', constructor_isExternal (ExternalId id') virtualId "main.js" true = true
               <-> virtualId = id') /\
  constructor_isExternal ExternalAbsent virtualId "main.js" true = false.
Proof. apply (isExternal_NUL_prefixed virtualId "main.js" true). reflexivity. Defined.

End IsExternalFacts.

Section LoadResult.

Variable H : Host.





End LoadResult.



(** ** Running the monad *)

Section MonadFacts.

Lemma bind_Ok {A B} (c : M A) (k : A -> M B) (g g1 : Graph) (a : A) :
  c g = (Ok a, g1) -> bind c k g = k a g1.
Proof. unfold bind. by intros ->. Qed.

Lemma bind_Throw {A B} (c : M A) (k : A -> M B) (g g1 : Graph) (e : Err) :
  c g = (Throw e, g1) -> bind c k g = (Throw e, g1).
Proof. unfold bind. by intros ->. Qed.

Lemma with_log_with_log (f f' : list Effect -> list Effect) (g : Graph) :
  with_log f (with_log f' g) = with_log (fun l => f (f' l)) g.
Proof. reflexivity. Qed.

Lemma with_log_ext (f f' : list Effect -> list Effect) (g : Graph) :
  f (log g) = f' (log g) -> with_log f g = with_log f' g.
Proof. unfold with_log. by intros ->. Qed.

Lemma with_log_nil (g : Graph) : with_log (fun l => l ++ []) g = g.
Proof. destruct g. unfold with_log. simpl. by rewrite app_nil_r. Qed.

(** A loop whose body only logs one effect per element logs them in order. *)
Lemma forEach_emit {A} (l : list A) (f : A -> Effect) (g : Graph) :
  forEach l (fun x => emit (f x)) g = (Ok tt, with_log (fun lg => lg ++ map f l) g).
Proof.
  revert g. induction l as [|x l IH]; intros g; simpl.
  - by rewrite with_log_nil.
  - unfold bind at 1. unfold emit at 1, modify. rewrite IH.
    rewrite with_log_with_log. f_equal. apply with_log_ext.
    by rewrite <- app_assoc.
Qed.

End MonadFacts.

(** ** The cache (Graph.ts, lines 549-561) *)

Section Cache.

Variable H : Host.

Lemma loadedCode_sourceDescription (source : JsValue) (code : string) :
  loadedCode source = Some code ->
  getProp (sourceDescription source) "code" = JString code.
Proof.
  destruct source as [| | | | s | |fields]; simpl; try discriminate.
  - by intros [= ->].
  - unfold sourceDescription. simpl.
    destruct (assoc "code" fields) as [[]|]; simpl; try discriminate.
    by intros [= ->].
Qed.

(** C7: when the cache holds a module for the fetched id whose
    [originalCode] is the code the [load] hook returned and which has no
    [customTransformCache], the handler after [load] re-emits the module's
    [transformAssets] through [emitAsset], in order, and does nothing else:
    [transform] is not called, and the cached [ModuleJSON] itself is what the
    next handler passes to [setSource]. *)
Theorem cached_module_reused (id : string) (module : addr) (w : Waiter)
    (source : JsValue) (cachedModule : ModuleJSON) (b : Build) :
  cachedModules (graph b) !! id = Some cachedModule ->
  customTransformCache cachedModule = false ->
  loadedCode source = Some (originalCode cachedModule) ->
  let assets := default [] (transformAssets cachedModule) in
  let g' := with_log (fun l => l ++ map assetEffect assets) (graph b) in
  fetchModule_cacheOrTransform id source (graph b) = (Ok (Cached cachedModule), g') /\
  Forall (fun e => isTransformEffect e = false) (map assetEffect assets) /\
  runTask H (TSource id module w source) Turn b =
    Some (spawn [TSetSource id module w cachedModule] (with_graph g' b)).
Proof.
  intros Hc Hno Hcode assets g'.
  assert (Hrun : fetchModule_cacheOrTransform id source (graph b)
                 = (Ok (Cached cachedModule), g')).
  { unfold fetchModule_cacheOrTransform, bind at 1, gets. rewrite Hc, Hno.
    rewrite (loadedCode_sourceDescription _ _ Hcode). simpl.
    rewrite String.eqb_refl. subst g' assets.
    destruct (transformAssets cachedModule) as [assets|]; simpl.
    - unfold bind. unfold emitAsset.
      by rewrite (forEach_emit assets assetEffect).
    - unfold bind, ret. by rewrite with_log_nil. }
  split; [done|]. split.
  - apply List.Forall_map, Forall_true. done.
  - simpl. unfold runHandler. by rewrite Hrun.
Qed.

End Cache.

Lemma cached_module_reused_witness :
  let b := startBuild {["main.js" := mainJSON]} ["main.js"] in
  let g' := with_log (fun l => l ++ [EffEmitAsset "logo.svg" "<svg/>"]) (graph b) in
  fetchModule_cacheOrTransform "main.js" (JString "import ...") (graph b)
    = (Ok (Cached mainJSON), g') /\
  Forall (fun e => isTransformEffect e = false) [EffEmitAsset "logo.svg" "<svg/>"] /\
  runTask demoHost (TSource "main.js" 0 (WaitEntry 0) (JString "import ...")) Turn b =
    Some (spawn [TSetSource "main.js" 0 (WaitEntry 0) mainJSON] (with_graph g' b)).
Proof.
  apply (cached_module_reused demoHost "main.js" 0 (WaitEntry 0) (JString "import ...")
           mainJSON (startBuild {["main.js" := mainJSON]} ["main.js"]));
    reflexivity.
Defined.

(** ** External modules met by [fetchAllDependencies] *)

Section Externals.

Variable H : Host.




End Externals.

(** ** Dynamic imports of external modules (Graph.ts, lines 627-640) *)

Section DynamicExternal.

Variable H : Host.

(** Whenever the branch of lines 629-635 runs, [moduleById] ends up mapping
    the replacement id to the importing module, not to the external module
    it has just created. *)
Lemma dynamic_external_new (module : addr) (index : nat) (s replacement : string)
    (g : Graph) (m : ModuleRec) :
  heap g !! module = Some (OModule m) ->
  truthyString replacement = true ->
  isExternal H replacement (mod_id m) true = true ->
  moduleById g !! replacement = None ->
  let r := fetchAllDependencies_dynamic H module index (DynString s) (Some replacement) g in
  let externalModule := length (heap g) in
  fst r = Ok DynamicRecorded /\
  externalModules (snd r) = externalModules g ++ [externalModule] /\
  heap (snd r) !! externalModule =
    Some (OExternal {| ext_id := replacement; exportsNamespace := true;
                       tracedExports := [] |}) /\
  moduleById (snd r) !! replacement = Some module /\
  module <> externalModule.
Proof.
  intros Hm Htruthy Hext Hfree r e.
  assert (Hlt : module < length (heap g)) by by eapply lookup_lt_Some.
  subst r. unfold fetchAllDependencies_dynamic.
  rewrite (bind_Ok _ _ g g m)
    by (unfold getModule, readObj, gets, bind; by rewrite Hm).
  rewrite Htruthy. simpl. rewrite Hext.
  rewrite (bind_Ok _ _ g g false)
    by (unfold moduleById_has, gets; simpl; by rewrite Hfree).
  set (g1 := with_log (fun l => l ++ [EffSetModule replacement module])
               (with_moduleById (fun mm => <[replacement := module]> mm)
                  (with_externalModules (fun l => l ++ [e])
                     (with_heap (fun h => h ++ [OExternal (newExternalModule replacement)]) g)))).
  rewrite (bind_Ok _ _ g g1 (Some e)) by reflexivity.
  set (m1 := with_dynamicImportResolutions
               (array_set index {| alias := Some (getAliasName H replacement (Some s));
                                   resolution := ResModule e |}) m).
  set (g2 := with_heap (fun h => <[module := OModule m1]> h) g1).
  assert (Hm1 : heap g1 !! module = Some (OModule m)) by (by apply lookup_app_l_Some).
  rewrite (bind_Ok _ _ g1 g2 tt)
    by (unfold updModule, getModule, readObj, gets, bind, modify; by rewrite Hm1).
  assert (He : heap g2 !! e = Some (OExternal (newExternalModule replacement))).
  { simpl. rewrite list_lookup_insert_ne by (unfold e; lia).
    rewrite lookup_app_r by done. by rewrite Nat.sub_diag. }
  unfold set_exportsNamespace.
  rewrite (bind_Ok _ _ g2 _ tt)
    by (unfold readObj, gets, bind; by rewrite He).
  simpl. split; [done|]. split; [done|]. split; [|split].
  - apply list_lookup_insert_eq. rewrite length_insert, length_app. simpl. unfold e. lia.
  - apply lookup_insert_eq.
  - unfold e. lia.
Qed.

End DynamicExternal.

(** C3 fails on [main.js], which imports [a] from ['./local'] and then [b]
    from ['ext']: when the source ['ext'] is handled as external, the loop
    meets the declaration of [a] first and returns, so [b] is never traced on
    the external module. *)
Lemma external_import_left_untraced :
  let r := fetchAllDependencies_resolved demoHost 0 "ext" RidFalse mainGraph in
  (exists m, heap mainGraph !! 0 = Some (OModule m) /\
             obj_get "b" (imports m) = Some {| imp_source := "ext"; imp_name := "b" |}) /\
  fst r = Ok StaticExternal /\
  moduleById (snd r) !! "ext" = Some 1 /\
  heap (snd r) !! 1 =
    Some (OExternal {| ext_id := "ext"; exportsNamespace := false; tracedExports := [] |}).
Proof.
  split; [|vm_compute; repeat split; reflexivity].
  eexists. split; vm_compute; reflexivity.
Qed.

(** C1 fails on [main.js], whose dynamic import ['ext'] is replaced by the
    external id ['ext'], not registered before: the new [ExternalModule]
    (address 1) is pushed onto [externalModules] and recorded as the
    resolution, but [moduleById] maps ['ext'] to the importing module
    (address 0). *)
Lemma dynamic_external_registers_importer :
  let r := fetchAllDependencies_dynamic demoHost 0 0 (DynString "ext") (Some "ext") mainGraph in
  isExternal demoHost "ext" "main.js" true = true /\
  moduleById mainGraph !! "ext" = None /\
  fst r = Ok DynamicRecorded /\
  externalModules (snd r) = [1] /\
  heap (snd r) !! 1 =
    Some (OExternal {| ext_id := "ext"; exportsNamespace := true; tracedExports := [] |}) /\
  (exists m, heap (snd r) !! 0 = Some (OModule m) /\ mod_id m = "main.js" /\
             dynamicImportResolutions m =
               [Some {| alias := Some "ext"; resolution := ResModule 1 |}]) /\
  moduleById (snd r) !! "ext" = Some 0.
Proof.
  vm_compute. repeat split; try reflexivity.
  eexists. repeat split; reflexivity.
Qed.

(** ** Benign computations *)

Section Benign.

Lemma heap_le_refl (h : list Obj) : heap_le h h.
Proof. intros a o Ho. by exists o. Qed.

Lemma heap_le_trans (h1 h2 h3 : list Obj) :
  heap_le h1 h2 -> heap_le h2 h3 -> heap_le h1 h3.
Proof.
  intros H12 H23 a o Ho.
  destruct (H12 a o Ho) as (o2 & Ho2 & Hk2).
  destruct (H23 a o2 Ho2) as (o3 & Ho3 & Hk3).
  exists o3. split; [done|congruence].
Qed.

Lemma heap_le_alloc (h : list Obj) (o : Obj) : heap_le h (h ++ [o]).
Proof. intros a o' Ho. exists o'. split; [|done]. by apply lookup_app_l_Some. Qed.

Lemma heap_le_update (h : list Obj) (a : addr) (o o' : Obj) :
  h !! a = Some o -> obj_isExternal o' = obj_isExternal o ->
  heap_le h (<[a := o']> h).
Proof.
  intros Ha Hk b ob Hb. destruct (decide (a = b)) as [<-|Hne].
  - rewrite Ha in Hb. injection Hb as <-. exists o'. split; [|done].
    apply list_lookup_insert_eq. by eapply lookup_lt_Some.
  - exists ob. split; [|done]. by rewrite list_lookup_insert_ne.
Qed.

Lemma benign_ret {A} (a : A) : benign (ret a).
Proof.
  intros g. simpl. repeat split; try done.
  - exists []. by rewrite app_nil_r.
  - apply heap_le_refl.
Qed.

Lemma benign_throw {A} (e : Err) : benign (@throw A e).
Proof. intros g. apply (benign_ret tt g). Qed.

Lemma benign_gets {A} (f : Graph -> A) : benign (gets f).
Proof. intros g. apply (benign_ret tt g). Qed.

Lemma benign_bind {A B} (c : M A) (k : A -> M B) :
  benign c -> (forall a, benign (k a)) -> benign (bind c k).
Proof.
  intros Hc Hk g. specialize (Hc g).
  destruct (c g) as [[a|e] g1] eqn:Hrun.
  - rewrite (bind_Ok _ _ _ _ _ Hrun). specialize (Hk a g1).
    simpl in Hc. destruct Hc as (Hm & Hw & Hcm & (evs & Hl & Hin) & Hh).
    destruct Hk as (Hm' & Hw' & Hcm' & (evs' & Hl' & Hin') & Hh').
    split; [congruence|]. split; [congruence|]. split; [congruence|]. split.
    + exists (evs ++ evs'). split; [|by apply Forall_app].
      by rewrite Hl', Hl, app_assoc.
    + by eapply heap_le_trans.
  - by rewrite (bind_Throw _ _ _ _ _ Hrun).
Qed.

Lemma benign_when (b : bool) (c : M unit) : benign c -> benign (when b c).
Proof. destruct b; [done|]. intros _. apply benign_ret. Qed.

Lemma benign_forEach {A} (l : list A) (body : A -> M unit) :
  (forall x, benign (body x)) -> benign (forEach l body).
Proof.
  intros Hb. induction l as [|x l IH]; simpl.
  - apply benign_ret.
  - apply benign_bind; [apply Hb|]. intros _. apply IH.
Qed.

Lemma benign_emit (e : Effect) : inert e -> benign (emit e).
Proof.
  intros He g. simpl. repeat split; try done.
  - exists [e]. split; [done|]. by constructor.
  - apply heap_le_refl.
Qed.

Lemma benign_modify_heap (f : list Obj -> list Obj) :
  (forall h, heap_le h (f h)) -> benign (modify (with_heap f)).
Proof.
  intros Hf g. simpl. repeat split; try done.
  exists []. by rewrite app_nil_r.
Qed.

Lemma benign_alloc (o : Obj) : benign (alloc o).
Proof.
  intros g. simpl. repeat split; try done.
  - exists []. by rewrite app_nil_r.
  - apply heap_le_alloc.
Qed.

Lemma benign_readObj (a : addr) : benign (readObj a).
Proof. apply benign_gets. Qed.

Lemma benign_getModule (a : addr) : benign (getModule a).
Proof.
  apply benign_bind; [apply benign_readObj|].
  intros [[m|e]|]; (apply benign_ret || apply benign_throw).
Qed.

End Benign.

Section BenignHandlers.

Variable H : Host.

Lemma benign_updModule (a : addr) (f : ModuleRec -> ModuleRec) : benign (updModule a f).
Proof.
  intros g. unfold updModule, getModule, readObj, gets, bind.
  destruct (heap g !! a) as [[m|e]|] eqn:Ha; simpl;
    try apply (benign_ret tt g).
  repeat split; try done.
  - exists []. by rewrite app_nil_r.
  - by eapply heap_le_update.
Qed.

Lemma benign_traceExport (e : addr) (name : string) : benign (traceExport e name).
Proof.
  intros g. unfold traceExport, readObj, gets, bind.
  destruct (heap g !! e) as [[m|x]|] eqn:Ha; simpl;
    try apply (benign_ret tt g).
  repeat split; try done.
  - exists []. by rewrite app_nil_r.
  - by eapply heap_le_update.
Qed.

Lemma benign_set_exportsNamespace (a : addr) : benign (set_exportsNamespace a).
Proof.
  intros g. unfold set_exportsNamespace, readObj, gets, bind.
  destruct (heap g !! a) as [[m|x]|] eqn:Ha; simpl;
    try apply (benign_ret tt g).
  - repeat split; try done.
    + exists []. by rewrite app_nil_r.
    + by eapply heap_le_update.
  - repeat split; try done.
    + exists []. by rewrite app_nil_r.
    + by eapply heap_le_update.
Qed.

Lemma benign_moduleById_get (id : string) : benign (moduleById_get id).
Proof. apply benign_gets. Qed.

Lemma benign_moduleById_has (id : string) : benign (moduleById_has id).
Proof. apply benign_gets. Qed.

Lemma benign_modules_push (a : addr) : benign (modules_push a).
Proof. intros g. apply (benign_ret tt g). Qed.

Lemma benign_externalModules_push (a : addr) : benign (externalModules_push a).
Proof. intros g. apply (benign_ret tt g). Qed.

Lemma benign_warn (w : Warning) : benign (warn w).
Proof. by apply benign_emit. Qed.

Lemma benign_emitAsset (name source : string) : benign (emitAsset name source).
Proof. by apply benign_emit. Qed.

Lemma benign_transform (id : string) : benign (transform id).
Proof. by apply benign_emit. Qed.

Lemma benign_callHook_resolveId (source : string) (importer : option string) :
  benign (callHook (HookResolveId source importer)).
Proof. by apply benign_emit. Qed.

Lemma benign_callHook_dynamic (expr : DynamicImportExpression) (importer : string) :
  benign (callHook (HookResolveDynamicImport expr importer)).
Proof. by apply benign_emit. Qed.

Lemma benign_traceImports (e : addr) (source : string)
    (declarations : list (string * ImportDescription)) :
  benign (traceImports e source declarations).
Proof.
  induction declarations as [|[name d] rest IH]; simpl.
  - apply benign_ret.
  - destruct (negb _); [apply benign_ret|].
    apply benign_bind; [apply benign_traceExport|]. intros _. apply IH.
Qed.

Lemma benign_cacheOrTransform (id : string) (source : JsValue) :
  benign (fetchModule_cacheOrTransform id source).
Proof.
  unfold fetchModule_cacheOrTransform.
  apply benign_bind; [apply benign_gets|]. intros [c|].
  - destruct (_ && _).
    + apply benign_bind; [|intros _; apply benign_ret].
      destruct (transformAssets c); [|apply benign_ret].
      apply benign_forEach. intros asset. apply benign_emitAsset.
    + apply benign_bind; [apply benign_transform|]. intros _. apply benign_ret.
  - apply benign_bind; [apply benign_transform|]. intros _. apply benign_ret.
Qed.

Lemma benign_fetchAllDependencies (module : addr) : benign (fetchAllDependencies module).
Proof.
  unfold fetchAllDependencies.
  apply benign_bind; [apply benign_getModule|]. intros m.
  apply benign_bind; [|intros _; apply benign_ret].
  apply benign_forEach. intros expr. apply benign_callHook_dynamic.
Qed.

Lemma benign_resolve (module : addr) (source : string) :
  benign (fetchAllDependencies_resolve H module source).
Proof.
  unfold fetchAllDependencies_resolve.
  apply benign_bind; [apply benign_getModule|]. intros m.
  destruct (match obj_get source (resolvedIds m) with Some _ => _ | None => _ end);
    [apply benign_ret|].
  destruct (isExternal H source (mod_id m) false); [apply benign_ret|].
  apply benign_bind; [apply benign_callHook_resolveId|]. intros _. apply benign_ret.
Qed.

Lemma benign_mergeExportAll (module : addr) (source : string) :
  benign (mergeExportAll H module source).
Proof.
  unfold mergeExportAll.
  apply benign_bind; [apply benign_getModule|]. intros m.
  apply benign_bind.
  { destruct (obj_get source (resolvedIds m));
      [apply benign_moduleById_get|apply benign_ret]. }
  intros exportAllModule. apply benign_bind.
  { destruct exportAllModule; [apply benign_readObj|apply benign_ret]. }
  intros [[em|x]|]; [|apply benign_ret|apply benign_throw].
  apply benign_forEach. intros [name origin].
  apply benign_bind; [apply benign_getModule|]. intros m'.
  destruct (obj_get name (exportsAll m')); [apply benign_warn|apply benign_updModule].
Qed.

Lemma benign_finish (module : addr) : benign (fetchModule_finish H module).
Proof.
  unfold fetchModule_finish.
  apply benign_bind; [apply benign_updModule|]. intros _.
  apply benign_bind; [apply benign_getModule|]. intros m.
  apply benign_bind; [|intros _; apply benign_ret].
  apply benign_forEach. intros source. apply benign_mergeExportAll.
Qed.

Lemma benign_dynamicFetched (module : addr) (index : nat) (alias : string)
    (depModule : addr) :
  benign (fetchAllDependencies_dynamicFetched module index alias depModule).
Proof. apply benign_updModule. Qed.

End BenignHandlers.

(** ** The registry invariant *)

Section Registry.

Lemma inert_not_set (evs : list Effect) (id : string) (a : addr) :
  Forall inert evs -> EffSetModule id a ∉ evs.
Proof. intros Hin He. by apply (proj1 (Forall_forall _ _) Hin) in He. Qed.

Lemma inert_not_watch (evs : list Effect) (id : string) :
  Forall inert evs -> EffWatch id ∉ evs.
Proof. intros Hin He. by apply (proj1 (Forall_forall _ _) Hin) in He. Qed.

Lemma inert_not_load (evs : list Effect) (id : string) :
  Forall inert evs -> EffHook (HookLoad id) ∉ evs.
Proof. intros Hin He. by apply (proj1 (Forall_forall _ _) Hin) in He. Qed.

(** Appending effects keeps what is known of the [load] calls already in
    the log, as long as no appended effect is a [load] call for the same
    id. *)
Lemma reg_load_app (l evs : list Effect) (i : nat) (id : string) :
  l !! i = Some (EffHook (HookLoad id)) ->
  EffHook (HookLoad id) ∉ evs ->
  ((exists j a, j < i /\ l !! j = Some (EffSetModule id a)) /\
   (exists j, j < i /\ l !! j = Some (EffWatch id)) /\
   (forall j, l !! j = Some (EffHook (HookLoad id)) -> j = i)) ->
  (exists j a, j < i /\ (l ++ evs) !! j = Some (EffSetModule id a)) /\
  (exists j, j < i /\ (l ++ evs) !! j = Some (EffWatch id)) /\
  (forall j, (l ++ evs) !! j = Some (EffHook (HookLoad id)) -> j = i).
Proof.
  intros Hi Hno ((j & a & Hj & Hset) & (j' & Hj' & Hwatch) & Huniq).
  split; [|split].
  - exists j, a. split; [done|]. by apply lookup_app_l_Some.
  - exists j'. split; [done|]. by apply lookup_app_l_Some.
  - intros k Hk. apply lookup_app_Some in Hk as [Hk|[_ Hk]]; [by apply Huniq|].
    exfalso. apply Hno. by eapply list_elem_of_lookup_2.
Qed.

Lemma registry_ok_inert (g g' : Graph) (evs : list Effect) :
  registry_ok g ->
  moduleById g' = moduleById g -> watchFiles g' = watchFiles g ->
  log g' = log g ++ evs -> Forall inert evs ->
  registry_ok g'.
Proof.
  intros [Hset Hwatch Hload] Hm Hw Hl Hin. split.
  - intros id a. rewrite Hl, Hm, elem_of_app, <- Hset.
    pose proof (inert_not_set evs id a Hin). tauto.
  - intros id. rewrite Hl, Hw, elem_of_app, <- Hwatch.
    pose proof (inert_not_watch evs id Hin). tauto.
  - intros i id. rewrite Hl. intros Hi.
    apply lookup_app_Some in Hi as [Hi|[_ Hi]].
    + apply reg_load_app; [done|by apply inert_not_load|by apply Hload].
    + exfalso. eapply inert_not_load; [done|]. by eapply list_elem_of_lookup_2.
Qed.

Lemma registry_ok_benign {A} (c : M A) (g : Graph) :
  benign c -> registry_ok g -> registry_ok (snd (c g)).
Proof.
  intros Hc Hg. destruct (Hc g) as (Hm & Hw & _ & (evs & Hl & Hin) & _).
  by eapply registry_ok_inert.
Qed.

Lemma loaded_registered (g : Graph) (id : string) :
  registry_ok g -> EffHook (HookLoad id) ∈ log g -> is_Some (moduleById g !! id).
Proof.
  intros [Hset _ Hload] [i Hi]%list_elem_of_lookup_1.
  destruct (Hload i id Hi) as ((j & a & _ & Hj) & _).
  exists a. apply Hset. by eapply list_elem_of_lookup_2.
Qed.

Lemma registry_ok_set (g : Graph) (id : string) (a : addr) :
  registry_ok g ->
  moduleById g !! id = None \/ moduleById g !! id = Some a ->
  registry_ok (snd (moduleById_set id a g)).
Proof.
  intros [Hset Hwatch Hload] Hfree. split; simpl.
  - intros id' a'. rewrite elem_of_app, list_elem_of_singleton, Hset.
    destruct (decide (id' = id)) as [->|Hne].
    + rewrite lookup_insert_eq. split.
      * intros [Hold|[= <-]]; [|done]. destruct Hfree; congruence.
      * intros [= <-]. by right.
    + rewrite lookup_insert_ne by done. split; [|by left].
      intros [?|[= ? _]]; congruence.
  - intros id'. rewrite elem_of_app, list_elem_of_singleton, Hwatch.
    split; [|by left]. by intros [?|[=]].
  - intros i id' Hi.
    apply lookup_snoc_Some in Hi as [[_ Hi]|[_ [=]]].
    apply reg_load_app; [done| |by apply Hload].
    by intros [=]%list_elem_of_singleton.
Qed.

Lemma registry_ok_watch (g : Graph) (id : string) :
  registry_ok g -> registry_ok (snd (watchFiles_add id g)).
Proof.
  intros [Hset Hwatch Hload]. split; simpl.
  - intros id' a'. rewrite elem_of_app, list_elem_of_singleton, Hset.
    split; [|by left]. by intros [?|[=]].
  - intros id'. rewrite elem_of_app, list_elem_of_singleton, Hwatch.
    rewrite elem_of_union, elem_of_singleton. split.
    + intros [?|[= ->]]; [by right|by left].
    + intros [->|?]; [by right|by left].
  - intros i id' Hi.
    apply lookup_snoc_Some in Hi as [[_ Hi]|[_ [=]]].
    apply reg_load_app; [done| |by apply Hload].
    by intros [=]%list_elem_of_singleton.
Qed.

Lemma registry_ok_load (g : Graph) (id : string) :
  registry_ok g ->
  is_Some (moduleById g !! id) -> id ∈ watchFiles g ->
  EffHook (HookLoad id) ∉ log g ->
  registry_ok (snd (callHook (HookLoad id) g)).
Proof.
  intros [Hset Hwatch Hload] [a Ha] Hw Hnew. split; simpl.
  - intros id' a'. rewrite elem_of_app, list_elem_of_singleton, Hset.
    split; [|by left]. by intros [?|[=]].
  - intros id'. rewrite elem_of_app, list_elem_of_singleton, Hwatch.
    split; [|by left]. by intros [?|[=]].
  - intros i id' Hi.
    apply lookup_snoc_Some in Hi as [[_ Hi]|[Hlen [= <-]]].
    + apply reg_load_app; [done| |by apply Hload].
      intros [= ->]%list_elem_of_singleton.
      apply Hnew. by eapply list_elem_of_lookup_2.
    + subst i. split; [|split].
      * apply Hset in Ha. apply list_elem_of_lookup_1 in Ha as [j Hj].
        exists j, a. split; [by eapply lookup_lt_Some|by apply lookup_app_l_Some].
      * apply Hwatch in Hw. apply list_elem_of_lookup_1 in Hw as [j Hj].
        exists j. split; [by eapply lookup_lt_Some|by apply lookup_app_l_Some].
      * intros j Hj. apply lookup_snoc_Some in Hj as [[_ Hj]|[Hj _]]; [|done].
        exfalso. apply Hnew. by eapply list_elem_of_lookup_2.
Qed.

End Registry.

(** ** Sound computations *)

Section Sound.

Lemma graph_le_refl (g : Graph) : graph_le g g.
Proof.
  split; [done| |apply heap_le_refl|done]. exists []. by rewrite app_nil_r.
Qed.

Lemma graph_le_trans (g1 g2 g3 : Graph) :
  graph_le g1 g2 -> graph_le g2 g3 -> graph_le g1 g3.
Proof.
  intros [Hm [evs Hl] Hh Hc] [Hm' [evs' Hl'] Hh' Hc']. split.
  - by etrans.
  - exists (evs ++ evs'). by rewrite Hl', Hl, app_assoc.
  - by eapply heap_le_trans.
  - congruence.
Qed.

Lemma graph_le_benign {A} (c : M A) (g : Graph) : benign c -> graph_le g (snd (c g)).
Proof.
  intros Hc. destruct (Hc g) as (Hm & _ & Hcm & (evs & Hl & _) & Hh).
  split; [by rewrite Hm| by exists evs |done|done].
Qed.

Lemma graph_le_emit (e : Effect) (g : Graph) : graph_le g (snd (emit e g)).
Proof. split; simpl; [done|by exists [e]|apply heap_le_refl|done]. Qed.

Lemma graph_le_set (g : Graph) (id : string) (a : addr) :
  moduleById g !! id = None \/ moduleById g !! id = Some a ->
  graph_le g (snd (moduleById_set id a g)).
Proof.
  intros Hfree. split; simpl; [|by exists [EffSetModule id a]|apply heap_le_refl|done].
  destruct Hfree as [Hnone|Hsome].
  - by apply insert_subseteq.
  - by rewrite insert_id.
Qed.

Lemma sound_benign {A} (P : gmap string addr -> Prop) (c : M A) :
  benign c -> sound P c (fun _ => P).
Proof.
  intros Hc g Hg HP. split; [by apply registry_ok_benign|].
  split; [by apply graph_le_benign|]. intros _ _.
  destruct (Hc g) as (-> & _). done.
Qed.

Lemma sound_bind {A B} (P : gmap string addr -> Prop) (c : M A) (k : A -> M B)
    (R : A -> gmap string addr -> Prop) (Q : B -> gmap string addr -> Prop) :
  sound P c R -> (forall a, sound (R a) (k a) Q) -> sound P (bind c k) Q.
Proof.
  intros Hc Hk g Hg HP. destruct (Hc g Hg HP) as (Hg1 & Hle1 & HR).
  destruct (c g) as [[a|e] g1] eqn:Hrun; simpl in *.
  - rewrite (bind_Ok _ _ _ _ _ Hrun).
    destruct (Hk a g1 Hg1 (HR a eq_refl)) as (Hg2 & Hle2 & HQ).
    split; [done|]. split; [by eapply graph_le_trans|done].
  - rewrite (bind_Throw _ _ _ _ _ Hrun). simpl. split; [done|]. split; [done|].
    intros b [=].
Qed.

Lemma sound_conseq {A} (P P' : gmap string addr -> Prop) (c : M A)
    (Q Q' : A -> gmap string addr -> Prop) :
  sound P c Q -> (forall m, P' m -> P m) -> (forall a m, Q a m -> Q' a m) ->
  sound P' c Q'.
Proof.
  intros Hc HP HQ g Hg HP'. destruct (Hc g Hg (HP _ HP')) as (? & ? & ?).
  split; [done|]. split; [done|]. intros a Ha. by apply HQ, H1.
Qed.

Lemma sound_ret {A} (P : gmap string addr -> Prop) (a : A)
    (Q : A -> gmap string addr -> Prop) :
  (forall m, P m -> Q a m) -> sound P (ret a) Q.
Proof.
  intros HQ g Hg HP. simpl. split; [done|]. split; [apply graph_le_refl|].
  intros a' [= <-]. by apply HQ.
Qed.

Lemma sound_throw {A} (P : gmap string addr -> Prop) (e : Err)
    (Q : A -> gmap string addr -> Prop) :
  sound P (throw e) Q.
Proof.
  intros g Hg HP. simpl. split; [done|]. split; [apply graph_le_refl|]. intros a [=].
Qed.

Lemma sound_benign_then {A B} (P : gmap string addr -> Prop) (c : M A) (k : A -> M B)
    (Q : B -> gmap string addr -> Prop) :
  benign c -> (forall a, sound P (k a) Q) -> sound P (bind c k) Q.
Proof. intros Hc Hk. eapply sound_bind; [by apply sound_benign|done]. Qed.

Lemma sound_get (P : gmap string addr -> Prop) (id : string) :
  sound P (moduleById_get id) (fun r m => P m /\ r = m !! id).
Proof.
  intros g Hg HP. simpl. split; [done|]. split; [apply graph_le_refl|].
  by intros a [= <-].
Qed.

Lemma sound_has (P : gmap string addr -> Prop) (id : string) :
  sound P (moduleById_has id) (fun r m => P m /\ r = bool_decide (is_Some (m !! id))).
Proof.
  intros g Hg HP. simpl. split; [done|]. split; [apply graph_le_refl|].
  by intros a [= <-].
Qed.

Lemma sound_set (id : string) (a : addr) :
  sound (fun m => m !! id = None \/ m !! id = Some a) (moduleById_set id a)
        (fun _ m => m !! id = Some a).
Proof.
  intros g Hg HP. split; [by apply registry_ok_set|].
  split; [by apply graph_le_set|]. intros _ _. simpl. apply lookup_insert_eq.
Qed.

(** Lines 505-518 keep the registry in order: the [load] hook is called for
    an id only when the id was not registered, and right after it has been
    registered and watched. *)
Lemma sound_fetchModule (id : string) (importer : option string) :
  sound (fun _ => True) (fetchModule id importer)
    (fun f m =>
       match f with
       | Fetched existingModule => m !! id = Some existingModule
       | Loading id' _ module => id' = id /\ m !! id = Some module
       end).
Proof.
  intros g Hg _. unfold fetchModule.
  destruct (moduleById g !! id) as [a|] eqn:Hid.
  - rewrite (bind_Ok _ _ g g (Some a)) by (unfold moduleById_get, gets; by rewrite Hid).
    rewrite (bind_Ok _ _ g g (heap g !! a)) by done.
    destruct (heap g !! a) as [[m|x]|]; simpl;
      (split; [done|]; split; [apply graph_le_refl|]); intros f [=]. by subst.
  - rewrite (bind_Ok _ _ g g None) by (unfold moduleById_get, gets; by rewrite Hid).
    set (module := length (heap g)).
    set (g1 := with_heap (fun h => h ++ [OModule (newModule id)]) g).
    assert (Hg1 : registry_ok g1).
    { apply (registry_ok_benign (alloc (OModule (newModule id))) g); [|done].
      apply benign_alloc. }
    assert (Hfree : moduleById g1 !! id = None) by done.
    pose proof (registry_ok_set g1 id module Hg1 (or_introl Hfree)) as Hg2.
    pose proof (registry_ok_watch _ id Hg2) as Hg3.
    assert (Hnew : EffHook (HookLoad id) ∉ log g).
    { intros Hin. apply (loaded_registered g id Hg) in Hin as [? ?]. congruence. }
    assert (Hg4 : registry_ok
              (snd (callHook (HookLoad id)
                      (snd (watchFiles_add id (snd (moduleById_set id module g1))))))).
    { apply registry_ok_load; [done| | |]; simpl.
      - rewrite lookup_insert_eq. by eexists.
      - set_solver.
      - rewrite !elem_of_app, !list_elem_of_singleton. intros [[?|[=]]|[=]]. done. }
    simpl. split; [exact Hg4|]. split.
    + split; simpl.
      * by apply insert_subseteq.
      * eexists. rewrite <- !app_assoc. reflexivity.
      * apply heap_le_alloc.
      * done.
    + intros f [= <-]. split; [done|]. apply lookup_insert_eq.
Qed.

End Sound.

Section SoundHandlers.

Variable H : Host.

Lemma sound_trivial {A} (P : gmap string addr -> Prop) (c : M A) :
  benign c -> sound P c (fun _ _ => True).
Proof.
  intros Hc. eapply sound_conseq; [by apply (sound_benign P)|done|done].
Qed.

Lemma sound_setSource (id : string) (module : addr) (source : ModuleJSON) :
  sound (fun m => m !! id = Some module) (fetchModule_setSource H id module source)
        (fun _ m => m !! id = Some module).
Proof.
  unfold fetchModule_setSource.
  apply sound_benign_then; [apply benign_updModule|]. intros _.
  apply sound_benign_then; [apply benign_modules_push|]. intros _.
  eapply sound_bind.
  - eapply sound_conseq; [apply (sound_set id module)|by right|done].
  - intros ?. apply sound_benign, benign_fetchAllDependencies.
Qed.

(** Registering a fresh external module under an id [moduleById] does not
    have yet. *)
Lemma sound_register_external (id : string) (has : bool) :
  sound (fun m => True /\ has = bool_decide (is_Some (m !! id)))
    (when (negb has)
       (let! module := alloc (OExternal (newExternalModule id)) in
        externalModules_push module >> moduleById_set id module))
    (fun _ _ => True).
Proof.
  destruct has; simpl.
  - by apply sound_ret.
  - apply sound_benign_then; [apply benign_alloc|]. intros e.
    apply sound_benign_then; [apply benign_externalModules_push|]. intros _.
    eapply sound_conseq; [apply (sound_set id e)| |done].
    intros m [_ Hhas]. left. symmetry in Hhas.
    apply bool_decide_eq_false in Hhas. by apply eq_None_not_Some.
Qed.

Lemma sound_fetchModule' (id : string) (importer : option string)
    (P : gmap string addr -> Prop) :
  sound P (fetchModule id importer) fetch_registered.
Proof.
  eapply sound_conseq; [apply sound_fetchModule|done|].
  intros [a|id' imp module] m; simpl; [done|]. by intros [-> ?].
Qed.

Lemma sound_resolved (module : addr) (source : string) (resolvedId : ResolveIdResult) :
  sound (fun _ => True) (fetchAllDependencies_resolved H module source resolvedId)
    (fun d m =>
       match d with
       | StaticExternal => True
       | StaticFetch f => fetch_registered f m
       end).
Proof.
  unfold fetchAllDependencies_resolved.
  apply sound_benign_then; [apply benign_getModule|]. intros m. cbv zeta.
  apply sound_benign_then.
  { destruct (_ && _); [|apply benign_ret].
    apply benign_bind; [apply benign_when, benign_throw|]. intros _.
    apply benign_bind; [apply benign_when, benign_warn|]. intros _.
    apply benign_ret. }
  intros [|].
  - apply sound_benign_then; [apply benign_updModule|]. intros _.
    eapply sound_bind; [apply sound_has|]. intros has.
    eapply sound_bind; [apply sound_register_external|]. intros ?.
    apply sound_benign_then; [apply benign_moduleById_get|]. intros externalModule.
    apply sound_benign_then.
    { destruct externalModule; [apply benign_readObj|apply benign_ret]. }
    intros o. destruct externalModule as [e|]; [|apply sound_throw].
    destruct o as [[m'|x]|]; try apply sound_throw.
    apply sound_benign_then; [apply benign_getModule|]. intros m'.
    apply sound_benign_then; [apply benign_traceImports|]. intros _.
    by apply sound_ret.
  - apply sound_benign_then; [apply benign_updModule|]. intros _.
    eapply sound_bind; [apply sound_fetchModule'|]. intros f.
    by apply sound_ret.
Qed.

Lemma sound_dynamic (module : addr) (index : nat) (expr : DynamicImportExpression)
    (replacement : option string) :
  sound (fun _ => True) (fetchAllDependencies_dynamic H module index expr replacement)
    (fun d m =>
       match d with
       | DynamicRecorded => True
       | DynamicFetch _ f => fetch_registered f m
       end).
Proof.
  unfold fetchAllDependencies_dynamic.
  apply sound_benign_then; [apply benign_getModule|]. intros m.
  destruct (negb _).
  { apply sound_benign_then; [apply benign_updModule|]. intros _.
    by apply sound_ret. }
  cbv zeta. destruct expr as [s|node].
  - destruct (isExternal H _ _ _).
    + eapply sound_bind; [apply sound_has|]. intros has.
      eapply sound_bind.
      { instantiate (1 := fun _ _ => True). destruct has; simpl.
        - eapply sound_conseq;
            [apply (sound_trivial (fun _ => True)), benign_moduleById_get|done|done].
        - apply sound_benign_then; [apply benign_alloc|]. intros e.
          apply sound_benign_then; [apply benign_externalModules_push|]. intros _.
          eapply sound_bind.
          + eapply sound_conseq; [apply (sound_set (default "" replacement) module)| |done].
            intros m' [_ Hhas]. left. symmetry in Hhas.
            apply bool_decide_eq_false in Hhas. by apply eq_None_not_Some.
          + intros ?. by apply sound_ret. }
      intros externalModule.
      destruct externalModule as [e|]; [|apply sound_throw].
      apply sound_benign_then; [apply benign_updModule|]. intros _.
      apply sound_benign_then; [apply benign_set_exportsNamespace|]. intros _.
      by apply sound_ret.
    + eapply sound_bind; [apply sound_fetchModule'|]. intros f.
      by apply sound_ret.
  - apply sound_benign_then; [apply benign_updModule|]. intros _.
    by apply sound_ret.
Qed.

Lemma sound_loadModule_resolved (entryName : string) (id : ResolveIdResult) :
  sound (fun _ => True) (loadModule_resolved entryName id) fetch_registered.
Proof.
  destruct id as [id| |]; simpl; try apply sound_throw.
  apply sound_fetchModule'.
Qed.

End SoundHandlers.

(** ** Every step keeps a build in order *)

Section Steps.

Variable H : Host.

Lemma task_ok_le (g g' : Graph) (t : Task) :
  graph_le g g' -> task_ok g t -> task_ok g' t.
Proof.
  intros [Hm _ _ _]. destruct t; simpl; try done;
    intros Hid; by eapply lookup_weaken.
Qed.

Lemma build_ok_with_graph (g' : Graph) (b : Build) :
  build_ok b -> registry_ok g' -> graph_le (graph b) g' ->
  build_ok (with_graph g' b).
Proof.
  intros [Hreg Hpool] Hreg' Hle. split; simpl; [done|].
  eapply Forall_impl; [done|]. intros t. by apply task_ok_le.
Qed.

Lemma build_ok_spawn (ts : list Task) (b : Build) :
  build_ok b -> Forall (task_ok (graph b)) ts -> build_ok (spawn ts b).
Proof. intros [Hreg Hpool] Hts. split; simpl; [done|]. by apply Forall_app. Qed.

Lemma build_ok_reject (e : Err) (b : Build) : build_ok b -> build_ok (reject e b).
Proof. by intros [Hreg Hpool]. Qed.

Lemma build_ok_childDone (parent : addr) (b : Build) :
  build_ok b -> build_ok (childDone parent b).
Proof. by intros [Hreg Hpool]. Qed.

Lemma build_ok_setJoin (module : addr) (n : nat) (b : Build) :
  build_ok b -> build_ok (setJoin module n b).
Proof. by intros [Hreg Hpool]. Qed.

Lemma build_ok_takeTask (i : nat) (b : Build) : build_ok b -> build_ok (takeTask i b).
Proof. intros [Hreg Hpool]. split; simpl; [done|]. by apply Forall_delete. Qed.

Lemma build_ok_resolveWaiter (w : Waiter) (module : addr) (b : Build) :
  build_ok b -> build_ok (resolveWaiter w module b).
Proof.
  intros Hb. destruct w; simpl.
  - by destruct Hb.
  - by apply build_ok_childDone.
  - apply build_ok_spawn; [done|]. by repeat constructor.
Qed.

Lemma graph_resolveWaiter (w : Waiter) (module : addr) (b : Build) :
  graph (resolveWaiter w module b) = graph b.
Proof. by destruct w. Qed.

Lemma build_ok_awaitFetch (w : Waiter) (f : Fetch) (b : Build) :
  build_ok b -> fetch_registered f (moduleById (graph b)) ->
  build_ok (awaitFetch w f b).
Proof.
  intros Hb Hf. destruct f; simpl.
  - by apply build_ok_resolveWaiter.
  - apply build_ok_spawn; [done|]. by repeat constructor.
Qed.

Lemma graph_awaitFetch (w : Waiter) (f : Fetch) (b : Build) :
  graph (awaitFetch w f b) = graph b.
Proof. destruct f; simpl; [apply graph_resolveWaiter|done]. Qed.

(** A sound handler followed by bookkeeping that leaves the graph alone. *)
Lemma runHandler_ok {A} (c : M A) (k : A -> Build -> Build)
    (P : gmap string addr -> Prop) (Q : A -> gmap string addr -> Prop) (b : Build) :
  sound P c Q -> build_ok b -> P (moduleById (graph b)) ->
  (forall a b1, build_ok b1 -> Q a (moduleById (graph b1)) ->
                build_ok (k a b1) /\ graph (k a b1) = graph b1) ->
  build_ok (runHandler c k b) /\ graph_le (graph b) (graph (runHandler c k b)).
Proof.
  intros Hc Hb HP Hk. destruct (Hc (graph b) (ok_registry _ Hb) HP) as (Hreg & Hle & HQ).
  unfold runHandler. destruct (c (graph b)) as [[a|e] g'] eqn:Hrun; simpl in *.
  - pose proof (build_ok_with_graph g' b Hb Hreg Hle) as Hb1.
    destruct (Hk a (with_graph g' b) Hb1 (HQ a eq_refl)) as [Hok Hgraph].
    split; [done|]. by rewrite Hgraph.
  - split; [|done]. by apply build_ok_reject, build_ok_with_graph.
Qed.

Lemma runTask_ok (t : Task) (s : Settled) (b b' : Build) :
  build_ok b -> task_ok (graph b) t -> runTask H t s b = Some b' ->
  build_ok b' /\ graph_le (graph b) (graph b').
Proof.
  intros Hb Ht Hrun.
  destruct t; destruct s as [|[?|?]|[?|?]|[?|?]|[?|?]]; simpl in Hrun;
    try discriminate; try injection Hrun as <-;
    try (split; [by apply build_ok_reject|apply graph_le_refl]).
  - (* TEntry *)
    eapply runHandler_ok; [apply sound_loadModule_resolved|done|done|].
    intros f b1 Hb1 Hf. split; [by apply build_ok_awaitFetch|apply graph_awaitFetch].
  - (* TLoad *)
    destruct (fetchModule_checkSource H id a); injection Hrun as <-.
    + split; [|apply graph_le_refl]. apply build_ok_spawn; [done|]. by repeat constructor.
    + split; [by apply build_ok_reject|apply graph_le_refl].
  - (* TSource *)
    eapply (runHandler_ok _ _ (fun m => m !! id = Some module));
      [apply sound_benign, benign_cacheOrTransform|done|done|].
    intros r b1 Hb1 Hid. destruct r; (split; [|done]);
      (apply build_ok_spawn; [done|]); by repeat constructor.
  - (* TTransform *)
    split; [|apply graph_le_refl]. apply build_ok_spawn; [done|]. by repeat constructor.
  - (* TSetSource *)
    eapply (runHandler_ok _ _ (fun m => m !! id = Some module));
      [apply sound_setSource|done|done|].
    intros m b1 Hb1 Hid. split; [|done].
    apply build_ok_setJoin, build_ok_spawn; [done|].
    apply Forall_app. split; [|apply Forall_app; split].
    + apply Forall_forall. intros t [i [e [-> _]]]%elem_of_lookup_imap. done.
    + apply Forall_forall. intros t [e [-> _]]%list_elem_of_fmap. done.
    + by repeat constructor.
  - (* TStatic *)
    eapply (runHandler_ok _ _ (fun _ => True));
      [apply sound_benign, benign_resolve|done|done|].
    intros r b1 Hb1 _. destruct r; (split; [|done]);
      (apply build_ok_spawn; [done|]); by repeat constructor.
  - (* TResolveId *)
    split; [|apply graph_le_refl]. apply build_ok_spawn; [done|]. by repeat constructor.
  - (* TResolved *)
    eapply runHandler_ok; [apply sound_resolved|done|done|].
    intros d b1 Hb1 Hd. destruct d.
    + split; [by apply build_ok_childDone|done].
    + split; [by apply build_ok_awaitFetch|apply graph_awaitFetch].
  - (* TDynamic *)
    eapply runHandler_ok; [apply sound_dynamic|done|done|].
    intros d b1 Hb1 Hd. destruct d.
    + split; [by apply build_ok_childDone|done].
    + split; [by apply build_ok_awaitFetch|apply graph_awaitFetch].
  - (* TDynamicFetched *)
    eapply (runHandler_ok _ _ (fun _ => True));
      [apply sound_benign, benign_dynamicFetched|done|done|].
    intros r b1 Hb1 _. split; [by apply build_ok_childDone|done].
  - (* TFinish *)
    destruct (decide _); [|discriminate]. injection Hrun as <-.
    eapply (runHandler_ok _ _ (fun _ => True));
      [apply sound_benign, benign_finish|done|done|].
    intros r b1 Hb1 _. split; [by apply build_ok_resolveWaiter|apply graph_resolveWaiter].
Qed.

Lemma step_ok (b b' : Build) :
  build_ok b -> step H b b' -> build_ok b' /\ graph_le (graph b) (graph b').
Proof.
  intros Hb (i & s & Hstep). unfold stepAt in Hstep.
  destruct (pool b !! i) as [t|] eqn:Hi; [|discriminate].
  apply (runTask_ok t s (takeTask i b) b'); [by apply build_ok_takeTask| |done].
  simpl. by apply (proj1 (Forall_lookup _ _) (ok_pool _ Hb) i t).
Qed.

Lemma steps_ok (b b' : Build) :
  build_ok b -> rtc (step H) b b' -> build_ok b' /\ graph_le (graph b) (graph b').
Proof.
  intros Hb Hsteps. induction Hsteps as [b|b b1 b2 Hstep _ IH].
  - split; [done|apply graph_le_refl].
  - destruct (step_ok b b1 Hb Hstep) as [Hb1 Hle1].
    destruct (IH Hb1) as [Hb2 Hle2]. split; [done|by eapply graph_le_trans].
Qed.

Lemma startBuild_ok (cache : gmap string ModuleJSON) (ids : list string) :
  build_ok (startBuild cache ids).
Proof.
  split; simpl.
  - apply (registry_ok_benign (loadEntryModules ids)).
    + apply benign_forEach. intros id. apply benign_callHook_resolveId.
    + split; simpl.
      * intros id a. rewrite lookup_empty. split; [by intros ?%elem_of_nil|done].
      * intros id. split; [by intros ?%elem_of_nil|by intros ?%not_elem_of_empty].
      * intros i id. by rewrite lookup_nil.
  - apply Forall_forall. intros t [i [e [-> _]]]%elem_of_lookup_imap. done.
Qed.

Lemma reachable_ok (cache : gmap string ModuleJSON) (ids : list string) (b : Build) :
  reachable H cache ids b -> build_ok b.
Proof. intros Hr. by apply (steps_ok _ _ (startBuild_ok cache ids) Hr). Qed.

End Steps.

(** ** [fetchModule] and the [load] hook *)

Section LoadOnce.

Variable H : Host.

Lemma runSchedule_steps (schedule : list (nat * Settled)) (b b' : Build) :
  runSchedule H schedule b = Some b' -> rtc (step H) b b'.
Proof.
  revert b. induction schedule as [|[i s] rest IH]; intros b; simpl.
  - intros [= ->]. apply rtc_refl.
  - destruct (stepAt H i s b) as [b1|] eqn:Hstep; [|discriminate].
    intros Hrest. eapply rtc_l; [by exists i, s|by apply IH].
Qed.

Lemma fetchModule_first (id : string) (importer : option string) (g : Graph) :
  moduleById g !! id = None ->
  fetchModule id importer g =
    (Ok (Loading id importer (length (heap g))),
     with_log (fun l => l ++ [EffSetModule id (length (heap g)); EffWatch id;
                              EffHook (HookLoad id)])
       (with_watchFiles (fun w => {[id]} ∪ w)
          (with_moduleById (fun m => <[id := length (heap g)]> m)
             (with_heap (fun h => h ++ [OModule (newModule id)]) g)))).
Proof.
  intros Hid. unfold fetchModule.
  rewrite (bind_Ok _ _ g g None) by (unfold moduleById_get, gets; by rewrite Hid).
  unfold bind, alloc, moduleById_set, watchFiles_add, callHook, emit, modify, bind, ret.
  simpl. f_equal. unfold with_log, with_watchFiles, with_moduleById, with_heap. simpl.
  f_equal. by rewrite <- !app_assoc.
Qed.

Lemma fetchModule_again (id : string) (importer : option string) (g : Graph)
    (a : addr) (o : Obj) :
  moduleById g !! id = Some a -> heap g !! a = Some o -> obj_isExternal o = false ->
  fetchModule id importer g = (Ok (Fetched a), g).
Proof.
  intros Hid Ha Hkind. unfold fetchModule.
  rewrite (bind_Ok _ _ g g (Some a)) by (unfold moduleById_get, gets; by rewrite Hid).
  rewrite (bind_Ok _ _ g g (Some o)) by (unfold readObj, gets; by rewrite Ha).
  by rewrite Hkind.
Qed.

(** C2: in every build that [loadEntryModules] can get to, (1) each [load]
    call in the log was preceded by the registration of its id in
    [moduleById] and by the id's entry in [watchFiles], and is the only
    [load] call for that id; (2) a [fetchModule] call for an id that is not
    registered allocates a fresh module, registers it, adds the id to
    [watchFiles] and only then calls the [load] hook, all in one handler;
    (3) once an id is registered with a non-external module, every
    [fetchModule] call for that id, now or at any later point of the build,
    resolves with that same module and changes nothing: no hook is called. *)
Theorem load_at_most_once (cache : gmap string ModuleJSON) (ids : list string)
    (b : Build) :
  reachable H cache ids b ->
  (forall i id,
     log (graph b) !! i = Some (EffHook (HookLoad id)) ->
     (exists j a, j < i /\ log (graph b) !! j = Some (EffSetModule id a)) /\
     (exists j, j < i /\ log (graph b) !! j = Some (EffWatch id)) /\
     (forall j, log (graph b) !! j = Some (EffHook (HookLoad id)) -> j = i)) /\
  (forall id importer,
     moduleById (graph b) !! id = None ->
     let module := length (heap (graph b)) in
     exists g',
       fetchModule id importer (graph b) = (Ok (Loading id importer module), g') /\
       heap g' = heap (graph b) ++ [OModule (newModule id)] /\
       moduleById g' = <[id := module]> (moduleById (graph b)) /\
       watchFiles g' = {[id]} ∪ watchFiles (graph b) /\
       log g' = log (graph b) ++
                [EffSetModule id module; EffWatch id; EffHook (HookLoad id)]) /\
  (forall b' id importer a m,
     rtc (step H) b b' ->
     moduleById (graph b) !! id = Some a ->
     heap (graph b) !! a = Some (OModule m) ->
     fetchModule id importer (graph b') = (Ok (Fetched a), graph b')).
Proof.
  intros Hreach. pose proof (reachable_ok H cache ids b Hreach) as Hb.
  split; [|split].
  - apply (reg_load _ (ok_registry _ Hb)).
  - intros id importer Hid module. eexists. split; [by apply fetchModule_first|].
    done.
  - intros b' id importer a m Hsteps Hid Ha.
    destruct (steps_ok H b b' Hb Hsteps) as [_ [Hm _ Hh _]].
    destruct (Hh a _ Ha) as (o' & Ho' & Hkind).
    eapply fetchModule_again; [|done|done]. by eapply lookup_weaken.
Qed.

End LoadOnce.

Lemma demoBuild_reachable : reachable demoHost ∅ ["main.js"] demoBuild.
Proof. apply (runSchedule_steps demoHost demoSchedule). vm_compute. reflexivity. Qed.

Lemma load_at_most_once_witness :
  (forall i id,
     log (graph demoBuild) !! i = Some (EffHook (HookLoad id)) ->
     (exists j a, j < i /\ log (graph demoBuild) !! j = Some (EffSetModule id a)) /\
     (exists j, j < i /\ log (graph demoBuild) !! j = Some (EffWatch id)) /\
     (forall j, log (graph demoBuild) !! j = Some (EffHook (HookLoad id)) -> j = i)) /\
  (forall id importer,
     moduleById (graph demoBuild) !! id = None ->
     let module := length (heap (graph demoBuild)) in
     exists g',
       fetchModule id importer (graph demoBuild) = (Ok (Loading id importer module), g') /\
       heap g' = heap (graph demoBuild) ++ [OModule (newModule id)] /\
       moduleById g' = <[id := module]> (moduleById (graph demoBuild)) /\
       watchFiles g' = {[id]} ∪ watchFiles (graph demoBuild) /\
       log g' = log (graph demoBuild) ++
                [EffSetModule id module; EffWatch id; EffHook (HookLoad id)]) /\
  (forall b' id importer a m,
     rtc (step demoHost) demoBuild b' ->
     moduleById (graph demoBuild) !! id = Some a ->
     heap (graph demoBuild) !! a = Some (OModule m) ->
     fetchModule id importer (graph b') = (Ok (Fetched a), graph b')).
Proof.
  apply (load_at_most_once demoHost ∅ ["main.js"] demoBuild).
  apply (runSchedule_steps demoHost demoSchedule). vm_compute. reflexivity.
Defined.

(** ** Unresolved static imports (Graph.ts, lines 663-692) *)

Section Unresolved.

Variable H : Host.






Lemma obj_get_set_eq {V} (k : string) (v : V) (o : list (string * V)) :
  obj_get k (obj_set k v o) = Some v.
Proof.
  unfold obj_get. induction o as [|[k' v'] o IH]; simpl.
  - by rewrite String.eqb_refl.
  - destruct (String.eqb k k') eqn:Hk; simpl; [by rewrite String.eqb_refl|].
    by rewrite Hk.
Qed.

Lemma fetchModule_external (id : string) (importer : option string) (g : Graph)
    (a : addr) (o : Obj) :
  moduleById g !! id = Some a -> heap g !! a = Some o -> obj_isExternal o = true ->
  fetchModule id importer g =
    (Throw (ErrPlain ("Cannot fetch external module " +:+ id)), g).
Proof.
  intros Hid Ha Hkind. unfold fetchModule.
  rewrite (bind_Ok _ _ g g (Some a)) by (unfold moduleById_get, gets; by rewrite Hid).
  rewrite (bind_Ok _ _ g g (Some o)) by (unfold readObj, gets; by rewrite Ha).
  by rewrite Hkind.
Qed.




End Unresolved.


(** When [resolveId] settles with [false], the source counts as classified
    external: no error and no warning, relative specifier or not. *)
Lemma resolveId_false_is_external :
  let r := fetchAllDependencies_resolved demoHost 0 "./local" RidFalse mainGraph in
  isRelative demoHost "./local" = true /\
  isExternal demoHost "./local" "main.js" true = false /\
  fst r = Ok StaticExternal /\
  log (snd r) = log mainGraph ++ [EffSetModule "./local" 1].
Proof. vm_compute. repeat split; reflexivity. Qed.

(** ** Objects as dictionaries *)

Section JsObjects.

Context {V : Type}.

Lemma obj_get_set_ne (k k' : string) (v : V) (o : list (string * V)) :
  k <> k' -> obj_get k (obj_set k' v o) = obj_get k o.
Proof.
  intros Hne. unfold obj_get. induction o as [|[k0 v0] o IH]; simpl.
  - by destruct (String.eqb_spec k k').
  - destruct (String.eqb_spec k' k0) as [->|Hk0]; simpl.
    + by destruct (String.eqb_spec k k0).
    + destruct (String.eqb_spec k k0); [done|apply IH].
Qed.

Lemma obj_has_In (k : string) (o : list (string * V)) :
  obj_has k o = true <-> exists v, In (k, v) o.
Proof.
  unfold obj_has. induction o as [|[k0 v0] o IH]; simpl.
  - split; [discriminate|by intros [v []]].
  - destruct (String.eqb_spec k k0) as [->|Hne].
    + split; [|done]. intros _. exists v0. by left.
    + rewrite IH. split; intros [v Hv]; exists v; [by right|].
      destruct Hv as [[= -> _]|Hv]; [done|exact Hv].
Qed.

Lemma insertIndexKey_perm (n : N) (e : string * V) (l : list (N * (string * V))) :
  Permutation (insertIndexKey n e l) ((n, e) :: l).
Proof.
  induction l as [|[n' e'] l IH]; simpl; [done|].
  destruct (n <? n')%N; [done|].
  rewrite IH. apply perm_swap.
Qed.

Lemma indexEntries_perm (o : list (string * V)) :
  Permutation (map snd (indexEntries o)) (List.filter (fun e => isIndexKey (fst e)) o).
Proof.
  induction o as [|e o IH]; simpl; [done|].
  unfold isIndexKey. destruct (arrayIndex (fst e)) as [n|]; simpl; [|exact IH].
  rewrite insertIndexKey_perm. simpl. by constructor.
Qed.

Lemma filter_split_perm {A} (p : A -> bool) (l : list A) :
  Permutation (List.filter p l ++ List.filter (fun x => negb (p x)) l) l.
Proof.
  induction l as [|x l IH]; simpl; [done|].
  destruct (p x); simpl.
  - by constructor.
  - rewrite <- Permutation_middle. by constructor.
Qed.

(** [for-in] visits every own entry exactly once. *)
Lemma obj_entries_perm (o : list (string * V)) : Permutation (obj_entries o) o.
Proof.
  unfold obj_entries. rewrite indexEntries_perm.
  apply (filter_split_perm (fun e => isIndexKey (fst e))).
Qed.

Lemma obj_keys_In (k : string) (o : list (string * V)) :
  In k (obj_keys o) <-> obj_has k o = true.
Proof.
  rewrite obj_has_In. unfold obj_keys. rewrite in_map_iff. split.
  - intros [[k' v] [<- Hin]]. exists v.
    by apply (Permutation_in _ (obj_entries_perm o)).
  - intros [v Hin]. exists (k, v). split; [done|].
    by apply (Permutation_in _ (Permutation_sym (obj_entries_perm o))).
Qed.

End JsObjects.

(** ** [exportsAll] (Graph.ts, lines 571-601) *)

Section ExportsAll.

Variable H : Host.

Lemma ownExports_fold (id name : string) (keys : list string) (acc : list (string * string)) :
  obj_get name
    (foldl (fun exportsAll key =>
              if negb (String.eqb key "default") then obj_set key id exportsAll
              else exportsAll) acc keys)
  = if existsb (String.eqb name) keys && negb (String.eqb name "default")
    then Some id else obj_get name acc.
Proof.
  revert acc. induction keys as [|key keys IH]; intros acc; simpl; [done|].
  rewrite IH.
  destruct (String.eqb_spec name "default") as [->|Hnd]; simpl.
  - rewrite !andb_false_r.
    destruct (String.eqb_spec key "default") as [->|Hk]; simpl; [done|].
    apply obj_get_set_ne. congruence.
  - rewrite !andb_true_r. destruct (String.eqb_spec name key) as [->|Hne]; simpl.
    + destruct (existsb _ keys); [done|].
      destruct (String.eqb_spec key "default"); [contradiction|]. simpl.
      apply obj_get_set_eq.
    + destruct (existsb _ keys); [done|].
      destruct (String.eqb key "default"); simpl; [done|by apply obj_get_set_ne].
Qed.

(** Lines 572-576: every own exported name but [default] is mapped to the
    module's id; nothing else changes. *)
Lemma ownExportsAll_get (m : ModuleRec) (name : string) :
  obj_get name (ownExportsAll m)
  = if obj_has name (exports m) && negb (String.eqb name "default")
    then Some (mod_id m) else obj_get name (exportsAll m).
Proof.
  unfold ownExportsAll. rewrite ownExports_fold.
  replace (existsb (String.eqb name) (obj_keys (exports m)))
    with (obj_has name (exports m)); [done|].
  apply eq_true_iff_eq. rewrite existsb_exists, <- obj_keys_In. split.
  - intros Hin. exists name. split; [done|apply String.eqb_refl].
  - intros [k [Hin ->%String.eqb_eq]]. done.
Qed.

End ExportsAll.

(** ** No [default] in [exportsAll] *)

Section NoDefault.

Variable H : Host.





































End NoDefault.


(** ** The tree-shaking loop (Graph.ts, lines 263-281) *)

Section IncludeMarkedFacts.

Variable include : addr -> gset nat -> gset nat * bool.
Variable includeAllInBundle : addr -> gset nat -> gset nat.
Variable nodes : gset nat.
Variable modules : list addr.


Local Abbreviation pass := (treeshakingPass_run include).
Local Abbreviation passState ms s := (fst (fst (pass ms s [] false))).
Local Abbreviation passFlag ms s := (snd (pass ms s [] false)).

Lemma pass_general (ms : list addr) (s : gset nat) (calls : list IncludeCall)
    (flag : bool) :
  pass ms s calls flag =
    (passState ms s, calls ++ map CallInclude ms, flag || passFlag ms s).
Proof.
  revert s calls flag. induction ms as [|m ms IH]; intros s calls flag; simpl.
  - by rewrite app_nil_r, orb_false_r.
  - destruct (include m s) as [s' changed]. rewrite IH.
    rewrite (IH s' [CallInclude m]). simpl. rewrite <- app_assoc. simpl.
    f_equal. by destruct changed, flag.
Qed.

Lemma pass_grows (ms : list addr) (s : gset nat) :
  include_grows include nodes modules -> include_reports include nodes modules ->
  ms ⊆ modules -> s ⊆ nodes ->
  s ⊆ passState ms s /\ passState ms s ⊆ nodes /\
  (passFlag ms s = true -> passState ms s <> s).
Proof.
  intros Hgrows Hreports. revert s.
  induction ms as [|m ms IH]; intros s Hms Hs; simpl.
  - done.
  - assert (Hm : m ∈ modules) by (apply Hms; by left).
    assert (Hrest : ms ⊆ modules) by (intros x Hx; apply Hms; by right).
    destruct (Hgrows m s Hm Hs) as [Hle Hin].
    pose proof (Hreports m s Hm Hs) as Hrep.
    destruct (include m s) as [s' changed]; simpl in *.
    rewrite pass_general. simpl.
    destruct (IH s' Hrest Hin) as (Hle' & Hin' & Hflag').
    split; [set_solver|]. split; [done|].
    destruct changed; simpl.
    + intros _ Heq. apply (proj1 Hrep eq_refl). set_solver.
    + intros Hf Heq. apply (Hflag' Hf). set_solver.
Qed.

Lemma loop_general (fuel : nat) (s : gset nat) (calls : list IncludeCall) (p : nat) :
  treeshakingLoop include fuel modules s calls p =
    match treeshakingLoop include fuel modules s [] 0 with
    | Some (s', calls', p') => Some (s', calls ++ calls', p + p')
    | None => None
    end.
Proof.
  revert s calls p. induction fuel as [|fuel IH]; intros s calls p; simpl; [done|].
  rewrite (pass_general modules s calls). rewrite (pass_general modules s []). simpl.
  destruct (passFlag modules s).
  - rewrite IH. rewrite (IH _ (map CallInclude modules) 1).
    destruct (treeshakingLoop include fuel modules _ [] 0) as [[[s' calls'] p']|];
      [|done].
    f_equal. f_equal; [|lia]. f_equal. by rewrite app_assoc.
  - f_equal. f_equal. lia.
Qed.

(** A pass that reports a change leaves fewer nodes to include. *)
Lemma pass_shrinks (s : gset nat) :
  include_grows include nodes modules -> include_reports include nodes modules ->
  s ⊆ nodes -> passFlag modules s = true ->
  size (nodes ∖ passState modules s) < size (nodes ∖ s).
Proof.
  intros Hgrows Hreports Hs Hf.
  destruct (pass_grows modules s Hgrows Hreports (reflexivity _) Hs)
    as (Hle & Hin & Hflag).
  apply subset_size. split; [set_solver|]. intros Hsub.
  apply (Hflag Hf). apply set_eq. intros x. split; [|set_solver].
  intros Hx. destruct (decide (x ∈ s)) as [|Hns]; [done|]. exfalso.
  assert (x ∈ nodes ∖ s) as Hxs by set_solver.
  apply Hsub in Hxs. set_solver.
Qed.

(** The loop stops: with enough fuel it returns after [n] passes, the first
    [n - 1] of which changed the inclusion state while the last one did
    not. *)
Lemma treeshakingLoop_stops (k : nat) (s : gset nat) :
  include_grows include nodes modules -> include_reports include nodes modules ->
  s ⊆ nodes -> size (nodes ∖ s) <= k ->
  exists n, 1 <= n <= S k /\
    (forall fuel, n <= fuel ->
       treeshakingLoop include fuel modules s [] 0 =
         Some (afterPasses include n modules s,
               concat (replicate n (map CallInclude modules)), n)) /\
    (forall j, j < n - 1 -> passFlag modules (afterPasses include j modules s) = true) /\
    passFlag modules (afterPasses include (n - 1) modules s) = false.
Proof.
  intros Hgrows Hreports. revert s. induction k as [|k IH]; intros s Hs Hsize;
    destruct (pass_grows modules s Hgrows Hreports (reflexivity _) Hs)
      as (Hle & Hin & Hflag);
    destruct (passFlag modules s) eqn:Hf.
  - exfalso. pose proof (pass_shrinks s Hgrows Hreports Hs Hf). lia.
  - exists 1. split; [lia|]. split; [|split; [intros j Hj; lia|done]].
    intros [|fuel] Hfuel; [lia|]. simpl. rewrite (pass_general modules s []).
    rewrite Hf. simpl. by rewrite app_nil_r.
  - pose proof (pass_shrinks s Hgrows Hreports Hs Hf) as Hlt.
    destruct (IH (passState modules s) Hin) as (n & Hn & Hrun & Htrue & Hfalse); [lia|].
    exists (S n). split; [lia|]. split; [|split].
    + intros [|fuel] Hfuel; [lia|]. simpl. rewrite (pass_general modules s []).
      rewrite Hf. simpl. rewrite loop_general, Hrun by lia. done.
    + intros [|j] Hj; [done|]. simpl. apply Htrue. lia.
    + replace (S n - 1) with (S (n - 1)) by lia. exact Hfalse.
  - exists 1. split; [lia|]. split; [|split; [intros j Hj; lia|done]].
    intros [|fuel] Hfuel; [lia|]. simpl. rewrite (pass_general modules s []).
    rewrite Hf. simpl. by rewrite app_nil_r.
Qed.



End IncludeMarkedFacts.

Lemma demoInclude_grows : include_grows demoInclude {[0; 1; 2; 3]} [0; 1; 2].
Proof.
  intros m t Hm Ht. unfold demoInclude.
  assert (m = 0 \/ m = 1 \/ m = 2) as Hcases by set_solver.
  repeat case_bool_decide; simpl; set_solver.
Qed.

Lemma demoInclude_reports : include_reports demoInclude {[0; 1; 2; 3]} [0; 1; 2].
Proof.
  intros m t Hm Ht. unfold demoInclude.
  repeat case_bool_decide; simpl; split; try done; try set_solver.
Qed.


(** ** Chunks (Graph.ts, lines 443-468) *)

Section ChunkFacts.

Variable Uint8ArrayToHexString : list Byte.byte -> string.
Variable chunkIsEmpty : list OrderedModule -> bool.

Local Abbreviation keyOf m := (Uint8ArrayToHexString (entryPointsHash m)).
Local Abbreviation withHash := (withKey Uint8ArrayToHexString).

Lemma obj_set_keys {V} (k : string) (v : V) (o : list (string * V)) :
  map fst (obj_set k v o) = if obj_has k o then map fst o else map fst o ++ [k].
Proof.
  unfold obj_has. induction o as [|[k' v'] o IH]; simpl; [done|].
  destruct (String.eqb_spec k k') as [->|Hne]; simpl; [done|].
  rewrite IH. by destruct (assoc k o).
Qed.

Lemma obj_has_keys {V} (k : string) (o : list (string * V)) :
  obj_has k o = true <-> In k (map fst o).
Proof.
  rewrite obj_has_In, in_map_iff. split.
  - intros [v Hv]. by exists (k, v).
  - intros [[k' v] [<- Hv]]. by exists v.
Qed.

Lemma obj_set_NoDup {V} (k : string) (v : V) (o : list (string * V)) :
  List.NoDup (map fst o) -> List.NoDup (map fst (obj_set k v o)).
Proof.
  intros Hnd. rewrite obj_set_keys. destruct (obj_has k o) eqn:Hhas; [done|].
  apply NoDup_ListNoDup, NoDup_app. split; [by apply NoDup_ListNoDup|].
  split; [|apply NoDup_singleton].
  intros x Hx ->%list_elem_of_singleton.
  apply list_elem_of_In, obj_has_keys in Hx. congruence.
Qed.

Lemma obj_get_set {V} (k k' : string) (v : V) (o : list (string * V)) :
  obj_get k (obj_set k' v o) = if String.eqb k k' then Some v else obj_get k o.
Proof.
  destruct (String.eqb_spec k k') as [->|Hne];
    [apply obj_get_set_eq|by apply obj_get_set_ne].
Qed.

Lemma obj_get_In {V} (k : string) (v : V) (o : list (string * V)) :
  List.NoDup (map fst o) -> (In (k, v) o <-> obj_get k o = Some v).
Proof.
  unfold obj_get. induction o as [|[k' v'] o IH]; simpl; intros Hnd.
  - split; [done|discriminate].
  - inversion Hnd as [|? ? Hnotin Hnd']; subst.
    destruct (String.eqb_spec k k') as [->|Hne].
    + split.
      * intros [[= ->]|Hin]; [done|]. exfalso. apply Hnotin.
        apply in_map_iff. by exists (k', v).
      * intros [= ->]. by left.
    + rewrite <- (IH Hnd'). split; [|by right].
      intros [[= -> _]|Hin]; [done|exact Hin].
Qed.

Lemma withKey_snoc (k : string) (l : list OrderedModule) (m : OrderedModule) :
  withHash k (l ++ [m]) = withHash k l ++ (if String.eqb (keyOf m) k then [m] else []).
Proof. unfold withKey. rewrite List.filter_app. simpl. by destruct (String.eqb _ _). Qed.

Lemma build_group_grouped (processed : list OrderedModule)
    (chunkModules : list (string * list OrderedModule)) (m : OrderedModule) :
  ~ In (keyOf m) objectPrototypeKeys ->
  grouped Uint8ArrayToHexString processed chunkModules ->
  exists chunkModules',
    build_group Uint8ArrayToHexString (Ok chunkModules) m = Ok chunkModules' /\
    grouped Uint8ArrayToHexString (processed ++ [m]) chunkModules'.
Proof.
  intros Hproto [Hnd Hget]. unfold build_group.
  destruct (obj_get (keyOf m) chunkModules) as [curChunk|] eqn:Hcur.
  - eexists. split; [done|]. split; [by apply obj_set_NoDup|].
    intros k. rewrite obj_get_set, withKey_snoc.
    destruct (String.eqb_spec k (keyOf m)) as [->|Hne].
    + rewrite String.eqb_refl. rewrite Hget in Hcur.
      destruct (withHash (keyOf m) processed) as [|x ms]; [done|].
      injection Hcur as <-. done.
    + rewrite Hget. destruct (String.eqb_spec (keyOf m) k) as [<-|_]; [done|].
      by rewrite app_nil_r.
  - rewrite bool_decide_eq_false_2 by (by rewrite list_elem_of_In).
    eexists. split; [done|]. split; [by apply obj_set_NoDup|].
    intros k. rewrite obj_get_set, withKey_snoc.
    destruct (String.eqb_spec k (keyOf m)) as [->|Hne].
    + rewrite String.eqb_refl. rewrite Hget in Hcur.
      by destruct (withHash (keyOf m) processed).
    + rewrite Hget. destruct (String.eqb_spec (keyOf m) k) as [<-|_]; [done|].
      by rewrite app_nil_r.
Qed.

Lemma foldl_grouped (l processed : list OrderedModule)
    (chunkModules : list (string * list OrderedModule)) :
  (forall m, In m l -> ~ In (keyOf m) objectPrototypeKeys) ->
  grouped Uint8ArrayToHexString processed chunkModules ->
  exists chunkModules',
    foldl (build_group Uint8ArrayToHexString) (Ok chunkModules) l = Ok chunkModules' /\
    grouped Uint8ArrayToHexString (processed ++ l) chunkModules'.
Proof.
  revert processed chunkModules.
  induction l as [|m l IH]; intros processed chunkModules Hproto Hg; cbn [foldl].
  - exists chunkModules. by rewrite app_nil_r.
  - destruct (build_group_grouped processed chunkModules m) as (cm1 & Hstep & Hg1);
      [apply Hproto; by left|done|].
    rewrite Hstep.
    destruct (IH (processed ++ [m]) cm1) as (cm2 & Hrun & Hg2);
      [intros x Hx; apply Hproto; by right|done|].
    exists cm2. split; [done|]. by rewrite <- app_assoc in Hg2.
Qed.

Lemma insertByExecIndex_perm (m : OrderedModule) (l : list OrderedModule) :
  Permutation (insertByExecIndex m l) (m :: l).
Proof.
  induction l as [|x l IH]; simpl; [done|].
  destruct (execIndex m <? execIndex x)%nat; [done|].
  rewrite IH. apply perm_swap.
Qed.

Lemma sortByExecutionOrder_perm (l : list OrderedModule) :
  Permutation (sortByExecutionOrder l) l.
Proof.
  induction l as [|x l IH]; simpl; [done|].
  rewrite insertByExecIndex_perm. by constructor.
Qed.

Lemma insertByExecIndex_sorted (m : OrderedModule) (l : list OrderedModule) :
  Sorted (fun a b => execIndex a <= execIndex b) l ->
  Sorted (fun a b => execIndex a <= execIndex b) (insertByExecIndex m l).
Proof.
  induction l as [|x l IH]; simpl; intros Hs.
  - by repeat constructor.
  - destruct (Nat.ltb_spec (execIndex m) (execIndex x)) as [Hlt|Hge].
    + constructor; [done|]. constructor. lia.
    + inversion Hs as [|? ? Hs' Hhd]; subst. constructor; [by apply IH|].
      destruct l as [|y l]; simpl.
      * by constructor.
      * destruct (execIndex m <? execIndex y)%nat; constructor; [done|].
        by inversion Hhd.
Qed.

Lemma sortByExecutionOrder_sorted (l : list OrderedModule) :
  Sorted (fun a b => execIndex a <= execIndex b) (sortByExecutionOrder l).
Proof.
  induction l as [|x l IH]; simpl; [constructor|].
  by apply insertByExecIndex_sorted.
Qed.

Lemma withKey_In (k : string) (l : list OrderedModule) (m : OrderedModule) :
  In m (withHash k l) <-> In m l /\ keyOf m = k.
Proof. unfold withKey. by rewrite filter_In, String.eqb_eq. Qed.

Lemma hex_not_inherited (k : string) :
  isHexString k = true -> ~ In k objectPrototypeKeys.
Proof.
  intros Hhex Hin. unfold objectPrototypeKeys in Hin. simpl in Hin.
  repeat (destruct Hin as [<-|Hin]; [vm_compute in Hhex; discriminate|]).
  done.
Qed.

(** C8: with [preserveModules] off, and [entryPointsHash] encoded in hex
    digits, [build] makes its chunks without throwing; every module of
    [orderedModules] is in exactly one of them; two modules of
    [orderedModules] are in a common chunk if and only if their
    [entryPointsHash] encode to the same string; and every chunk holds, sorted
    by execution order, exactly the modules of [orderedModules] with one
    encoding, at least one. *)
Theorem build_chunks_partition (orderedModules : list OrderedModule) :
  (forall m, In m orderedModules ->
     isHexString (Uint8ArrayToHexString (entryPointsHash m)) = true) ->
  exists chunks,
    build_chunks Uint8ArrayToHexString chunkIsEmpty false orderedModules = Ok chunks /\
    (forall m, In m orderedModules ->
       exists i c, chunks !! i = Some c /\ In m (chunk_modules c) /\
         forall j c', chunks !! j = Some c' -> In m (chunk_modules c') -> j = i) /\
    (forall m1 m2, In m1 orderedModules -> In m2 orderedModules ->
       ((exists c, In c chunks /\ In m1 (chunk_modules c) /\ In m2 (chunk_modules c))
        <-> Uint8ArrayToHexString (entryPointsHash m1)
            = Uint8ArrayToHexString (entryPointsHash m2))) /\
    (forall c, In c chunks ->
       Sorted (fun a b => execIndex a <= execIndex b) (chunk_modules c) /\
       chunk_modules c <> [] /\
       exists k, Permutation (chunk_modules c)
                             (withKey Uint8ArrayToHexString k orderedModules)).
Proof.
  intros Hhex.
  assert (Hproto : forall m, In m orderedModules ->
            ~ In (keyOf m) objectPrototypeKeys).
  { intros m Hm. by apply hex_not_inherited, Hhex. }
  destruct (foldl_grouped orderedModules [] [] Hproto) as (cm & Hrun & Hnd & Hget).
  { split; [constructor|done]. }
  simpl in Hnd, Hget. unfold build_chunks. rewrite Hrun.
  set (entries := obj_entries cm).
  set (mk := fun e : string * list OrderedModule =>
               let '(entryHashSum, chunkModulesOrdered) := e in
               newChunk (sortByExecutionOrder chunkModulesOrdered)).
  assert (Hperm : Permutation entries cm) by apply obj_entries_perm.
  assert (Hnd' : List.NoDup (map fst entries)).
  { eapply Permutation_NoDup; [|exact Hnd].
    apply Permutation_map, Permutation_sym, Hperm. }
  assert (Hentry : forall k ms,
            In (k, ms) entries <-> ms = withHash k orderedModules /\ ms <> []).
  { intros k ms. split.
    - intros Hin%(Permutation_in _ Hperm).
      apply (obj_get_In k ms cm Hnd) in Hin. rewrite Hget in Hin.
      destruct (withHash k orderedModules); [done|]. by injection Hin as <-.
    - intros [-> Hne]. apply (Permutation_in _ (Permutation_sym Hperm)).
      apply (obj_get_In _ _ cm Hnd). rewrite Hget.
      by destruct (withHash k orderedModules). }
  assert (Hchunk : forall i c,
            map mk entries !! i = Some c ->
            exists k, entries !! i = Some (k, withHash k orderedModules) /\
                      withHash k orderedModules <> [] /\
                      c = newChunk (sortByExecutionOrder (withHash k orderedModules))).
  { intros i c Hi. change (map mk entries) with (mk <$> entries) in Hi.
    rewrite list_lookup_fmap in Hi.
    destruct (entries !! i) as [[k ms]|] eqn:Hei; [|discriminate].
    injection Hi as <-.
    assert (Hin : In (k, ms) entries)
      by (apply list_elem_of_In; by eapply list_elem_of_lookup_2).
    apply Hentry in Hin as [-> Hne]. by exists k. }
  assert (Hsame : forall i j k ms ms',
            entries !! i = Some (k, ms) -> entries !! j = Some (k, ms') -> i = j).
  { intros i j k ms ms' Hi Hj.
    apply NoDup_ListNoDup in Hnd'.
    apply (NoDup_lookup (map fst entries) i j k Hnd').
    - change (map fst entries) with (fst <$> entries).
      by rewrite list_lookup_fmap, Hi.
    - change (map fst entries) with (fst <$> entries).
      by rewrite list_lookup_fmap, Hj. }
  assert (Hmem : forall k m,
            In m (chunk_modules (newChunk (sortByExecutionOrder (withHash k orderedModules))))
            <-> In m orderedModules /\ keyOf m = k).
  { intros k m. simpl. rewrite <- withKey_In. split; apply Permutation_in.
    - apply sortByExecutionOrder_perm.
    - apply Permutation_sym, sortByExecutionOrder_perm. }
  assert (Hhome : forall m, In m orderedModules ->
            exists i, entries !! i = Some (keyOf m, withHash (keyOf m) orderedModules)).
  { intros m Hm.
    assert (Hin : In (keyOf m, withHash (keyOf m) orderedModules) entries).
    { apply Hentry. split; [done|]. intros Hnil.
      assert (In m (withHash (keyOf m) orderedModules)) as Hmk by by apply withKey_In.
      by rewrite Hnil in Hmk. }
    apply list_elem_of_In, list_elem_of_lookup_1 in Hin. exact Hin. }
  exists (map mk entries). split; [done|]. split; [|split].
  - intros m Hm. destruct (Hhome m Hm) as [i Hi].
    exists i, (newChunk (sortByExecutionOrder (withHash (keyOf m) orderedModules))).
    split; [|split].
    + change (map mk entries) with (mk <$> entries).
      by rewrite list_lookup_fmap, Hi.
    + by apply Hmem.
    + intros j c' Hj Hin. destruct (Hchunk j c' Hj) as (k & Hjk & _ & ->).
      apply Hmem in Hin as [_ <-]. by eapply Hsame.
  - intros m1 m2 Hm1 Hm2. split.
    + intros (c & Hc & Hin1 & Hin2).
      apply list_elem_of_In, list_elem_of_lookup_1 in Hc as [i Hi].
      destruct (Hchunk i c Hi) as (k & _ & _ & ->).
      apply Hmem in Hin1 as [_ ->]. by apply Hmem in Hin2 as [_ ->].
    + intros Hkey. destruct (Hhome m1 Hm1) as [i Hi].
      exists (newChunk (sortByExecutionOrder (withHash (keyOf m1) orderedModules))).
      split; [|split; by apply Hmem].
      apply list_elem_of_In. apply (list_elem_of_lookup_2 _ i).
      change (map mk entries) with (mk <$> entries).
      by rewrite list_lookup_fmap, Hi.
  - intros c Hc. apply list_elem_of_In, list_elem_of_lookup_1 in Hc as [i Hi].
    destruct (Hchunk i c Hi) as (k & _ & Hne & ->). simpl.
    split; [apply sortByExecutionOrder_sorted|]. split.
    + intros Hnil. apply Hne.
      apply Permutation_nil. rewrite <- Hnil.
      apply sortByExecutionOrder_perm.
    + exists k. apply sortByExecutionOrder_perm.
Qed.

End ChunkFacts.

Lemma demoOrdered_hex (m : OrderedModule) :
  In m demoOrdered -> isHexString (demoHex (entryPointsHash m)) = true.
Proof. intros [<-|[<-|[<-|[]]]]; reflexivity. Qed.

Lemma build_chunks_partition_witness :
  exists chunks,
    build_chunks demoHex (fun _ => false) false demoOrdered = Ok chunks /\
    (forall m, In m demoOrdered ->
       exists i c, chunks !! i = Some c /\ In m (chunk_modules c) /\
         forall j c', chunks !! j = Some c' -> In m (chunk_modules c') -> j = i) /\
    (forall m1 m2, In m1 demoOrdered -> In m2 demoOrdered ->
       ((exists c, In c chunks /\ In m1 (chunk_modules c) /\ In m2 (chunk_modules c))
        <-> demoHex (entryPointsHash m1) = demoHex (entryPointsHash m2))) /\
    (forall c, In c chunks ->
       Sorted (fun a b => execIndex a <= execIndex b) (chunk_modules c) /\
       chunk_modules c <> [] /\
       exists k, Permutation (chunk_modules c) (withKey demoHex k demoOrdered)).
Proof.
  apply (build_chunks_partition demoHex (fun _ => false) demoOrdered).
  intros m [<-|[<-|[<-|[]]]]; reflexivity.
Defined.

(** ** The registry over a whole build *)

Section RegistryOverBuild.

Variable H : Host.

(** Once [moduleById] maps an id to an object it maps it to that object in
    every later state of the build, and the object keeps its kind. *)
Theorem moduleById_permanent (cache : gmap string ModuleJSON) (ids : list string)
    (b b' : Build) (id : string) (a : addr) (o : Obj) :
  reachable H cache ids b -> rtc (step H) b b' ->
  moduleById (graph b) !! id = Some a -> heap (graph b) !! a = Some o ->
  moduleById (graph b') !! id = Some a /\
  exists o', heap (graph b') !! a = Some o' /\ obj_isExternal o' = obj_isExternal o.
Proof.
  intros Hreach Hsteps Hid Ha. pose proof (reachable_ok H cache ids b Hreach) as Hb.
  destruct (steps_ok H b b' Hb Hsteps) as [_ [Hm _ Hh _]].
  split; [by eapply lookup_weaken|]. by apply Hh.
Qed.

(** Every id whose [load] hook has been called is registered in
    [moduleById] and listed in [watchFiles]. *)
Theorem loaded_ids_registered_and_watched (cache : gmap string ModuleJSON)
    (ids : list string) (b : Build) (id : string) :
  reachable H cache ids b ->
  EffHook (HookLoad id) ∈ log (graph b) ->
  is_Some (moduleById (graph b) !! id) /\ id ∈ watchFiles (graph b).
Proof.
  intros Hreach Hin. pose proof (reachable_ok H cache ids b Hreach) as [Hreg _].
  split; [by apply loaded_registered|].
  apply list_elem_of_lookup_1 in Hin as [i Hi].
  destruct (reg_load _ Hreg i id Hi) as (_ & (j & _ & Hj) & _).
  apply (reg_watch _ Hreg). by eapply list_elem_of_lookup_2.
Qed.

End RegistryOverBuild.

Lemma moduleById_permanent_witness :
  moduleById (graph demoBuild) !! "main.js" = Some 0 /\
  exists o', heap (graph demoBuild) !! 0 = Some o' /\ obj_isExternal o' = false.
Proof.
  apply (moduleById_permanent demoHost ∅ ["main.js"] demoLoading demoBuild "main.js" 0
           (OModule (newModule "main.js"))).
  - apply (runSchedule_steps demoHost (take 1 demoSchedule)). vm_compute. reflexivity.
  - apply (runSchedule_steps demoHost (drop 1 demoSchedule)). vm_compute. reflexivity.
  - vm_compute. reflexivity.
  - vm_compute. reflexivity.
Defined.

Lemma loaded_ids_registered_and_watched_witness :
  is_Some (moduleById (graph demoBuild) !! "/local.js") /\
  "/local.js" ∈ watchFiles (graph demoBuild).
Proof.
  apply (loaded_ids_registered_and_watched demoHost ∅ ["main.js"] demoBuild "/local.js").
  - apply (runSchedule_steps demoHost demoSchedule). vm_compute. reflexivity.
  - apply list_elem_of_In. vm_compute. tauto.
Defined.

(** ** The default warning handler *)

Lemma obj_has_set {V} (k k' : string) (v : V) (o : list (string * V)) :
  obj_has k (obj_set k' v o) = String.eqb k k' || obj_has k o.
Proof.
  unfold obj_has. change (assoc k (obj_set k' v o)) with (obj_get k (obj_set k' v o)).
  rewrite obj_get_set. by destruct (String.eqb k k').
Qed.

Section MakeOnwarn.

Context {W : Type} (toString : W -> string).

Lemma onwarn_all_snoc (warnings : list W) (warning : W) :
  onwarn_all toString (warnings ++ [warning]) =
    onwarn (toString warning) (onwarn_all toString warnings).
Proof. unfold onwarn_all. by rewrite foldl_app. Qed.

(** [warned] has a key for exactly the strings seen, and each was printed
    once. *)
Lemma onwarn_all_inv (warnings : list W) :
  let st := onwarn_all toString warnings in
  (forall s, obj_has s (warned st) = true <-> s ∈ map toString warnings) /\
  (forall s, s ∈ console st <-> s ∈ map toString warnings) /\
  NoDup (console st).
Proof.
  induction warnings as [|w warnings IH] using rev_ind; simpl.
  - split; [|split]; [intros s; split; [done|by intros ?%elem_of_nil]
                     |intros s; split; by intros ?%elem_of_nil|constructor].
  - rewrite onwarn_all_snoc. simpl in IH. destruct IH as (Hw & Hc & Hnd).
    rewrite map_app. simpl. unfold onwarn.
    destruct (obj_has (toString w) (warned (onwarn_all toString warnings))) eqn:Hhas.
    + apply Hw in Hhas.
      split; [|split; [|done]].
      * intros s. rewrite Hw. set_solver.
      * intros s. rewrite Hc. set_solver.
    + assert (Hnew : toString w ∉ map toString warnings).
      { intros Hin. apply Hw in Hin. congruence. }
      simpl. split; [|split].
      * intros s. rewrite obj_has_set.
        destruct (String.eqb_spec s (toString w)) as [->|Hne]; simpl.
        -- split; [set_solver|done].
        -- rewrite Hw. set_solver.
      * intros s. rewrite elem_of_app, Hc. set_solver.
      * apply NoDup_app. split; [done|]. split; [|apply NoDup_singleton].
        intros s Hs ->%list_elem_of_singleton. by apply Hnew, Hc.
Qed.

(** The default handler prints a warning exactly when no earlier warning
    had the same [toString()]: the console holds every distinct string once,
    in the order of first occurrence. *)
Theorem makeOnwarn_prints_once (warnings : list W) (warning : W) :
  let st := onwarn_all toString warnings in
  NoDup (console st) /\
  (forall s, s ∈ console st <-> s ∈ map toString warnings) /\
  console (onwarn_all toString (warnings ++ [warning])) =
    if bool_decide (toString warning ∈ map toString warnings)
    then console st else console st ++ [toString warning].
Proof.
  destruct (onwarn_all_inv warnings) as (Hw & Hc & Hnd). simpl in *.
  split; [done|]. split; [done|].
  rewrite onwarn_all_snoc. unfold onwarn.
  destruct (obj_has (toString warning) (warned (onwarn_all toString warnings))) eqn:Hhas.
  - apply Hw in Hhas. by rewrite bool_decide_eq_true_2.
  - rewrite bool_decide_eq_false_2; [done|]. intros Hin. apply Hw in Hin. congruence.
Qed.

End MakeOnwarn.

(** ** The plugin cache *)

Section ObjectLoops.

Context {V : Type}.

Lemma obj_get_delete (k k' : string) (o : list (string * V)) :
  obj_get k (obj_delete k' o) = if String.eqb k k' then None else obj_get k o.
Proof.
  unfold obj_get, obj_delete. induction o as [|[k0 v0] o IH]; simpl.
  - by destruct (String.eqb k k').
  - destruct (String.eqb_spec k' k0) as [->|Hne]; simpl.
    + rewrite IH. by destruct (String.eqb_spec k k0).
    + destruct (String.eqb_spec k k0) as [->|Hne'].
      * by destruct (String.eqb_spec k0 k').
      * exact IH.
Qed.

Lemma obj_delete_wf (k : string) (o : list (string * V)) :
  obj_wf o -> obj_wf (obj_delete k o).
Proof.
  unfold obj_wf, obj_delete. induction o as [|[k0 v0] o IH]; simpl; [done|].
  intros [Hnotin Hnd]%NoDup_cons.
  destruct (String.eqb k k0); simpl; [by apply IH|].
  apply NoDup_cons. split; [|by apply IH].
  intros Hin. apply Hnotin. apply list_elem_of_In, in_map_iff in Hin as [e [<- He]].
  apply filter_In in He as [He _]. apply list_elem_of_In, in_map_iff. by exists e.
Qed.

Lemma obj_set_wf (k : string) (v : V) (o : list (string * V)) :
  obj_wf o -> obj_wf (obj_set k v o).
Proof. unfold obj_wf. rewrite !NoDup_ListNoDup. apply obj_set_NoDup. Qed.

Lemma obj_keys_NoDup (o : list (string * V)) : obj_wf o -> NoDup (obj_keys o).
Proof.
  unfold obj_wf, obj_keys. intros Hnd. by rewrite (obj_entries_perm o).
Qed.

Lemma obj_keys_elem (k : string) (o : list (string * V)) :
  k ∈ obj_keys o <-> is_Some (obj_get k o).
Proof.
  rewrite list_elem_of_In, obj_keys_In. unfold obj_has, obj_get.
  destruct (assoc k o); split; try done; try (by eexists); by intros [? ?].
Qed.

Lemma obj_get_nil (o : list (string * V)) :
  (forall k, obj_get k o = None) -> o = [].
Proof.
  destruct o as [|[k v] o]; [done|]. intros Hall. specialize (Hall k).
  unfold obj_get in Hall. simpl in Hall. by rewrite String.eqb_refl in Hall.
Qed.

End ObjectLoops.

(** A loop over distinct keys keeps an invariant of the keys done so far. *)
Lemma forKeys_inv {S} (I : list string -> S -> Prop) (keys : list string)
    (body : string -> S -> Res S) (s : S) :
  NoDup keys -> I [] s ->
  (forall done k s, I done s -> k ∉ done -> k ∈ keys ->
     exists s', body k s = Ok s' /\ I (done ++ [k]) s') ->
  exists s', forKeys keys body s = Ok s' /\ I keys s'.
Proof.
  intros Hnd Hinit Hstep. unfold forKeys.
  induction keys as [|k keys IH] using rev_ind.
  - by exists s.
  - apply NoDup_app in Hnd as (Hnd & Hnotin & _).
    destruct IH as (s1 & Hrun & Hinv); [done| |].
    { intros done k' s0 ? ? ?. apply Hstep; [done..|set_solver]. }
    rewrite foldl_app. simpl. rewrite Hrun.
    apply Hstep; [done| |set_solver].
    intros Hin. apply (Hnotin k Hin). set_solver.
Qed.

Section PluginCacheFacts.

Implicit Types cache : list (string * (Z * JsValue)).
Implicit Types pluginCache : list (string * list (string * (Z * JsValue))).


Lemma pluginCache_wf_lookup pluginCache (name : string) cache :
  pluginCache_wf pluginCache -> obj_get name pluginCache = Some cache -> obj_wf cache.
Proof.
  intros [Hwf Hall] Hget.
  apply (obj_get_In name cache pluginCache) in Hget; [|by apply NoDup_ListNoDup].
  rewrite Forall_forall in Hall. by apply (Hall (name, cache)), list_elem_of_In.
Qed.

Lemma pluginCache_wf_set pluginCache (name : string) cache :
  pluginCache_wf pluginCache -> obj_wf cache ->
  pluginCache_wf (obj_set name cache pluginCache).
Proof.
  intros [Hwf Hall] Hc. split; [by apply obj_set_wf|].
  clear Hwf. induction pluginCache as [|[k v] pc IH]; simpl.
  - by constructor.
  - apply Forall_cons in Hall as [Hv Hall].
    destruct (String.eqb name k); constructor; auto.
Qed.

Lemma pluginCache_wf_delete pluginCache (name : string) :
  pluginCache_wf pluginCache -> pluginCache_wf (obj_delete name pluginCache).
Proof.
  intros [Hwf Hall]. split; [by apply obj_delete_wf|].
  rewrite Forall_forall in Hall |- *. intros e He.
  apply Hall. apply list_elem_of_In, filter_In in He as [He _]. by apply list_elem_of_In.
Qed.


Lemma getCache_evict_spec (cacheExpiry : option Z) cache :
  obj_wf cache ->
  exists cache' allDeleted,
    getCache_evict cacheExpiry cache = Ok (cache', allDeleted) /\ obj_wf cache' /\
    (forall key, obj_get key cache' =
       match obj_get key cache with
       | Some (accessCount, value) =>
           if expired cacheExpiry accessCount then None else Some (accessCount, value)
       | None => None
       end) /\
    (allDeleted = true <-> cache' = []).
Proof.
  intros Hwf. unfold getCache_evict.
  set (kept := fun key : string =>
       match obj_get key cache with
       | Some (accessCount, value) =>
           if expired cacheExpiry accessCount then None else Some (accessCount, value)
       | None => None
       end).
  destruct (forKeys_inv
    (fun done '(c, allDeleted) => obj_wf c /\
       (forall key, obj_get key c =
          if bool_decide (key ∈ done) then kept key else obj_get key cache) /\
       (allDeleted = true <-> forall key, key ∈ done -> kept key = None))
    (obj_keys cache)
    (fun key '(cache, allDeleted) =>
       match obj_get key cache with
       | Some (accessCount, _) =>
           if expired cacheExpiry accessCount then Ok (obj_delete key cache, allDeleted)
           else Ok (cache, false)
       | None => Throw ErrType
       end) (cache, true)) as ([c allDeleted] & Hrun & Hwf' & Hget & Hall).
  - by apply obj_keys_NoDup.
  - split; [done|]. split; [|split; [by intros _ key ?%elem_of_nil|done]].
    intros key. by rewrite bool_decide_eq_false_2 by set_solver.
  - intros done k [c allDeleted] (Hc & Hget & Hall) Hk Hin.
    rewrite Hget, bool_decide_eq_false_2 by done.
    apply obj_keys_elem in Hin as [[n v] Hkv]. rewrite Hkv.
    assert (Hkept : kept k = if expired cacheExpiry n then None else Some (n, v)).
    { unfold kept. by rewrite Hkv. }
    destruct (expired cacheExpiry n) eqn:Hexp.
    + eexists (_, _). split; [done|]. split; [by apply obj_delete_wf|]. split.
      * intros key. rewrite obj_get_delete.
        destruct (String.eqb_spec key k) as [->|Hne].
        -- by rewrite bool_decide_eq_true_2 by set_solver.
        -- rewrite Hget. by rewrite (bool_decide_ext (key ∈ done ++ [k]) (key ∈ done))
             by set_solver.
      * rewrite Hall. split.
        -- intros Hdone key [?| ->%list_elem_of_singleton]%elem_of_app; auto.
        -- intros Hdone key ?. apply Hdone. set_solver.
    + eexists (_, _). split; [done|]. split; [done|]. split.
      * intros key. rewrite Hget. destruct (decide (key = k)) as [->|Hne].
        -- rewrite bool_decide_eq_false_2 by done.
           rewrite bool_decide_eq_true_2 by set_solver. by rewrite Hkept.
        -- by rewrite (bool_decide_ext (key ∈ done ++ [k]) (key ∈ done)) by set_solver.
      * split; [done|]. intros Hdone. specialize (Hdone k). rewrite Hkept in Hdone.
        discriminate Hdone. set_solver.
  - exists c, allDeleted. split; [done|]. split; [done|].
    assert (Hget' : forall key, obj_get key c = kept key).
    { intros key. rewrite Hget. case_bool_decide as Hin; [done|]. unfold kept.
      destruct (obj_get key cache) eqn:Hk; [|done].
      exfalso. apply Hin, obj_keys_elem. by eexists. }
    split; [done|]. rewrite Hall. split.
    + intros Hnone. apply obj_get_nil. intros key. rewrite Hget'.
      destruct (decide (key ∈ obj_keys cache)) as [Hin|Hnotin]; [by apply Hnone|].
      unfold kept. destruct (obj_get key cache) eqn:Hk; [|done].
      exfalso. apply Hnotin, obj_keys_elem. by eexists.
    + intros -> key _. by rewrite <- Hget'.
Qed.

Lemma getCache_plugins_spec (cacheExpiry : option Z) pluginCache :
  pluginCache_wf pluginCache ->
  exists pluginCache', getCache_plugins cacheExpiry pluginCache = Ok pluginCache' /\
    pluginCache_wf pluginCache' /\
    (forall name key, cacheEntry pluginCache' name key =
       match cacheEntry pluginCache name key with
       | Some (accessCount, value) =>
           if expired cacheExpiry accessCount then None else Some (accessCount, value)
       | None => None
       end) /\
    (forall name, obj_get name pluginCache' <> Some []).
Proof.
  intros Hwf. unfold getCache_plugins.
  set (kept := fun name key : string =>
       match cacheEntry pluginCache name key with
       | Some (accessCount, value) =>
           if expired cacheExpiry accessCount then None else Some (accessCount, value)
       | None => None
       end).
  destruct (forKeys_inv
    (fun done pc => pluginCache_wf pc /\
       (forall name, name ∉ done -> obj_get name pc = obj_get name pluginCache) /\
       (forall name key, name ∈ done -> cacheEntry pc name key = kept name key) /\
       (forall name, name ∈ done -> obj_get name pc <> Some []))
    (obj_keys pluginCache)
    (fun name pluginCache =>
       match obj_get name pluginCache with
       | Some cache =>
           match getCache_evict cacheExpiry cache with
           | Ok (cache, allDeleted) =>
               let pluginCache := obj_set name cache pluginCache in
               if allDeleted then Ok (obj_delete name pluginCache) else Ok pluginCache
           | Throw e => Throw e
           end
       | None => Throw ErrType
       end) pluginCache) as (pc & Hrun & Hwf' & Hrest & Hget & Hne).
  - apply obj_keys_NoDup, Hwf.
  - split; [done|]. split; [done|]. split; [by intros ? ? ?%elem_of_nil|].
    by intros ? ?%elem_of_nil.
  - intros done k pc (Hpc & Hrest & Hget & Hne) Hk Hin.
    apply obj_keys_elem in Hin as [cache Hcache].
    rewrite (Hrest k Hk), Hcache.
    destruct (getCache_evict_spec cacheExpiry cache)
      as (cache' & allDeleted & -> & Hwfc & Hc & Hall).
    { exact (pluginCache_wf_lookup pluginCache k cache Hwf Hcache). }
    assert (Hk' : forall key, obj_get key cache' = kept k key).
    { intros key. rewrite Hc. unfold kept, cacheEntry. by rewrite Hcache. }
    simpl. destruct allDeleted.
    + assert (cache' = []) as -> by by apply Hall.
      eexists. split; [done|].
      split; [by apply pluginCache_wf_delete, pluginCache_wf_set|]. split; [|split].
      * intros name Hname. rewrite obj_get_delete, obj_get_set.
        destruct (String.eqb_spec name k) as [->|]; [set_solver|]. apply Hrest. set_solver.
      * intros name key Hname. unfold cacheEntry at 1.
        rewrite obj_get_delete, obj_get_set.
        destruct (String.eqb_spec name k) as [->|Hne'].
        -- by rewrite <- Hk'.
        -- apply (Hget name key). set_solver.
      * intros name Hname. rewrite obj_get_delete, obj_get_set.
        destruct (String.eqb_spec name k) as [->|Hne']; [done|]. apply Hne. set_solver.
    + assert (cache' <> []) as Hnonempty.
      { intros Hnil. by apply Hall in Hnil. }
      eexists. split; [done|]. split; [by apply pluginCache_wf_set|]. split; [|split].
      * intros name Hname. rewrite obj_get_set.
        destruct (String.eqb_spec name k) as [->|]; [set_solver|]. apply Hrest. set_solver.
      * intros name key Hname. unfold cacheEntry at 1. rewrite obj_get_set.
        destruct (String.eqb_spec name k) as [->|Hne'].
        -- apply Hk'.
        -- apply (Hget name key). set_solver.
      * intros name Hname. rewrite obj_get_set.
        destruct (String.eqb_spec name k) as [->|Hne']; [congruence|]. apply Hne.
        set_solver.
  - exists pc. split; [done|]. split; [done|]. split.
    + intros name key. destruct (decide (name ∈ obj_keys pluginCache)) as [Hin|Hnotin].
      * by apply Hget.
      * unfold cacheEntry. rewrite (Hrest name Hnotin).
        destruct (obj_get name pluginCache) eqn:Hname; [|done].
        exfalso. apply Hnotin, obj_keys_elem. by eexists.
    + intros name. destruct (decide (name ∈ obj_keys pluginCache)) as [Hin|Hnotin].
      * by apply Hne.
      * rewrite (Hrest name Hnotin). intros Hname.
        apply Hnotin, obj_keys_elem. by eexists.
Qed.

End PluginCacheFacts.

Section PluginCacheLifetime.

Implicit Types pluginCache : list (string * list (string * (Z * JsValue))).



(** X4: [getCache] keeps exactly the cache entries whose access count is
    below [cacheExpiry] (all of them when [cacheExpiry] is undefined), with
    their count and value, and leaves no plugin with an empty cache. *)
Theorem getCache_evicts_expired (cacheExpiry : option Z) pluginCache :
  pluginCache_wf pluginCache ->
  exists pluginCache', getCache_plugins cacheExpiry pluginCache = Ok pluginCache' /\
    (forall name key accessCount value,
       cacheEntry pluginCache' name key = Some (accessCount, value) <->
       cacheEntry pluginCache name key = Some (accessCount, value) /\
       expired cacheExpiry accessCount = false) /\
    (forall name, obj_get name pluginCache' <> Some []).
Proof.
  intros Hwf.
  destruct (getCache_plugins_spec cacheExpiry pluginCache Hwf)
    as (pc & Hrun & _ & Hget & Hne).
  exists pc. split; [done|]. split; [|done]. intros name key n v. rewrite Hget.
  destruct (cacheEntry pluginCache name key) as [[n' v']|]; [|by split; [|intros []]].
  destruct (expired cacheExpiry n') eqn:Hexp.
  - split; [done|]. intros [[= -> ->] ?]. congruence.
  - split; [by intros [= -> ->]|by intros [? _]].
Qed.


End PluginCacheLifetime.

Lemma demoPluginCache_wf : pluginCache_wf demoPluginCache.
Proof.
  split; [|repeat apply Forall_cons_2; try apply Forall_nil_2];
    unfold obj_wf; simpl; apply (bool_decide_unpack _); vm_compute; exact I.
Qed.

Lemma getCache_evicts_expired_witness :
  exists pluginCache', getCache_plugins (Some 2%Z) demoPluginCache = Ok pluginCache' /\
    (forall name key accessCount value,
       cacheEntry pluginCache' name key = Some (accessCount, value) <->
       cacheEntry demoPluginCache name key = Some (accessCount, value) /\
       expired (Some 2%Z) accessCount = false) /\
    (forall name, obj_get name pluginCache' <> Some []).
Proof. apply (getCache_evicts_expired (Some 2%Z) demoPluginCache), demoPluginCache_wf. Defined.


(** ** The module cache the constructor builds *)

(** X6: [cachedModules] holds, for an id, the last module of
    [options.cache.modules] with that id, and nothing for an id no module
    has; without [options.cache] or without its [modules] it is empty. *)
Theorem cachedModules_last_wins (cache : CacheOption) (id : string) :
  constructor_cachedModules cache !! id =
    match cache with
    | CacheObject (Some modules) _ =>
        last (List.filter (fun module => String.eqb (json_id module) id) modules)
    | _ => None
    end.
Proof.
  destruct cache as [| |[modules|] plugins]; simpl; try apply lookup_empty.
  induction modules as [|module modules IH] using rev_ind; [apply lookup_empty|].
  rewrite foldl_app, List.filter_app. simpl.
  destruct (String.eqb_spec (json_id module) id) as [<-|Hne].
  - rewrite lookup_insert_eq. by rewrite last_snoc.
  - rewrite lookup_insert_ne by done. by rewrite app_nil_r.
Qed.

(** ** [getModuleContext] *)

Section ModuleContextFacts.

Variable resolvePath : string -> string.

Lemma moduleContext_lookup (o : list (string * string)) (keys : list string) (id : string) :
  foldl (fun moduleContext key => <[resolvePath key := obj_get key o]> moduleContext)
        (∅ : gmap string (option string)) keys !! id =
    (fun key => obj_get key o)
      <$> last (List.filter (fun key => String.eqb (resolvePath key) id) keys).
Proof.
  induction keys as [|key keys IH] using rev_ind; [apply lookup_empty|].
  rewrite foldl_app, List.filter_app. simpl.
  destruct (String.eqb_spec (resolvePath key) id) as [<-|Hne].
  - rewrite lookup_insert_eq. by rewrite last_snoc.
  - rewrite lookup_insert_ne by done. by rewrite app_nil_r.
Qed.

(** With an object as [options.moduleContext], the context of a module
    is looked up by resolved path: it is the value under the last key, in
    [for-in] order, whose [resolve(key)] is the module's id, and the global
    [context] when there is no such key or the value is the empty string.
    Whatever the option, the result is the empty string only if [context]
    is. *)
Theorem getModuleContext_by_resolved_path (optionsModuleContext : list (string * string))
    (mc : ModuleContextOption) (context id : string) :
  constructor_getModuleContext resolvePath
      (ModuleContextObject optionsModuleContext) context id =
    orContext
      (last (List.filter (fun key => String.eqb (resolvePath key) id)
                         (obj_keys optionsModuleContext))
         ≫= fun key => obj_get key optionsModuleContext)
      context /\
  (constructor_getModuleContext resolvePath mc context id = "" -> context = "").
Proof.
  split.
  - simpl. unfold constructor_moduleContext. rewrite moduleContext_lookup.
    by destruct (last _).
  - assert (Hor : forall value, orContext value context = "" -> context = "").
    { intros [value|]; simpl; [|done]. unfold truthyString.
      destruct (String.eqb_spec value ""); simpl; [done|]. by intros ->. }
    destruct mc; simpl; try apply Hor. done.
Qed.

End ModuleContextFacts.

(** ** [loadEntryModules] *)

Section EntryIdsFacts.

Lemma addManualChunkIds_inner (ids0 cur chunk : list string) (allowed : string -> Prop) :
  extends_ids ids0 cur allowed -> (forall id, id ∈ chunk -> allowed id) ->
  let cur' := foldl (fun ids id => if bool_decide (id ∈ ids) then ids else ids ++ [id])
                    cur chunk in
  extends_ids ids0 cur' allowed /\ (forall id, id ∈ cur -> id ∈ cur') /\
  (forall id, id ∈ chunk -> id ∈ cur').
Proof.
  revert cur. induction chunk as [|id chunk IH]; intros cur Hext Hallowed; simpl.
  - split; [done|]. split; [done|]. by intros ? ?%elem_of_nil.
  - assert (Hext' : extends_ids ids0
                      (if bool_decide (id ∈ cur) then cur else cur ++ [id]) allowed).
    { case_bool_decide as Hin; [done|].
      destruct Hext as (added & -> & Hnd & Hnew). exists (added ++ [id]).
      split; [by rewrite app_assoc|]. split.
      - apply NoDup_app. split; [done|]. split; [|apply NoDup_singleton].
        intros x Hx ->%list_elem_of_singleton. apply Hin. set_solver.
      - intros x [Hx| ->%list_elem_of_singleton]%elem_of_app; [by apply Hnew|].
        split; [set_solver|]. apply Hallowed. set_solver. }
    destruct (IH _ Hext') as (Hres & Hmono & Hchunk).
    { intros x Hx. apply Hallowed. set_solver. }
    split; [done|]. split.
    + intros x Hx. apply Hmono. case_bool_decide; set_solver.
    + intros x [->|Hx]%elem_of_cons; [|by apply Hchunk].
      apply Hmono. case_bool_decide; set_solver.
Qed.

Lemma addManualChunkIds_spec (manualChunks : list (string * list string))
    (ids0 : list string) :
  let inChunk := fun id => exists name chunk,
                   obj_get name manualChunks = Some chunk /\ id ∈ chunk in
  extends_ids ids0 (addManualChunkIds manualChunks ids0) inChunk /\
  forall id, inChunk id -> id ∈ addManualChunkIds manualChunks ids0.
Proof.
  intros inChunk. unfold addManualChunkIds.
  assert (Hgen : forall keys, (forall name, name ∈ keys -> name ∈ obj_keys manualChunks) ->
    let cur := foldl (fun ids name =>
                 foldl (fun ids id => if bool_decide (id ∈ ids) then ids else ids ++ [id])
                       ids (obj_at [] name manualChunks)) ids0 keys in
    extends_ids ids0 cur inChunk /\
    forall name id, name ∈ keys -> id ∈ obj_at [] name manualChunks -> id ∈ cur).
  { induction keys as [|name keys IH] using rev_ind; intros Hkeys; simpl.
    - split; [|by intros ? ? ?%elem_of_nil].
      exists []. split; [by rewrite app_nil_r|]. split; [constructor|].
      by intros ? ?%elem_of_nil.
    - rewrite foldl_app. simpl. destruct IH as [Hext Hin]; [set_solver|].
      assert (Hname : name ∈ obj_keys manualChunks) by set_solver.
      apply obj_keys_elem in Hname as [chunk Hchunk].
      destruct (addManualChunkIds_inner ids0 _ (obj_at [] name manualChunks) inChunk Hext)
        as (Hext' & Hmono & Hnew).
      { intros id Hid. exists name, chunk. split; [done|].
        unfold obj_at in Hid. by rewrite Hchunk in Hid. }
      split; [done|].
      intros name' id [Hn| ->%list_elem_of_singleton]%elem_of_app Hid.
      + apply Hmono. by eapply Hin.
      + by apply Hnew. }
  destruct (Hgen (obj_keys manualChunks)) as [Hext Hin]; [done|].
  split; [done|]. intros id (name & chunk & Hget & Hid).
  apply (Hin name id).
  - apply obj_keys_elem. by eexists.
  - unfold obj_at. by rewrite Hget.
Qed.

Lemma loadEntryModules_ids_lengths (entryModules : EntryOption)
    (manualChunks : option (list (string * list string))) :
  let ids := loadEntryModules_ids entryModules manualChunks in
  length (entryModuleAliases ids) = length (entryModuleIds ids) /\
  exists added, entryAndManualChunkIds ids = entryModuleIds ids ++ added.
Proof.
  destruct entryModules as [s|l|o], manualChunks as [mc|]; cbn -[addManualChunkIds];
    rewrite ?length_map; (split; [done|]);
    try (by exists []; rewrite ?app_nil_r);
    match goal with
    | |- context [addManualChunkIds ?mc ?ids0] =>
        destruct (addManualChunkIds_spec mc ids0) as [(added & -> & _) _]; by exists added
    end.
Qed.

(** The ids [loadEntryModules] loads are the entry ids, in order and
    with their repetitions, followed by every id of a manual chunk that is
    neither an entry id nor listed before, each once; and there are as many
    aliases as entry ids. *)
Theorem loadEntryModules_ids_to_load (entryModules : EntryOption)
    (manualChunks : list (string * list string)) :
  let ids := loadEntryModules_ids entryModules (Some manualChunks) in
  length (entryModuleAliases ids) = length (entryModuleIds ids) /\
  exists added,
    entryAndManualChunkIds ids = entryModuleIds ids ++ added /\
    NoDup added /\
    forall id, id ∈ added <->
      (id ∉ entryModuleIds ids) /\
      exists name chunk, obj_get name manualChunks = Some chunk /\ id ∈ chunk.
Proof.
  intros ids. split; [apply loadEntryModules_ids_lengths|].
  assert (Hids : entryAndManualChunkIds ids =
                 addManualChunkIds manualChunks (entryModuleIds ids)).
  { by destruct entryModules. }
  destruct (addManualChunkIds_spec manualChunks (entryModuleIds ids))
    as [(added & Heq & Hnd & Hnew) Hall].
  exists added. rewrite Hids. split; [done|]. split; [done|].
  intros id. split; [apply Hnew|]. intros [Hnotin Hin].
  apply Hall in Hin. rewrite Heq in Hin. set_solver.
Qed.

End EntryIdsFacts.

Section LoadedEntriesFacts.

Variable H : Host.
Variable idOf : addr -> string.

Lemma removeExtensions_spec (entryAndChunkModules : list addr) (aliases : list string) :
  length aliases <= length entryAndChunkModules ->
  exists aliases', removeExtensions H idOf entryAndChunkModules aliases = Ok aliases' /\
    length aliases' = length aliases /\
    forall i alias module, aliases !! i = Some alias ->
      entryAndChunkModules !! i = Some module ->
      aliases' !! i = Some (getAliasName H (idOf module) (Some alias)).
Proof.
  intros Hlen. unfold removeExtensions.
  assert (Hgen : forall k, k <= length aliases ->
    exists l, foldl (fun acc i =>
           match acc with
           | Ok entryModuleAliases =>
               match entryAndChunkModules !! i, entryModuleAliases !! i with
               | Some module, Some alias =>
                   Ok (<[i := getAliasName H (idOf module) (Some alias)]>
                         entryModuleAliases)
               | _, _ => Throw ErrType
               end
           | Throw e => Throw e
           end) (Ok aliases) (seq 0 k) = Ok l /\
      length l = length aliases /\
      (forall i, k <= i -> l !! i = aliases !! i) /\
      forall i alias module, i < k -> aliases !! i = Some alias ->
        entryAndChunkModules !! i = Some module ->
        l !! i = Some (getAliasName H (idOf module) (Some alias))).
  { induction k as [|k IH]; intros Hk.
    - exists aliases. split; [done|]. split; [done|]. split; [done|]. intros; lia.
    - destruct IH as (l & Hrun & Hl & Hrest & Hdone); [lia|].
      rewrite seq_S, foldl_app. simpl. rewrite Hrun.
      destruct (lookup_lt_is_Some_2 entryAndChunkModules k) as [module Hmodule]; [lia|].
      destruct (lookup_lt_is_Some_2 aliases k) as [alias Halias]; [lia|].
      rewrite Hmodule, (Hrest k), Halias by lia.
      eexists. split; [done|]. split; [by rewrite length_insert|]. split.
      + intros i Hi. rewrite list_lookup_insert_ne by lia. apply Hrest. lia.
      + intros i alias' module' Hi Ha Hm. destruct (decide (i = k)) as [->|Hne].
        * rewrite list_lookup_insert_eq by lia. congruence.
        * rewrite list_lookup_insert_ne by done. apply (Hdone i); [lia|done..]. }
  destruct (Hgen (length aliases)) as (l & Hrun & Hl & _ & Hdone); [done|].
  exists l. split; [done|]. split; [done|].
  intros i alias module Ha Hm. apply (Hdone i alias module); [|done..].
  by eapply lookup_lt_Some.
Qed.

Lemma indexOf_Some {A} `{EqDecision A} (x : A) (l : list A) :
  x ∈ l ->
  exists i, indexOf x l = Some i /\ l !! i = Some x /\
    forall j, j < i -> l !! j <> Some x.
Proof.
  intros Hin. unfold indexOf.
  destruct (list_find (fun y => y = x) l) as [[i y]|] eqn:Hfind.
  - apply list_find_Some in Hfind as (Hi & -> & Hfirst). exists i.
    split; [done|]. split; [done|]. intros j Hj Hx. by apply (Hfirst j x Hx Hj).
  - apply list_find_None in Hfind. rewrite Forall_forall in Hfind.
    by destruct (Hfind x Hin).
Qed.

Lemma indexOf_None {A} `{EqDecision A} (x : A) (l : list A) :
  x ∉ l -> indexOf x l = None.
Proof.
  intros Hnotin. unfold indexOf.
  destruct (list_find (fun y => y = x) l) as [[i y]|] eqn:Hfind; [|done].
  apply list_find_Some in Hfind as (Hi & -> & _).
  destruct Hnotin. by eapply list_elem_of_lookup_2.
Qed.

Lemma manualChunkModules_lookup (value : string -> list (option addr))
    (keys : list string) (name : string) :
  obj_get name (foldl (fun acc chunkName => literal_set chunkName (value chunkName) acc)
                      [] keys) =
    if bool_decide (name ∈ keys /\ name <> "__proto__") then Some (value name) else None.
Proof.
  induction keys as [|key keys IH] using rev_ind.
  - by rewrite bool_decide_eq_false_2 by set_solver.
  - rewrite foldl_app. cbn [foldl]. unfold literal_set at 1.
    destruct (String.eqb_spec key "__proto__") as [->|Hproto].
    + rewrite IH. apply (f_equal (fun b : bool => if b then _ else _)).
      apply bool_decide_ext. set_solver.
    + rewrite obj_get_set. destruct (String.eqb_spec name key) as [->|Hne].
      * by rewrite bool_decide_eq_true_2 by set_solver.
      * rewrite IH. apply (f_equal (fun b : bool => if b then _ else _)).
        apply bool_decide_ext. set_solver.
Qed.

(** When every [loadModule] promise has resolved, the handler hands on
    the first modules as entry modules, one per entry id, and for every
    manual chunk (other than one named [__proto__]) the list of the modules
    that were loaded for its ids: each is defined, and is the module at the
    first position of that id among the ids loaded. *)
Theorem manual_chunk_modules_loaded (entryModules : EntryOption)
    (manualChunks : list (string * list string)) (entryAndChunkModules : list addr) :
  let ids := loadEntryModules_ids entryModules (Some manualChunks) in
  length entryAndChunkModules = length (entryAndManualChunkIds ids) ->
  exists loaded chunks,
    loadEntryModules_loaded H idOf ids (Some manualChunks) entryAndChunkModules
      = Ok loaded /\
    loaded_entryModules loaded = take (length (entryModuleIds ids)) entryAndChunkModules /\
    length (loaded_entryModules loaded) = length (entryModuleIds ids) /\
    manualChunkModules loaded = Some chunks /\
    forall name chunk, obj_get name manualChunks = Some chunk -> name <> "__proto__" ->
      exists modules, obj_get name chunks = Some modules /\
        Forall2 (fun id module =>
                   exists i a, module = Some a /\
                     entryAndManualChunkIds ids !! i = Some id /\
                     (forall j, j < i -> entryAndManualChunkIds ids !! j <> Some id) /\
                     entryAndChunkModules !! i = Some a)
                chunk modules.
Proof.
  intros ids Hlen.
  destruct (loadEntryModules_ids_lengths entryModules (Some manualChunks))
    as [Haliases [added Hadded]]. fold ids in Haliases, Hadded.
  assert (Hle : length (entryModuleIds ids) <= length entryAndChunkModules).
  { rewrite Hlen, Hadded, length_app. lia. }
  unfold loadEntryModules_loaded.
  assert (Halias : exists aliases',
            (if removeAliasExtensions ids
             then removeExtensions H idOf entryAndChunkModules (entryModuleAliases ids)
             else Ok (entryModuleAliases ids)) = Ok aliases').
  { destruct (removeAliasExtensions ids); [|by eexists].
    destruct (removeExtensions_spec entryAndChunkModules (entryModuleAliases ids))
      as (aliases' & Hrun & _); [lia|]. by exists aliases'. }
  destruct Halias as [aliases' ->]. eexists _, _. split; [done|]. simpl.
  split; [done|]. split; [rewrite length_take; lia|]. split; [done|].
  intros name chunk Hchunk Hproto. rewrite manualChunkModules_lookup.
  rewrite bool_decide_eq_true_2.
  2:{ split; [|done]. apply obj_keys_elem. by eexists. }
  eexists. split; [done|]. unfold obj_at. rewrite Hchunk. simpl.
  apply Forall2_fmap_r, Forall_Forall2_diag, Forall_forall. intros id Hid.
  assert (Hin : id ∈ entryAndManualChunkIds ids).
  { destruct (addManualChunkIds_spec manualChunks (entryModuleIds ids)) as [_ Hall].
    replace (entryAndManualChunkIds ids)
      with (addManualChunkIds manualChunks (entryModuleIds ids))
      by (by destruct entryModules).
    apply Hall. by exists name, chunk. }
  destruct (indexOf_Some id _ Hin) as (i & Hidx & Hi & Hfirst).
  destruct (lookup_lt_is_Some_2 entryAndChunkModules i) as [a Ha].
  { rewrite Hlen. by eapply lookup_lt_Some. }
  exists i, a. rewrite Hidx. simpl. by rewrite Ha.
Qed.

End LoadedEntriesFacts.

(** ** The entry points of [build] *)

Section EntryPointFacts.

Lemma indexOfFrom_Some {A} `{EqDecision A} (x : A) (l : list A) (from j : nat) :
  indexOfFrom x l from = Some j ->
  from <= j /\ l !! j = Some x /\ forall j', from <= j' -> j' < j -> l !! j' <> Some x.
Proof.
  unfold indexOfFrom. intros Hj.
  destruct (indexOf x (drop from l)) as [i|] eqn:Hi; [|done]. injection Hj as <-.
  unfold indexOf in Hi.
  destruct (list_find (fun y => y = x) (drop from l)) as [[i' y]|] eqn:Hfind; [|done].
  injection Hi as ->. apply list_find_Some in Hfind as (Hi & -> & Hfirst).
  rewrite lookup_drop in Hi. split; [lia|]. split; [done|].
  intros j' Hle Hlt Hx. apply (Hfirst (j' - from) x); [|lia|done].
  rewrite lookup_drop. by replace (from + (j' - from)) with j' by lia.
Qed.

Lemma indexOfFrom_None {A} `{EqDecision A} (x : A) (l : list A) (from : nat) :
  indexOfFrom x l from = None -> forall j, from <= j -> l !! j <> Some x.
Proof.
  unfold indexOfFrom. intros Hnone j Hj Hx.
  destruct (indexOf x (drop from l)) as [i|] eqn:Hi; [done|].
  destruct (indexOf_Some x (drop from l)) as (i & Hidx & _); [|congruence].
  apply (list_elem_of_lookup_2 _ (j - from)). rewrite lookup_drop.
  by replace (from + (j - from)) with j by lia.
Qed.

Variable idOf : addr -> string.

Lemma build_checkEntryPoints_spec (entryModules : list addr) (aliases : list string) :
  (build_checkEntryPoints idOf entryModules aliases = Ok tt /\
   forall i j x, i < j -> entryModules !! i = Some x -> entryModules !! j <> Some x) \/
  (exists i j module,
     i < j /\ entryModules !! i = Some module /\ entryModules !! j = Some module /\
     (forall j', i < j' -> j' < j -> entryModules !! j' <> Some module) /\
     (forall i' j' x, i' < i -> i' < j' ->
        entryModules !! i' = Some x -> entryModules !! j' <> Some x) /\
     build_checkEntryPoints idOf entryModules aliases =
       Throw (DUPLICATE_ENTRY_POINTS_error (printed aliases i) (printed aliases j)
                (idOf module))).
Proof.
  unfold build_checkEntryPoints.
  set (body := fun (acc : Res unit) (i : nat) => match acc with Ok _ => _ | Throw e => _ end).
  assert (Hgen : forall k, k <= length entryModules ->
    (foldl body (Ok tt) (seq 0 k) = Ok tt /\
     forall i j x, i < k -> i < j ->
       entryModules !! i = Some x -> entryModules !! j <> Some x) \/
    (exists i j module,
       i < j /\ entryModules !! i = Some module /\ entryModules !! j = Some module /\
       (forall j', i < j' -> j' < j -> entryModules !! j' <> Some module) /\
       (forall i' j' x, i' < i -> i' < j' ->
          entryModules !! i' = Some x -> entryModules !! j' <> Some x) /\
       foldl body (Ok tt) (seq 0 k) =
         Throw (DUPLICATE_ENTRY_POINTS_error (printed aliases i) (printed aliases j)
                  (idOf module)))).
  { induction k as [|k IH]; intros Hk.
    - left. split; [done|]. intros; lia.
    - rewrite seq_S, foldl_app. simpl.
      destruct IH as [[Hrun Hdone]|(i & j & m & ? & ? & ? & ? & ? & Hrun)]; [lia| |].
      + rewrite Hrun. simpl.
        destruct (lookup_lt_is_Some_2 entryModules k) as [m Hm]; [lia|]. rewrite Hm.
        destruct (indexOfFrom m entryModules (k + 1)) as [j|] eqn:Hj.
        * apply indexOfFrom_Some in Hj as (Hle & Hjm & Hfirst).
          right. exists k, j, m. split; [lia|]. split; [done|]. split; [done|].
          split; [intros j' ? ?; apply Hfirst; lia|]. split; [|done].
          intros i' j' x ? ?. by apply Hdone.
        * left. split; [done|]. intros i j x Hi Hij Hx.
          destruct (decide (i = k)) as [->|Hne]; [|apply (Hdone i j x); [lia|done..]].
          assert (x = m) as -> by congruence.
          apply (indexOfFrom_None m entryModules (k + 1) Hj). lia.
      + right. exists i, j, m. by rewrite Hrun. }
  destruct (Hgen (length entryModules)) as [[Hrun Hdone]|Hdup]; [done| |by right].
  left. split; [done|]. intros i j x Hij Hx. apply (Hdone i j x); [|done..].
  by eapply lookup_lt_Some.
Qed.

(** X10: [build] lets the entry modules through exactly when no module
    object occurs twice among them; otherwise it throws
    [DUPLICATE_ENTRY_POINTS], naming the aliases of the first entry that
    occurs again and of its next occurrence. *)
Theorem duplicate_entry_points (entryModules : list addr) (aliases : list string) :
  (build_checkEntryPoints idOf entryModules aliases = Ok tt <-> NoDup entryModules) /\
  (forall e, build_checkEntryPoints idOf entryModules aliases = Throw e ->
     exists i j module,
       i < j /\ entryModules !! i = Some module /\ entryModules !! j = Some module /\
       (forall j', i < j' -> j' < j -> entryModules !! j' <> Some module) /\
       (forall i' j' x, i' < i -> i' < j' ->
          entryModules !! i' = Some x -> entryModules !! j' <> Some x) /\
       e = DUPLICATE_ENTRY_POINTS_error (printed aliases i) (printed aliases j)
             (idOf module)).
Proof.
  destruct (build_checkEntryPoints_spec entryModules aliases)
    as [[Hrun Hdone]|(i & j & m & Hij & Hi & Hj & Hfirst & Hleast & Hrun)].
  - split; [|by rewrite Hrun]. split; [|done]. intros _. apply NoDup_alt.
    intros i j x Hi Hj. destruct (Nat.lt_trichotomy i j) as [Hlt|[->|Hgt]]; [|done|].
    + by destruct (Hdone i j x Hlt Hi).
    + by destruct (Hdone j i x Hgt Hj).
  - rewrite Hrun. split.
    + split; [done|]. intros Hnd. rewrite NoDup_alt in Hnd.
      specialize (Hnd i j m Hi Hj). lia.
    + intros e [= <-]. by exists i, j, m.
Qed.

End EntryPointFacts.

Section ChunkAliasFacts.

Lemma indexOf_is_None {A} `{EqDecision A} (x : A) (l : list A) :
  indexOf x l = None <-> x ∉ l.
Proof.
  split; [|apply indexOf_None]. intros Hnone Hin.
  destruct (indexOf_Some x l Hin) as (i & Hi & _). congruence.
Qed.

Lemma set_chunkAlias_lookup (module m : addr) (alias : option string)
    (chunkAlias : gmap addr string) :
  set_chunkAlias module alias chunkAlias !! m =
    if decide (m = module) then alias else chunkAlias !! m.
Proof.
  unfold set_chunkAlias. destruct alias as [alias|], (decide (m = module)) as [->|Hne].
  - apply lookup_insert_eq.
  - by apply lookup_insert_ne.
  - apply lookup_delete_eq.
  - by apply lookup_delete_ne.
Qed.

(** After the loop of lines 393-397 a module among the entry modules has
    the alias at its first position; the others keep theirs. *)
Lemma build_setChunkAliases_lookup (entryModules : list addr) (aliases : list string)
    (chunkAlias : gmap addr string) (m : addr) :
  build_setChunkAliases entryModules aliases chunkAlias !! m =
    match indexOf m entryModules with
    | Some i => aliases !! i
    | None => chunkAlias !! m
    end.
Proof.
  unfold build_setChunkAliases.
  set (body := fun (chunkAlias : gmap addr string) (i : nat) => _).
  assert (Hgen : forall k c, k <= length entryModules ->
    foldl body c (reverse (seq 0 k)) !! m =
      match indexOf m (take k entryModules) with
      | Some i => aliases !! i
      | None => c !! m
      end).
  { induction k as [|k IH]; intros c Hk; [done|].
    rewrite seq_S, reverse_app. simpl. rewrite IH by lia.
    destruct (lookup_lt_is_Some_2 entryModules k) as [x Hx]; [lia|].
    rewrite (take_S_r _ _ x Hx).
    destruct (decide (m ∈ take k entryModules)) as [Hin|Hnotin].
    - destruct (indexOf_Some m _ Hin) as (i & Hi & Hm & Hfirst). rewrite Hi.
      destruct (indexOf_Some m (take k entryModules ++ [x])) as (i' & -> & Hm' & Hfirst');
        [set_solver|].
      f_equal. destruct (Nat.lt_trichotomy i i') as [Hlt|[->|Hgt]]; [|done|].
      + destruct (Hfirst' i Hlt). by apply lookup_app_l_Some.
      + destruct (Hfirst i' Hgt). rewrite lookup_app_l in Hm'; [done|].
        apply lookup_lt_Some in Hm. lia.
    - rewrite (indexOf_None m _ Hnotin). unfold body. rewrite Hx.
      rewrite set_chunkAlias_lookup. destruct (decide (m = x)) as [->|Hne].
      + destruct (indexOf_Some x (take k entryModules ++ [x]))
          as (i' & -> & Hm' & Hfirst'); [set_solver|].
        f_equal. apply lookup_app_Some in Hm' as [Hm'|[Hle Hm']].
        * destruct Hnotin. by eapply list_elem_of_lookup_2.
        * rewrite length_take in Hle. apply lookup_lt_Some in Hm'. simpl in Hm'.
          rewrite length_take in Hm'. lia.
      + rewrite indexOf_None; [done|]. set_solver. }
  rewrite Hgen by done. by rewrite firstn_all.
Qed.

Lemma build_addDynamicEntries_spec (dynamicImports : list addr)
    (dynamicImportAliases : list string) (entryModules : list addr)
    (chunkAlias : gmap addr string) :
  NoDup entryModules ->
  exists added chunkAlias',
    build_addDynamicEntries dynamicImports dynamicImportAliases entryModules chunkAlias
      = (entryModules ++ added, chunkAlias') /\
    NoDup (entryModules ++ added) /\
    (forall a, a ∈ added <-> a ∈ dynamicImports /\ a ∉ entryModules) /\
    (forall m, m ∉ added -> chunkAlias' !! m = chunkAlias !! m) /\
    (forall a i, a ∈ added -> dynamicImports !! i = Some a ->
       (forall j, j < i -> dynamicImports !! j <> Some a) ->
       chunkAlias' !! a =
         match chunkAlias !! a with
         | Some alias =>
             if truthyString alias then Some alias else dynamicImportAliases !! i
         | None => dynamicImportAliases !! i
         end).
Proof.
  intros Hnd. unfold build_addDynamicEntries.
  match goal with |- context [foldl ?f _ _] => set (body := f) end.
  assert (Hgen : forall k, k <= length dynamicImports ->
    exists added chunkAlias',
      foldl body (entryModules, chunkAlias) (seq 0 k) = (entryModules ++ added, chunkAlias') /\
      NoDup (entryModules ++ added) /\
      (forall a, a ∈ added <-> a ∈ take k dynamicImports /\ a ∉ entryModules) /\
      (forall m, m ∉ added -> chunkAlias' !! m = chunkAlias !! m) /\
      (forall a i, a ∈ added -> dynamicImports !! i = Some a ->
         (forall j, j < i -> dynamicImports !! j <> Some a) ->
         chunkAlias' !! a =
           match chunkAlias !! a with
           | Some alias =>
               if truthyString alias then Some alias else dynamicImportAliases !! i
           | None => dynamicImportAliases !! i
           end)).
  { induction k as [|k IH]; intros Hk.
    - exists [], chunkAlias. rewrite app_nil_r. split; [done|]. split; [done|].
      split; [set_solver|]. split; [done|]. by intros ? ? ?%elem_of_nil.
    - destruct IH as (added & ca & Hrun & Hnd' & Hadded & Hrest & Hnew); [lia|].
      rewrite seq_S, foldl_app. simpl. rewrite Hrun. unfold body.
      destruct (lookup_lt_is_Some_2 dynamicImports k) as [d Hd]; [lia|]. rewrite Hd.
      rewrite (take_S_r _ _ d Hd).
      case_bool_decide as Hidx.
      + apply indexOf_is_None in Hidx.
        assert (Hd_added : d ∉ added) by set_solver.
        assert (Hd_first : forall j, j < k -> dynamicImports !! j <> Some d).
        { intros j Hj Hjd. apply Hd_added, Hadded. split; [|set_solver].
          apply (list_elem_of_lookup_2 _ j). by rewrite lookup_take_lt. }
        eexists (added ++ [d]), _. split; [by rewrite app_assoc|].
        split.
        { rewrite app_assoc. apply NoDup_app. split; [done|].
          split; [|apply NoDup_singleton].
          by intros x Hx ->%list_elem_of_singleton. }
        split; [set_solver|]. split.
        * intros m Hm. rewrite <- (Hrest m) by set_solver.
          destruct (negb _); [|done]. rewrite set_chunkAlias_lookup.
          destruct (decide (m = d)); [set_solver|done].
        * intros a i [Ha| ->%list_elem_of_singleton]%elem_of_app Hi Hfirst.
          -- assert (a <> d) by set_solver.
             rewrite <- (Hnew a i Ha Hi Hfirst).
             destruct (negb _); [|done]. rewrite set_chunkAlias_lookup.
             by destruct (decide (a = d)).
          -- assert (i = k) as ->.
             { destruct (Nat.lt_trichotomy i k) as [Hlt|[->|Hgt]]; [|done|].
               - by destruct (Hd_first i Hlt).
               - by destruct (Hfirst k Hgt). }
             rewrite (Hrest d Hd_added).
             destruct (chunkAlias !! d) as [alias|] eqn:Halias; simpl.
             ++ destruct (truthyString alias); simpl; [by rewrite Hrest|].
                rewrite set_chunkAlias_lookup. by rewrite decide_True.
             ++ rewrite set_chunkAlias_lookup. by rewrite decide_True.
      + assert (d ∈ entryModules ++ added) as Hin.
        { destruct (decide (d ∈ entryModules ++ added)) as [|Hn]; [done|].
          by apply indexOf_is_None in Hn. }
        exists added, ca. split; [done|]. split; [done|]. split; [|done].
        intros a. rewrite Hadded. set_solver. }
  destruct (Hgen (length dynamicImports)) as (added & ca & Hrun & ? & Hadded & ? & ?);
    [done|].
  exists added, ca. split; [done|]. split; [done|]. split; [|done].
  intros a. rewrite Hadded. by rewrite firstn_all.
Qed.

(** Without [inlineDynamicImports], and with distinct entry modules,
    the third phase of [build] starts from the entry modules, in place,
    followed by the dynamically imported modules that are not entry modules,
    each once; every entry module has the alias of its entry as
    [chunkAlias], also when it is imported dynamically as well; a module
    added for a dynamic import has the alias of its first dynamic import,
    unless it had a non-empty [chunkAlias] before. *)
Theorem dynamic_imports_become_entries (entryModules : list addr)
    (aliases : list string) (dynamicImports : list addr)
    (dynamicImportAliases : list string) (chunkAlias : gmap addr string) :
  NoDup entryModules ->
  exists added chunkAlias',
    build_entryPoints false entryModules aliases dynamicImports dynamicImportAliases
      chunkAlias = Ok (entryModules ++ added, chunkAlias', []) /\
    NoDup (entryModules ++ added) /\
    (forall a, a ∈ added <-> a ∈ dynamicImports /\ a ∉ entryModules) /\
    (forall i m, entryModules !! i = Some m -> chunkAlias' !! m = aliases !! i) /\
    (forall a i, a ∈ added -> dynamicImports !! i = Some a ->
       (forall j, j < i -> dynamicImports !! j <> Some a) ->
       chunkAlias' !! a =
         match chunkAlias !! a with
         | Some alias =>
             if truthyString alias then Some alias else dynamicImportAliases !! i
         | None => dynamicImportAliases !! i
         end).
Proof.
  intros Hnd. unfold build_entryPoints.
  destruct (build_addDynamicEntries_spec dynamicImports dynamicImportAliases entryModules
              (build_setChunkAliases entryModules aliases chunkAlias) Hnd)
    as (added & ca & -> & Hnd' & Hadded & Hrest & Hnew).
  exists added, ca. split; [done|]. split; [done|]. split; [done|]. split.
  - intros i m Hm. rewrite Hrest.
    + rewrite build_setChunkAliases_lookup.
      destruct (indexOf_Some m entryModules) as (i' & -> & Hm' & _);
        [by eapply list_elem_of_lookup_2|].
      f_equal. rewrite NoDup_alt in Hnd. by apply (Hnd i' i m).
    + intros Hin. apply Hadded in Hin as [_ Hnotin]. apply Hnotin.
      by eapply list_elem_of_lookup_2.
  - intros a i Ha Hi Hfirst. rewrite (Hnew a i Ha Hi Hfirst).
    rewrite build_setChunkAliases_lookup. rewrite indexOf_None; [done|].
    by apply Hadded in Ha as [_ ?].
Qed.

End ChunkAliasFacts.

(** ** The order of the chunks *)

Section ChunkOrder.

Variable Uint8ArrayToHexString : list Byte.byte -> string.
Variable chunkIsEmpty : list OrderedModule -> bool.

Local Abbreviation keyOf m := (Uint8ArrayToHexString (entryPointsHash m)).

Lemma obj_entries_no_index {V} (o : list (string * V)) :
  (forall e, e ∈ o -> isIndexKey (fst e) = false) -> obj_entries o = o.
Proof.
  intros Hno. unfold obj_entries.
  assert (Hidx : indexEntries o = []).
  { induction o as [|e o IH]; [done|]. simpl.
    pose proof (Hno e ltac:(left)) as He. unfold isIndexKey in He.
    destruct (arrayIndex (fst e)); [done|]. apply IH. intros x Hx. apply Hno. by right. }
  rewrite Hidx. simpl.
  induction o as [|e o IH]; [done|]. simpl.
  rewrite (Hno e ltac:(left)). simpl. f_equal. apply IH.
  - intros x Hx. apply Hno. by right.
  - simpl in Hidx. pose proof (Hno e ltac:(left)) as He. unfold isIndexKey in He.
    by destruct (arrayIndex (fst e)).
Qed.

Lemma build_group_keys (chunkModules chunkModules' : list (string * list OrderedModule))
    (m : OrderedModule) :
  build_group Uint8ArrayToHexString (Ok chunkModules) m = Ok chunkModules' ->
  map fst chunkModules' =
    if bool_decide (keyOf m ∈ map fst chunkModules) then map fst chunkModules
    else map fst chunkModules ++ [keyOf m].
Proof.
  unfold build_group.
  assert (Hhas : obj_has (keyOf m) chunkModules
                 = bool_decide (keyOf m ∈ map fst chunkModules)).
  { destruct (obj_has (keyOf m) chunkModules) eqn:Hh.
    - apply obj_has_keys, list_elem_of_In in Hh. by rewrite bool_decide_eq_true_2.
    - rewrite bool_decide_eq_false_2; [done|]. intros Hin%list_elem_of_In%obj_has_keys.
      congruence. }
  destruct (obj_get (keyOf m) chunkModules) as [curChunk|] eqn:Hcur.
  - intros [= <-]. by rewrite obj_set_keys, Hhas.
  - destruct (bool_decide (keyOf m ∈ objectPrototypeKeys)); [done|].
    intros [= <-]. by rewrite obj_set_keys, Hhas.
Qed.

Lemma foldl_group_keys (l : list OrderedModule)
    (chunkModules chunkModules' : list (string * list OrderedModule)) :
  foldl (build_group Uint8ArrayToHexString) (Ok chunkModules) l = Ok chunkModules' ->
  map fst chunkModules' =
    foldl (fun seen x => if bool_decide (x ∈ seen) then seen else seen ++ [x])
          (map fst chunkModules) (map (fun m => keyOf m) l).
Proof.
  revert chunkModules. induction l as [|m l IH]; intros chunkModules; cbn [foldl map].
  - by intros [= <-].
  - destruct (build_group Uint8ArrayToHexString (Ok chunkModules) m) as [cm1|e] eqn:Hstep.
    + intros Hrun. rewrite (IH cm1 Hrun). by rewrite (build_group_keys _ _ _ Hstep).
    + intros Hrun. exfalso. clear -Hrun.
      induction l as [|x l IH]; [done|]. apply IH. exact Hrun.
Qed.

(** When every hash encodes to hex digits and no encoding is an array
    index, the chunks come in the order in which their encodings first occur
    in [orderedModules]: the [i]-th chunk holds the modules with the [i]-th
    distinct encoding. *)
Theorem build_chunks_in_order_of_first_occurrence (orderedModules : list OrderedModule) :
  (forall m, In m orderedModules ->
     isHexString (Uint8ArrayToHexString (entryPointsHash m)) = true /\
     isIndexKey (Uint8ArrayToHexString (entryPointsHash m)) = false) ->
  exists chunks,
    build_chunks Uint8ArrayToHexString chunkIsEmpty false orderedModules = Ok chunks /\
    Forall2 (fun chunk key =>
               Permutation (chunk_modules chunk)
                 (withKey Uint8ArrayToHexString key orderedModules))
            chunks
            (firstOccurrences
               (map (fun m => Uint8ArrayToHexString (entryPointsHash m)) orderedModules)).
Proof.
  intros Hkeys.
  destruct (foldl_grouped Uint8ArrayToHexString orderedModules [] [])
    as (cm & Hrun & Hnd & Hget).
  { intros m Hm. apply hex_not_inherited, Hkeys, Hm. }
  { split; [constructor|done]. }
  simpl in Hnd, Hget. unfold build_chunks. rewrite Hrun.
  pose proof (foldl_group_keys _ _ _ Hrun) as Hfst. simpl in Hfst.
  fold (firstOccurrences (map (fun m => keyOf m) orderedModules)) in Hfst.
  assert (Hin : forall k ms, In (k, ms) cm ->
            ms = withKey Uint8ArrayToHexString k orderedModules /\
            exists m, In m orderedModules /\ keyOf m = k).
  { intros k ms Hkm. apply (obj_get_In k ms cm Hnd) in Hkm. rewrite Hget in Hkm.
    destruct (withKey Uint8ArrayToHexString k orderedModules) as [|m rest] eqn:Hw;
      [done|].
    injection Hkm as <-. split; [done|]. exists m.
    assert (In m (withKey Uint8ArrayToHexString k orderedModules)) as Hm
      by (rewrite Hw; by left).
    apply filter_In in Hm as [Hm Hk]. split; [done|]. by apply String.eqb_eq. }
  rewrite obj_entries_no_index.
  2:{ intros [k ms] Hkm%list_elem_of_In. destruct (Hin k ms Hkm) as [_ (m & Hm & <-)].
      apply Hkeys, Hm. }
  eexists. split; [done|]. rewrite <- Hfst.
  apply Forall2_fmap, Forall_Forall2_diag, Forall_forall.
  intros [k ms] Hkm%list_elem_of_In. destruct (Hin k ms Hkm) as [-> _]. simpl.
  apply sortByExecutionOrder_perm.
Qed.

End ChunkOrder.

(** ** The inclusion state [includeMarked] leaves *)

Section IncludeFixedPoint.

Variable include : addr -> gset nat -> gset nat * bool.
Variable includeAllInBundle : addr -> gset nat -> gset nat.
Variable nodes : gset nat.
Variable modules : list addr.

Lemma afterPasses_S_r (n : nat) (s : gset nat) :
  afterPasses include (S n) modules s =
    fst (fst (treeshakingPass_run include modules (afterPasses include n modules s)
                [] false)).
Proof.
  revert s. induction n as [|n IH]; intros s; [done|].
  change (afterPasses include (S (S n)) modules s)
    with (afterPasses include (S n) modules
            (fst (fst (treeshakingPass_run include modules s [] false)))).
  by rewrite IH.
Qed.

Lemma afterPasses_bounds (n : nat) (s : gset nat) :
  include_grows include nodes modules -> include_reports include nodes modules ->
  s ⊆ nodes ->
  s ⊆ afterPasses include n modules s /\ afterPasses include n modules s ⊆ nodes.
Proof.
  intros Hgrows Hreports. revert s. induction n as [|n IH]; intros s Hs; [done|]. simpl.
  destruct (pass_grows include includeAllInBundle nodes modules modules s Hgrows Hreports
              (reflexivity _) Hs)
    as (Hle & Hin & _).
  destruct (IH _ Hin) as [Hle' Hin']. split; [set_solver|done].
Qed.

(** A pass in which no [include] returned [true] left the state as it
    was. *)
Lemma pass_quiet (ms : list addr) (t : gset nat) :
  include_reports include nodes modules ->
  ms ⊆ modules -> t ⊆ nodes ->
  snd (treeshakingPass_run include ms t [] false) = false ->
  fst (fst (treeshakingPass_run include ms t [] false)) = t /\
  forall m, m ∈ ms -> include m t = (t, false).
Proof.
  intros Hreports. induction ms as [|m ms IH]; intros Hms Ht Hflag; simpl in *.
  - split; [done|]. by intros ? ?%elem_of_nil.
  - assert (Hm : m ∈ modules) by (apply Hms; by left).
    pose proof (Hreports m t Hm Ht) as Hrep.
    destruct (include m t) as [t' changed] eqn:Hinc. simpl in Hrep.
    rewrite pass_general in Hflag |- *. simpl in Hflag |- *.
    destruct changed; [done|]. simpl in Hflag.
    assert (t' = t) as ->.
    { destruct (decide (t' = t)) as [|Hne]; [done|]. by apply Hrep in Hne. }
    destruct IH as [Hstate Hall]; [set_solver|done|done|].
    split; [done|]. intros x [->|Hx]%elem_of_cons; [done|by apply Hall].
Qed.

(** Under the conditions of the loop's termination, what
    [includeMarked] returns is a fixed point: it holds what was included
    before, lies within the graph, and a further [include] on any of the
    modules changes nothing and returns [false]. *)
Theorem includeMarked_fixed_point (s : gset nat) :
  include_grows include nodes modules -> include_reports include nodes modules ->
  s ⊆ nodes ->
  exists s' calls,
    (forall fuel, S (size (nodes ∖ s)) <= fuel ->
       includeMarked include includeAllInBundle true fuel modules s = Some (s', calls)) /\
    s ⊆ s' /\ s' ⊆ nodes /\
    forall m, m ∈ modules -> include m s' = (s', false).
Proof.
  intros Hgrows Hreports Hs.
  destruct (treeshakingLoop_stops include includeAllInBundle nodes modules
              (size (nodes ∖ s)) s
              Hgrows Hreports Hs (le_n _)) as (n & Hn & Hrun & _ & Hlast).
  destruct n as [|n]; [lia|]. replace (S n - 1) with n in Hlast by lia.
  destruct (afterPasses_bounds n s Hgrows Hreports Hs) as [Hle Hin].
  destruct (pass_quiet modules (afterPasses include n modules s) Hreports
              (reflexivity _) Hin Hlast)
    as [Hstate Hall].
  exists (afterPasses include n modules s), (concat (replicate (S n) (map CallInclude modules))).
  split; [|done].
  intros fuel Hfuel. unfold includeMarked.
  rewrite loop_general, Hrun by lia. by rewrite afterPasses_S_r, Hstate.
Qed.

End IncludeFixedPoint.

(** ** Rules for [triple] *)

Section Triples.

Implicit Types I P : Graph -> Prop.

Lemma triple_ret {A} I P (a : A) (Q : A -> Graph -> Prop) :
  (forall g, I g -> P g -> Q a g) -> triple I P (ret a) Q.
Proof. intros HQ g HI HP. split; [done|]. intros a' [= <-]. by apply HQ. Qed.

Lemma triple_throw {A} I P (e : Err) (Q : A -> Graph -> Prop) : triple I P (throw e) Q.
Proof. intros g HI HP. by split. Qed.

Lemma triple_bind {A B} I P (c : M A) (k : A -> M B) (R : A -> Graph -> Prop)
    (Q : B -> Graph -> Prop) :
  triple I P c R -> (forall a, triple I (R a) (k a) Q) -> triple I P (bind c k) Q.
Proof.
  intros Hc Hk g HI HP. destruct (Hc g HI HP) as [HI' HR]. unfold bind.
  destruct (c g) as [[a|e] g']; simpl in *; [|by split].
  apply (Hk a g' HI'). by apply HR.
Qed.

Lemma triple_conseq {A} I (P P' : Graph -> Prop) (c : M A) (Q Q' : A -> Graph -> Prop) :
  (forall g, I g -> P g -> P' g) -> triple I P' c Q' ->
  (forall a g, I g -> Q' a g -> Q a g) -> triple I P c Q.
Proof.
  intros HP Hc HQ g HI Hg. destruct (Hc g HI (HP g HI Hg)) as [HI' HQ'].
  split; [done|]. intros a Ha. apply HQ; [done|]. by apply HQ'.
Qed.

Lemma triple_gets {A} I P (f : Graph -> A) :
  triple I P (gets f) (fun a g => P g /\ a = f g).
Proof. intros g HI HP. split; [done|]. by intros a [= <-]. Qed.

Lemma triple_modify I P (f : Graph -> Graph) (Q : unit -> Graph -> Prop) :
  (forall g, I g -> P g -> I (f g) /\ Q tt (f g)) -> triple I P (modify f) Q.
Proof.
  intros Hf g HI HP. destruct (Hf g HI HP) as [HI' HQ]. split; [done|].
  by intros [] ?.
Qed.

Lemma triple_when I P (b : bool) (c : M unit) :
  (b = true -> triple I P c (fun _ => P)) -> triple I P (when b c) (fun _ => P).
Proof. destruct b; simpl; [auto|]. intros _. by apply triple_ret. Qed.

Lemma triple_forEach {A} I P (l : list A) (body : A -> M unit) :
  (forall x, x ∈ l -> triple I P (body x) (fun _ => P)) ->
  triple I P (forEach l body) (fun _ => P).
Proof.
  induction l as [|x l IH]; intros Hbody; simpl.
  - by apply triple_ret.
  - eapply triple_bind; [apply Hbody; by left|]. intros ?. apply IH.
    intros y Hy. apply Hbody. by right.
Qed.

Lemma triple_readObj I P (a : addr) :
  triple I P (readObj a) (fun o g => P g /\ o = heap g !! a).
Proof. apply triple_gets. Qed.

Lemma triple_getModule I P (a : addr) :
  triple I P (getModule a) (fun m g => P g /\ heap g !! a = Some (OModule m)).
Proof.
  unfold getModule. eapply triple_bind; [apply triple_readObj|].
  intros [[m|x]|]; try apply triple_throw.
  apply triple_ret. by intros g _ [HP <-].
Qed.

Lemma triple_updModule I P (a : addr) (f : ModuleRec -> ModuleRec)
    (Q : unit -> Graph -> Prop) :
  (forall g m, I g -> P g -> heap g !! a = Some (OModule m) ->
     let g' := with_heap (fun h => <[a := OModule (f m)]> h) g in I g' /\ Q tt g') ->
  triple I P (updModule a f) Q.
Proof.
  intros Hupd. unfold updModule. eapply triple_bind; [apply triple_getModule|].
  intros m. apply triple_modify. intros g HI [HP Hm]. by apply Hupd.
Qed.

Lemma triple_emit I P (e : Effect) (Q : unit -> Graph -> Prop) :
  (forall g, I g -> P g ->
     let g' := with_log (fun l => l ++ [e]) g in I g' /\ Q tt g') ->
  triple I P (emit e) Q.
Proof. intros He. by apply triple_modify. Qed.

End Triples.

Section RunFacts.

Lemma getModule_run (a : addr) (m : ModuleRec) (g : Graph) :
  heap g !! a = Some (OModule m) -> getModule a g = (Ok m, g).
Proof. intros Hm. unfold getModule, bind, readObj, gets. by rewrite Hm. Qed.

Lemma updModule_run (a : addr) (f : ModuleRec -> ModuleRec) (m : ModuleRec) (g : Graph) :
  heap g !! a = Some (OModule m) ->
  updModule a f g = (Ok tt, with_heap (fun h => <[a := OModule (f m)]> h) g).
Proof. intros Hm. unfold updModule. by rewrite (bind_Ok _ _ g g m (getModule_run a m g Hm)). Qed.

End RunFacts.

(** ** Merging the names of [export *] sources *)

Section MergeFacts.

Variable H : Host.

Lemma assoc_perm {V} (k : string) (l l' : list (string * V)) :
  NoDup (map fst l) -> Permutation l l' -> assoc k l = assoc k l'.
Proof.
  intros Hnd Hperm.
  assert (Hnd' : NoDup (map fst l')) by (by rewrite <- Hperm).
  apply NoDup_ListNoDup in Hnd, Hnd'.
  destruct (assoc k l) as [v|] eqn:Hl.
  - apply (obj_get_In k v l Hnd) in Hl. symmetry. apply (obj_get_In k v l' Hnd').
    by apply (Permutation_in _ Hperm).
  - destruct (assoc k l') as [v|] eqn:Hl'; [|done].
    apply (obj_get_In k v l' Hnd') in Hl'.
    apply (Permutation_in _ (Permutation_sym Hperm)), (obj_get_In k v l Hnd) in Hl'.
    unfold obj_get in Hl'. congruence.
Qed.

Lemma flat_map_ext_elem {X Y} (f f' : X -> list Y) (l : list X) :
  (forall x, x ∈ l -> f x = f' x) -> flat_map f l = flat_map f' l.
Proof.
  induction l as [|x l IH]; intros Hext; simpl; [done|].
  rewrite Hext by (by left). f_equal. apply IH. intros y Hy. apply Hext. by right.
Qed.

(** The warnings one entry of the source's [exportsAll] gives rise to. *)
Local Abbreviation conflict m mine :=
  (fun e : string * string =>
     match obj_get (fst e) mine with
     | Some origin =>
         [EffWarn (WNamespaceConflict (mod_id m) (fst e) [origin; snd e]
                     (NAMESPACE_CONFLICT_message H (mod_id m) (fst e) origin (snd e)))]
     | None => []
     end).

Local Abbreviation mergeBody module :=
  (fun '(name, origin) =>
     let! m := getModule module in
     match obj_get name (exportsAll m) with
     | Some mine =>
         warn (WNamespaceConflict (mod_id m) name [mine; origin]
                 (NAMESPACE_CONFLICT_message H (mod_id m) name mine origin))
     | None => updModule module (with_exportsAll (obj_set name origin))
     end).

Lemma merge_loop (module : addr) (m : ModuleRec) (es : list (string * string)) :
  NoDup (map fst es) ->
  forall (cur : list (string * string)) (g : Graph),
    heap g !! module = Some (OModule (with_exportsAll (fun _ => cur) m)) ->
    exists cur' g',
      forEach es (mergeBody module) g = (Ok tt, g') /\
      heap g' = <[module := OModule (with_exportsAll (fun _ => cur') m)]> (heap g) /\
      log g' = log g ++ flat_map (conflict m cur) es /\
      forall name, obj_get name cur' =
        match obj_get name cur with
        | Some origin => Some origin
        | None => assoc name es
        end.
Proof.
  induction es as [|[name origin] es IH]; intros Hnd cur g Hm.
  - exists cur, g. split; [done|]. split.
    + by rewrite list_insert_id.
    + split; [by rewrite app_nil_r|]. intros n. by destruct (obj_get n cur).
  - simpl in Hnd. apply NoDup_cons in Hnd as [Hname Hnd].
    assert (Hrest : forall e, e ∈ es -> fst e <> name).
    { intros e He Heq. apply Hname. apply list_elem_of_fmap. by exists e. }
    cbn [forEach]. unfold bind at 1. unfold bind at 1.
    rewrite (getModule_run module _ g Hm). cbn [exportsAll with_exportsAll mod_id].
    destruct (obj_get name cur) as [mine|] eqn:Hcur.
    + unfold warn, emit, modify.
      destruct (IH Hnd cur (with_log (fun l => l ++ [EffWarn
                  (WNamespaceConflict (mod_id m) name [mine; origin]
                     (NAMESPACE_CONFLICT_message H (mod_id m) name mine origin))]) g))
        as (cur' & g' & Hrun & Hheap & Hlog & Hget); [done|].
      exists cur', g'. split; [done|]. split; [done|]. split.
      * rewrite Hlog. cbn [flat_map fst snd log with_log]. rewrite Hcur.
        by rewrite <- app_assoc.
      * intros n. rewrite Hget. destruct (obj_get n cur) eqn:Hn; [done|].
        simpl. destruct (String.eqb_spec n name) as [->|]; [congruence|done].
    + rewrite (updModule_run module _ _ g Hm).
      destruct (IH Hnd (obj_set name origin cur)
                  (with_heap (fun h => <[module := OModule
                     (with_exportsAll (obj_set name origin)
                        (with_exportsAll (fun _ => cur) m))]> h) g))
        as (cur' & g' & Hrun & Hheap & Hlog & Hget).
      { cbn [heap with_heap]. rewrite list_lookup_insert_eq; [done|].
        by eapply lookup_lt_Some. }
      exists cur', g'. split; [done|]. split; [|split].
      * rewrite Hheap. cbn [heap with_heap]. by rewrite list_insert_insert_eq.
      * rewrite Hlog. cbn [flat_map fst snd log with_heap]. rewrite Hcur. simpl.
        f_equal. apply flat_map_ext_elem. intros e He.
        rewrite obj_get_set_ne; [done|]. by apply Hrest.
      * intros n. rewrite Hget, obj_get_set. simpl.
        destruct (String.eqb_spec n name) as [->|Hne]; [by rewrite Hcur|done].
Qed.

(** One [export * from source] whose source resolved to another,
    non-external module: the names the module has already keep their origin,
    and each of them that the source has too gets a [NAMESPACE_CONFLICT]
    warning, in [for-in] order; the other names of the source are taken over
    with the source's origin; nothing else changes in the module. *)
Theorem export_star_merge (module a : addr) (source id : string) (m s : ModuleRec)
    (g : Graph) :
  heap g !! module = Some (OModule m) ->
  obj_get source (resolvedIds m) = Some id ->
  moduleById g !! id = Some a ->
  heap g !! a = Some (OModule s) ->
  a <> module ->
  NoDup (map fst (exportsAll s)) ->
  exists merged,
    fst (mergeExportAll H module source g) = Ok tt /\
    heap (snd (mergeExportAll H module source g)) =
      <[module := OModule (with_exportsAll (fun _ => merged) m)]> (heap g) /\
    (forall name, obj_get name merged =
       match obj_get name (exportsAll m) with
       | Some origin => Some origin
       | None => obj_get name (exportsAll s)
       end) /\
    log (snd (mergeExportAll H module source g)) =
      log g ++
      flat_map (fun e : string * string =>
                  match obj_get (fst e) (exportsAll m) with
                  | Some origin =>
                      [EffWarn (WNamespaceConflict (mod_id m) (fst e) [origin; snd e]
                                  (NAMESPACE_CONFLICT_message H (mod_id m) (fst e)
                                     origin (snd e)))]
                  | None => []
                  end)
               (obj_entries (exportsAll s)).
Proof.
  intros Hm Hid Ha Hs Hne Hnd.
  assert (Hmerge : mergeExportAll H module source g =
                   forEach (obj_entries (exportsAll s)) (mergeBody module) g).
  { unfold mergeExportAll.
    rewrite (bind_Ok _ _ g g m (getModule_run module m g Hm)). rewrite Hid.
    unfold bind at 1. unfold moduleById_get, gets. rewrite Ha.
    unfold bind at 1. unfold readObj, gets. by rewrite Hs. }
  destruct (merge_loop module m (obj_entries (exportsAll s))) with (cur := exportsAll m)
    (g := g) as (merged & g' & Hrun & Hheap & Hlog & Hget).
  - by rewrite (obj_entries_perm (exportsAll s)).
  - by destruct m.
  - exists merged. rewrite Hmerge, Hrun. simpl.
    split; [done|]. split; [done|]. split; [|done].
    intros name. rewrite Hget. destruct (obj_get name (exportsAll m)); [done|].
    symmetry. apply assoc_perm; [done|]. symmetry. apply obj_entries_perm.
Qed.

Lemma mergeExportAll_keeps (module : addr) (id source : string)
    (mine : list (string * string)) :
  triple (ownsExports module id mine) (fun _ => True) (mergeExportAll H module source)
    (fun _ _ => True).
Proof.
  unfold mergeExportAll.
  eapply triple_bind; [apply triple_getModule|]. intros m.
  eapply triple_bind with (R := fun _ _ => True).
  { destruct (obj_get source (resolvedIds m)).
    - eapply triple_conseq; [|apply triple_gets|]; done.
    - by apply triple_ret. }
  intros exportAllModule.
  eapply triple_bind with (R := fun _ _ => True).
  { destruct exportAllModule.
    - eapply triple_conseq; [|apply triple_readObj|]; done.
    - by apply triple_ret. }
  intros [[em|x]|]; [|by apply triple_ret|apply triple_throw].
  apply triple_forEach. intros [name origin] _.
  eapply triple_bind; [apply triple_getModule|]. intros m'.
  destruct (obj_get name (exportsAll m')) as [mine'|] eqn:Hname.
  - apply triple_emit. intros g (m0 & Hm0 & Hid & Hkeep) _. split; [|done].
    by exists m0.
  - apply triple_updModule. intros g m0 (m1 & Hm1 & Hid & Hkeep) [_ Hm'] Hm0.
    assert (m1 = m0) as -> by congruence. assert (m' = m0) as -> by congruence.
    split; [|done]. eexists. split.
    + cbn [heap with_heap]. apply list_lookup_insert_eq. by eapply lookup_lt_Some.
    + split; [done|]. intros n o Hn. cbn [exportsAll with_exportsAll].
      rewrite obj_get_set_ne; [by apply Hkeep|]. intros ->.
      apply Hkeep in Hn. congruence.
Qed.

(** When [fetchModule] completes a module, every name the module
    exports itself, other than [default], is in its [exportsAll] with the
    module's own id: no [export *] source shadows an own export, whether the
    handler returns or throws. *)
Theorem own_exports_win (module : addr) (m : ModuleRec) (g : Graph) (name : string) :
  heap g !! module = Some (OModule m) ->
  obj_has name (exports m) = true -> name <> "default" ->
  exists m', heap (snd (fetchModule_finish H module g)) !! module = Some (OModule m') /\
    obj_get name (exportsAll m') = Some (mod_id m).
Proof.
  intros Hm Hexp Hname. unfold fetchModule_finish.
  rewrite (bind_Ok _ _ g _ tt (updModule_run module _ m g Hm)).
  set (g1 := with_heap _ g).
  assert (Hown : ownsExports module (mod_id m) (ownExportsAll m) g1).
  { eexists. split.
    - cbn [g1 heap with_heap]. apply list_lookup_insert_eq. by eapply lookup_lt_Some.
    - done. }
  assert (Htriple : triple (ownsExports module (mod_id m) (ownExportsAll m))
            (fun _ => True)
            (let! m := getModule module in
             forEach (exportAllSources m) (mergeExportAll H module) >> ret module)
            (fun _ _ => True)).
  { eapply triple_bind with (R := fun _ _ => True).
    - eapply triple_conseq; [|apply triple_getModule|]; done.
    - intros m0. eapply triple_bind with (R := fun _ _ => True).
      + apply (triple_forEach _ (fun _ => True)).
        intros source _. apply mergeExportAll_keeps.
      + intros ?. by apply triple_ret. }
  destruct (Htriple g1 Hown I) as [(m' & Hm' & _ & Hkeep) _].
  exists m'. split; [done|]. apply Hkeep.
  rewrite ownExportsAll_get, Hexp. simpl.
  by destruct (String.eqb_spec name "default").
Qed.

End MergeFacts.

(** ** The theorems above on concrete inputs *)

Lemma manual_chunk_modules_loaded_witness :
  let ids := loadEntryModules_ids (EntryArray ["main.js"])
               (Some [("vendor", ["lib.js"; "main.js"])]) in
  exists loaded chunks,
    loadEntryModules_loaded demoHost (fun _ => "main.js") ids
      (Some [("vendor", ["lib.js"; "main.js"])]) [0; 1] = Ok loaded /\
    loaded_entryModules loaded = take (length (entryModuleIds ids)) [0; 1] /\
    length (loaded_entryModules loaded) = length (entryModuleIds ids) /\
    manualChunkModules loaded = Some chunks /\
    forall name chunk,
      obj_get name [("vendor", ["lib.js"; "main.js"])] = Some chunk ->
      name <> "__proto__" ->
      exists modules, obj_get name chunks = Some modules /\
        Forall2 (fun id module =>
                   exists i a, module = Some a /\
                     entryAndManualChunkIds ids !! i = Some id /\
                     (forall j, j < i -> entryAndManualChunkIds ids !! j <> Some id) /\
                     [0; 1] !! i = Some a)
                chunk modules.
Proof.
  apply (manual_chunk_modules_loaded demoHost (fun _ => "main.js") (EntryArray ["main.js"])
           [("vendor", ["lib.js"; "main.js"])] [0; 1]).
  reflexivity.
Defined.

Lemma dynamic_imports_become_entries_witness :
  exists added chunkAlias',
    build_entryPoints false [0; 1] ["main"; "other"] [2; 0; 2] ["lazy"; "main2"; "lazy2"] ∅
      = Ok ([0; 1] ++ added, chunkAlias', []) /\
    NoDup ([0; 1] ++ added) /\
    (forall a, a ∈ added <-> a ∈ [2; 0; 2] /\ a ∉ [0; 1]) /\
    (forall i m, [0; 1] !! i = Some m -> chunkAlias' !! m = ["main"; "other"] !! i) /\
    (forall a i, a ∈ added -> [2; 0; 2] !! i = Some a ->
       (forall j, j < i -> [2; 0; 2] !! j <> Some a) ->
       chunkAlias' !! a =
         match (∅ : gmap addr string) !! a with
         | Some alias =>
             if truthyString alias then Some alias
             else ["lazy"; "main2"; "lazy2"] !! i
         | None => ["lazy"; "main2"; "lazy2"] !! i
         end).
Proof.
  apply (dynamic_imports_become_entries [0; 1] ["main"; "other"] [2; 0; 2]
           ["lazy"; "main2"; "lazy2"] ∅).
  apply (bool_decide_unpack _). vm_compute. exact I.
Defined.

Lemma build_chunks_in_order_of_first_occurrence_witness :
  exists chunks,
    build_chunks demoHex (fun _ => false) false demoOrdered = Ok chunks /\
    Forall2 (fun chunk key =>
               Permutation (chunk_modules chunk) (withKey demoHex key demoOrdered))
            chunks
            (firstOccurrences (map (fun m => demoHex (entryPointsHash m)) demoOrdered)).
Proof.
  apply (build_chunks_in_order_of_first_occurrence demoHex (fun _ => false) demoOrdered).
  intros m [<-|[<-|[<-|[]]]]; split; reflexivity.
Defined.

Lemma includeMarked_fixed_point_witness :
  exists s' calls,
    (forall fuel, S (size (({[0; 1; 2; 3]} : gset nat) ∖ ∅)) <= fuel ->
       includeMarked demoInclude (fun _ s => s) true fuel [0; 1; 2] ∅ = Some (s', calls)) /\
    ∅ ⊆ s' /\ s' ⊆ {[0; 1; 2; 3]} /\
    forall m, m ∈ [0; 1; 2] -> demoInclude m s' = (s', false).
Proof.
  apply (includeMarked_fixed_point demoInclude (fun _ s => s) {[0; 1; 2; 3]} [0; 1; 2] ∅
           demoInclude_grows demoInclude_reports).
  apply empty_subseteq.
Defined.

Lemma export_star_merge_witness :
  exists merged,
    fst (mergeExportAll demoHost 0 "./dep" demoMergeGraph) = Ok tt /\
    heap (snd (mergeExportAll demoHost 0 "./dep" demoMergeGraph)) =
      <[0 := OModule (with_exportsAll (fun _ => merged) demoReexporter)]>
        (heap demoMergeGraph) /\
    (forall name, obj_get name merged =
       match obj_get name (exportsAll demoReexporter) with
       | Some origin => Some origin
       | None => obj_get name (exportsAll demoReexported)
       end) /\
    log (snd (mergeExportAll demoHost 0 "./dep" demoMergeGraph)) =
      log demoMergeGraph ++
      flat_map (fun e : string * string =>
                  match obj_get (fst e) (exportsAll demoReexporter) with
                  | Some origin =>
                      [EffWarn (WNamespaceConflict (mod_id demoReexporter) (fst e)
                                  [origin; snd e]
                                  (NAMESPACE_CONFLICT_message demoHost
                                     (mod_id demoReexporter) (fst e) origin (snd e)))]
                  | None => []
                  end)
               (obj_entries (exportsAll demoReexported)).
Proof.
  apply (export_star_merge demoHost 0 1 "./dep" "dep.js" demoReexporter demoReexported
           demoMergeGraph).
  - reflexivity.
  - reflexivity.
  - vm_compute. reflexivity.
  - reflexivity.
  - lia.
  - apply (bool_decide_unpack _). vm_compute. exact I.
Defined.

Lemma own_exports_win_witness :
  exists m', heap (snd (fetchModule_finish demoHost 0 demoMergeGraph)) !! 0
             = Some (OModule m') /\
    obj_get "x" (exportsAll m') = Some (mod_id demoReexporter).
Proof.
  apply (own_exports_win demoHost 0 demoReexporter demoMergeGraph "x").
  - reflexivity.
  - reflexivity.
  - discriminate.
Defined.

(** ** Quiet steps *)

Section QuietSteps.

Variable H : Host.

Lemma heap_ext_refl (h : list Obj) : heap_ext h h.
Proof. intros a o Ho. by exists o. Qed.

Lemma heap_ext_trans (h1 h2 h3 : list Obj) :
  heap_ext h1 h2 -> heap_ext h2 h3 -> heap_ext h1 h3.
Proof.
  intros H12 H23 a o Ho. destruct (H12 a o Ho) as (o' & Ho' & Hk & Hi).
  destruct (H23 a o' Ho') as (o'' & Ho'' & Hk' & Hi').
  exists o''. split; [done|]. split; congruence.
Qed.

Lemma heap_ext_alloc (h : list Obj) (o : Obj) : heap_ext h (h ++ [o]).
Proof. intros a o' Ho'. exists o'. split; [by apply lookup_app_l_Some|done]. Qed.

Lemma heap_ext_update (h : list Obj) (a : addr) (o o' : Obj) :
  h !! a = Some o -> obj_isExternal o' = obj_isExternal o -> obj_id o' = obj_id o ->
  heap_ext h (<[a := o']> h).
Proof.
  intros Ho Hk Hi b ob Hb. destruct (decide (b = a)) as [->|Hne].
  - exists o'. rewrite list_lookup_insert_eq by (by eapply lookup_lt_Some).
    split; [done|]. split; congruence.
  - exists ob. by rewrite list_lookup_insert_ne.
Qed.

Lemma heap_ext_module (h h' : list Obj) (a : addr) (id : string) :
  heap_ext h h' ->
  (exists m, h !! a = Some (OModule m) /\ mod_id m = id) ->
  exists m', h' !! a = Some (OModule m') /\ mod_id m' = id.
Proof.
  intros Hext (m & Hm & Hid). destruct (Hext a _ Hm) as (o' & Ho' & Hk & Hi).
  destruct o' as [m'|x]; [|done]. exists m'. split; [done|]. simpl in Hi. congruence.
Qed.

Lemma heap_ext_external (h h' : list Obj) (a : addr) (x : ExternalRec) :
  heap_ext h h' -> h !! a = Some (OExternal x) ->
  exists x', h' !! a = Some (OExternal x') /\ ext_id x' = ext_id x.
Proof.
  intros Hext Hx. destruct (Hext a _ Hx) as (o' & Ho' & Hk & Hi).
  destruct o' as [m'|x']; [done|]. by exists x'.
Qed.

Lemma qstep_refl (g : Graph) : qstep H g g.
Proof.
  split; try done; [|apply heap_ext_refl].
  exists []. by rewrite app_nil_r.
Qed.

Lemma qstep_trans (g1 g2 g3 : Graph) : qstep H g1 g2 -> qstep H g2 g3 -> qstep H g1 g3.
Proof.
  intros [Hm Hw Hmod Hx (evs & Hl & Hs) Hh] [Hm' Hw' Hmod' Hx' (evs' & Hl' & Hs') Hh'].
  split; try congruence.
  - exists (evs ++ evs'). split; [by rewrite Hl', Hl, app_assoc|by apply Forall_app].
  - by eapply heap_ext_trans.
Qed.

Lemma quiet_ret {A} (a : A) : quiet H (ret a).
Proof. intros g. apply qstep_refl. Qed.

Lemma quiet_throw {A} (e : Err) : quiet H (@throw A e).
Proof. intros g. apply qstep_refl. Qed.

Lemma quiet_gets {A} (f : Graph -> A) : quiet H (gets f).
Proof. intros g. apply qstep_refl. Qed.

Lemma quiet_bind {A B} (c : M A) (k : A -> M B) :
  quiet H c -> (forall a, quiet H (k a)) -> quiet H (bind c k).
Proof.
  intros Hc Hk g. specialize (Hc g). unfold bind.
  destruct (c g) as [[a|e] g']; simpl in *; [|done].
  eapply qstep_trans; [exact Hc|apply Hk].
Qed.

Lemma quiet_when (b : bool) (c : M unit) : quiet H c -> quiet H (when b c).
Proof. destruct b; [done|]. intros _. apply quiet_ret. Qed.

Lemma quiet_forEach {A} (l : list A) (body : A -> M unit) :
  (forall x, quiet H (body x)) -> quiet H (forEach l body).
Proof.
  intros Hbody. induction l as [|x l IH]; simpl; [apply quiet_ret|].
  apply quiet_bind; [apply Hbody|by intros _].
Qed.

Lemma quiet_emit (e : Effect) : silent H e -> quiet H (emit e).
Proof.
  intros He g. split; try done; [|apply heap_ext_refl].
  exists [e]. split; [done|]. by constructor.
Qed.

Lemma quiet_alloc (o : Obj) : quiet H (alloc o).
Proof.
  intros g. split; try done; [|apply heap_ext_alloc].
  exists []. by rewrite app_nil_r.
Qed.

Lemma quiet_update (a : addr) (o o' : Obj) (g : Graph) :
  heap g !! a = Some o -> obj_isExternal o' = obj_isExternal o -> obj_id o' = obj_id o ->
  qstep H g (with_heap (fun h => <[a := o']> h) g).
Proof.
  intros Ho Hk Hi. split; try done; [|by eapply heap_ext_update].
  exists []. by rewrite app_nil_r.
Qed.

Lemma quiet_readObj (a : addr) : quiet H (readObj a).
Proof. apply quiet_gets. Qed.

Lemma quiet_getModule (a : addr) : quiet H (getModule a).
Proof.
  unfold getModule. apply quiet_bind; [apply quiet_readObj|].
  intros [[m|x]|]; first [apply quiet_ret|apply quiet_throw].
Qed.

Lemma quiet_updModule (a : addr) (f : ModuleRec -> ModuleRec) :
  (forall m, mod_id (f m) = mod_id m) -> quiet H (updModule a f).
Proof.
  intros Hf g. unfold updModule, bind, getModule, bind, readObj, gets, modify.
  destruct (heap g !! a) as [[m|x]|] eqn:Ha; simpl; try apply qstep_refl.
  apply (quiet_update a (OModule m)); [done|done|apply Hf].
Qed.

Lemma quiet_traceExport (e : addr) (name : string) : quiet H (traceExport e name).
Proof.
  intros g. unfold traceExport, bind, readObj, gets, modify.
  destruct (heap g !! e) as [[m|x]|] eqn:He; simpl; try apply qstep_refl.
  by apply (quiet_update e (OExternal x)).
Qed.

Lemma quiet_set_exportsNamespace (a : addr) : quiet H (set_exportsNamespace a).
Proof.
  intros g. unfold set_exportsNamespace, bind, readObj, gets, modify.
  destruct (heap g !! a) as [[m|x]|] eqn:Ha; simpl; try apply qstep_refl.
  - by apply (quiet_update a (OModule m)).
  - by apply (quiet_update a (OExternal x)).
Qed.

Lemma quiet_warn (w : Warning) : quiet H (warn w).
Proof. by apply quiet_emit. Qed.

Lemma quiet_emitAsset (name source : string) : quiet H (emitAsset name source).
Proof. by apply quiet_emit. Qed.

Lemma quiet_traceImports (e : addr) (source : string)
    (declarations : list (string * ImportDescription)) :
  quiet H (traceImports e source declarations).
Proof.
  induction declarations as [|[name d] rest IH]; simpl; [apply quiet_ret|].
  destruct (negb _); [apply quiet_ret|].
  apply quiet_bind; [apply quiet_traceExport|by intros _].
Qed.

Lemma quiet_fetchAllDependencies (module : addr) : quiet H (fetchAllDependencies module).
Proof.
  unfold fetchAllDependencies. apply quiet_bind; [apply quiet_getModule|]. intros m.
  apply quiet_bind; [|intros _; apply quiet_ret].
  apply quiet_forEach. intros expr. by apply quiet_emit.
Qed.

Lemma quiet_resolve (module : addr) (source : string) :
  quiet H (fetchAllDependencies_resolve H module source).
Proof.
  unfold fetchAllDependencies_resolve.
  apply quiet_bind; [apply quiet_getModule|]. intros m.
  destruct (match obj_get source (resolvedIds m) with Some _ => _ | None => _ end);
    [apply quiet_ret|].
  destruct (isExternal H source (mod_id m) false) eqn:Hext; [apply quiet_ret|].
  apply quiet_bind; [by apply quiet_emit|intros _; apply quiet_ret].
Qed.

Lemma quiet_mergeExportAll (module : addr) (source : string) :
  quiet H (mergeExportAll H module source).
Proof.
  unfold mergeExportAll. apply quiet_bind; [apply quiet_getModule|]. intros m.
  apply quiet_bind.
  { destruct (obj_get source (resolvedIds m)); [apply quiet_gets|apply quiet_ret]. }
  intros exportAllModule. apply quiet_bind.
  { destruct exportAllModule; [apply quiet_readObj|apply quiet_ret]. }
  intros [[em|x]|]; [|apply quiet_ret|apply quiet_throw].
  apply quiet_forEach. intros [name origin].
  apply quiet_bind; [apply quiet_getModule|]. intros m'.
  destruct (obj_get name (exportsAll m')); [apply quiet_warn|].
  by apply quiet_updModule.
Qed.

Lemma quiet_finish (module : addr) : quiet H (fetchModule_finish H module).
Proof.
  unfold fetchModule_finish. apply quiet_bind; [by apply quiet_updModule|]. intros _.
  apply quiet_bind; [apply quiet_getModule|]. intros m.
  apply quiet_bind; [|intros _; apply quiet_ret].
  apply quiet_forEach. intros source. apply quiet_mergeExportAll.
Qed.

Lemma quiet_dynamicFetched (module : addr) (index : nat) (alias : string)
    (depModule : addr) :
  quiet H (fetchAllDependencies_dynamicFetched module index alias depModule).
Proof. by apply quiet_updModule. Qed.

(** ** What a quiet step keeps *)

Lemma silent_not_load (evs : list Effect) (id : string) :
  Forall (silent H) evs -> EffHook (HookLoad id) ∉ evs.
Proof. intros Hs Hin. rewrite Forall_forall in Hs. by apply Hs in Hin. Qed.

Lemma silent_not_transform (evs : list Effect) (id : string) :
  Forall (silent H) evs -> EffTransform id ∉ evs.
Proof. intros Hs Hin. rewrite Forall_forall in Hs. by apply Hs in Hin. Qed.

Lemma lookup_app_old {X} (l evs : list X) (i : nat) (x : X) :
  (l ++ evs) !! i = Some x -> x ∉ evs -> l !! i = Some x.
Proof.
  intros Hi Hx. apply lookup_app_Some in Hi as [Hi|[_ Hi]]; [done|].
  destruct Hx. by eapply list_elem_of_lookup_2.
Qed.

Lemma elem_app_old {X} (l evs : list X) (x : X) : x ∈ l ++ evs -> x ∉ evs -> x ∈ l.
Proof. intros [?|?]%elem_of_app ?; done. Qed.

Lemma graph_wf_qstep (g g' : Graph) : qstep H g g' -> graph_wf H g -> graph_wf H g'.
Proof.
  intros [Hm Hw Hmod Hx (evs & Hl & Hs) Hh] Hwf. split.
  - intros id. rewrite Hw, Hl. intros Hid. apply elem_of_app. left.
    by apply (wf_watched H g Hwf).
  - intros id. rewrite Hl, Hm. intros Hid.
    apply elem_app_old in Hid; [|by apply silent_not_load].
    destruct (wf_loaded H g Hwf id Hid) as (a & Ha & Hmod').
    exists a. split; [done|]. by eapply heap_ext_module.
  - intros a. rewrite Hmod, Hm. intros Ha.
    destruct (wf_modules H g Hwf a Ha) as (m & Hma & Hreg).
    destruct (heap_ext_module _ _ a (mod_id m) Hh) as (m' & Hm' & Hid); [by exists m|].
    exists m'. split; [done|]. by rewrite Hid.
  - rewrite Hmod. apply (wf_modules_NoDup H g Hwf).
  - intros a. rewrite Hx, Hm. intros Ha.
    destruct (wf_externalModules H g Hwf a Ha) as (x & Hxa & Hreg).
    destruct (heap_ext_external _ _ a x Hh Hxa) as (x' & Hx' & Hid).
    exists x'. split; [done|]. by rewrite Hid.
  - intros i j a a' x x'. rewrite Hx. intros Hi Hj Ha Ha' Hid.
    destruct (wf_externalModules H g Hwf a) as (x0 & Hx0 & _);
      [by eapply list_elem_of_lookup_2|].
    destruct (wf_externalModules H g Hwf a') as (x0' & Hx0' & _);
      [by eapply list_elem_of_lookup_2|].
    destruct (heap_ext_external _ _ a x0 Hh Hx0) as (x1 & Hx1 & Hid1).
    destruct (heap_ext_external _ _ a' x0' Hh Hx0') as (x1' & Hx1' & Hid1').
    apply (wf_external_ids H g Hwf i j a a' x0 x0' Hi Hj Hx0 Hx0'). congruence.
  - intros id. rewrite Hl. intros Hid.
    apply elem_app_old in Hid; [|by apply silent_not_transform].
    apply elem_of_app. left. by apply (wf_transform_loaded H g Hwf).
  - intros i j id. rewrite Hl. intros Hi Hj.
    apply lookup_app_old in Hi; [|by apply silent_not_transform].
    apply lookup_app_old in Hj; [|by apply silent_not_transform].
    by apply (wf_transform_once H g Hwf i j id).
  - intros source importer. rewrite Hl. intros [Hin|Hin]%elem_of_app.
    + by apply (wf_resolveId H g Hwf).
    + rewrite Forall_forall in Hs. by apply Hs in Hin.
Qed.

Lemma gstep_refl (g : Graph) : gstep g g.
Proof. split; try done. apply heap_ext_refl. Qed.

Lemma gstep_trans (g1 g2 g3 : Graph) : gstep g1 g2 -> gstep g2 g3 -> gstep g1 g3.
Proof.
  intros [Hm Hh Hmod Ht Hl] [Hm' Hh' Hmod' Ht' Hl']. split.
  - by etrans.
  - by eapply heap_ext_trans.
  - congruence.
  - auto.
  - auto.
Qed.

Lemma qstep_gstep (g g' : Graph) : qstep H g g' -> gstep g g'.
Proof.
  intros [Hm Hw Hmod Hx (evs & Hl & Hs) Hh]. split; try done.
  - by rewrite Hm.
  - intros id. rewrite Hl. intros Hid.
    by apply elem_app_old in Hid; [|apply silent_not_transform].
  - intros id Hid. rewrite Hl. apply elem_of_app. by left.
Qed.

Lemma task_wf_gstep (g g' : Graph) (t : Task) :
  gstep g g' -> task_wf g t -> task_wf g' t.
Proof.
  intros [Hm Hh Hmod Ht Hl].
  assert (Hstage : forall id module,
    moduleById g !! id = Some module /\ isModuleAt g module id /\
    EffHook (HookLoad id) ∈ log g /\ (module ∉ modules g) ->
    moduleById g' !! id = Some module /\ isModuleAt g' module id /\
    EffHook (HookLoad id) ∈ log g' /\ (module ∉ modules g')).
  { intros id module (Hreg & Hmod' & Hload & Hnot).
    split; [by eapply lookup_weaken|]. split; [by eapply heap_ext_module|].
    split; [by apply Hl|]. by rewrite Hmod. }
  assert (Hmodule : forall a, (exists m, heap g !! a = Some (OModule m)) ->
                              exists m, heap g' !! a = Some (OModule m)).
  { intros a [m Hma].
    destruct (heap_ext_module _ _ a (mod_id m) Hh) as (m' & Hm' & _); [by exists m|].
    by exists m'. }
  destruct t; simpl; try done; try (by apply Hmodule).
  - intros (? & ? & ? & ? & Hnt). destruct (Hstage id module) as (? & ? & ? & ?); [done|].
    repeat split; try done. intros Hin. by apply Hnt, Ht.
  - intros (? & ? & ? & ? & Hnt). destruct (Hstage id module) as (? & ? & ? & ?); [done|].
    repeat split; try done. intros Hin. by apply Hnt, Ht.
  - intros (? & ? & ? & ?). by apply Hstage.
  - intros (? & ? & ? & ?). by apply Hstage.
Qed.

Lemma since_qstep (g0 g g' : Graph) : since H g0 g -> qstep H g g' -> since H g0 g'.
Proof.
  intros [Hwf Hstep] Hq. split; [by eapply graph_wf_qstep|].
  eapply gstep_trans; [done|by apply qstep_gstep].
Qed.

Lemma triple_quiet {A B} (g0 : Graph) (P : Graph -> Prop) (c : M A) (k : A -> M B)
    (Q : B -> Graph -> Prop) :
  quiet H c -> (forall a, triple (since H g0) (fun _ => True) (k a) Q) ->
  triple (since H g0) P (bind c k) Q.
Proof.
  intros Hc Hk g HI _. pose proof (since_qstep g0 g _ HI (Hc g)) as HI'. unfold bind.
  destruct (c g) as [[a|e] g']; simpl in *; [|by split].
  by apply (Hk a g' HI').
Qed.

Lemma triple_quiet_end {A} (g0 : Graph) (P : Graph -> Prop) (c : M A) :
  quiet H c -> triple (since H g0) P c (fun _ _ => True).
Proof. intros Hc g HI _. split; [|done]. by apply (since_qstep g0 g). Qed.

End QuietSteps.

(** ** Steps that change the tables *)

Section TableSteps.

Variable H : Host.

(** A step that extends the registry, the heap and the log keeps the
    graph in order if what it adds is in order. *)
Lemma graph_wf_extend (g g' : Graph) (evs : list Effect) :
  graph_wf H g ->
  moduleById g ⊆ moduleById g' -> heap_ext (heap g) (heap g') ->
  log g' = log g ++ evs ->
  (forall id, id ∈ watchFiles g' -> id ∈ watchFiles g \/ EffHook (HookLoad id) ∈ evs) ->
  (forall id, EffHook (HookLoad id) ∈ evs ->
     exists a, moduleById g' !! id = Some a /\ isModuleAt g' a id) ->
  (forall a, a ∈ modules g' -> a ∈ modules g \/
     exists m, heap g' !! a = Some (OModule m) /\ moduleById g' !! mod_id m = Some a) ->
  NoDup (modules g') ->
  (externalModules g' = externalModules g \/
   exists a x, externalModules g' = externalModules g ++ [a] /\
     heap g' !! a = Some (OExternal x) /\ is_Some (moduleById g' !! ext_id x) /\
     moduleById g !! ext_id x = None /\ heap g !! a = None) ->
  (forall id, EffTransform id ∈ evs ->
     EffHook (HookLoad id) ∈ log g /\ EffTransform id ∉ log g) ->
  (forall i j id id', evs !! i = Some (EffTransform id) ->
     evs !! j = Some (EffTransform id') -> i = j) ->
  (forall source importer, EffHook (HookResolveId source (Some importer)) ∈ evs ->
     isExternal H source importer false = false) ->
  graph_wf H g'.
Proof.
  intros Hwf Hm Hh Hl Hwatch Hload Hmods Hnd Hext Htl Hto Hres.
  assert (Hext_old : forall a, a ∈ externalModules g ->
            exists x, heap g' !! a = Some (OExternal x) /\
              is_Some (moduleById g' !! ext_id x) /\
              is_Some (moduleById g !! ext_id x) /\ is_Some (heap g !! a)).
  { intros a Ha. destruct (wf_externalModules H g Hwf a Ha) as (x & Hx & [t Ht]).
    destruct (heap_ext_external _ _ a x Hh Hx) as (x' & Hx' & Hid).
    exists x'. rewrite Hid. split; [done|]. split; [|split; by eexists].
    exists t. by eapply lookup_weaken. }
  split.
  - intros id Hid. rewrite Hl. apply elem_of_app.
    destruct (Hwatch id Hid) as [Hold|Hnew]; [left|by right].
    by apply (wf_watched H g Hwf).
  - intros id. rewrite Hl. intros [Hold|Hnew]%elem_of_app; [|by apply Hload].
    destruct (wf_loaded H g Hwf id Hold) as (a & Ha & Hmod).
    exists a. split; [by eapply lookup_weaken|]. by eapply heap_ext_module.
  - intros a Ha. destruct (Hmods a Ha) as [Hold|Hnew]; [|done].
    destruct (wf_modules H g Hwf a Hold) as (m & Hma & Hreg).
    destruct (heap_ext_module _ _ a (mod_id m) Hh) as (m' & Hm' & Hid); [by exists m|].
    exists m'. split; [done|]. rewrite Hid. by eapply lookup_weaken.
  - done.
  - intros a Ha. destruct Hext as [Heq|(a' & x & Heq & Hx & Hreg & _)].
    + rewrite Heq in Ha. destruct (Hext_old a Ha) as (x & ? & ? & _). by exists x.
    + rewrite Heq in Ha. apply elem_of_app in Ha as [Ha| ->%list_elem_of_singleton].
      * destruct (Hext_old a Ha) as (x0 & ? & ? & _). by exists x0.
      * by exists x.
  - assert (Hold : forall i j a a' x x',
      externalModules g !! i = Some a -> externalModules g !! j = Some a' ->
      heap g' !! a = Some (OExternal x) -> heap g' !! a' = Some (OExternal x') ->
      ext_id x = ext_id x' -> i = j).
    { intros i j a a' x x' Hi Hj Ha Ha' Hid.
      destruct (wf_externalModules H g Hwf a) as (x0 & Hx0 & _);
        [by eapply list_elem_of_lookup_2|].
      destruct (wf_externalModules H g Hwf a') as (x0' & Hx0' & _);
        [by eapply list_elem_of_lookup_2|].
      destruct (heap_ext_external _ _ a x0 Hh Hx0) as (x1 & Hx1 & Hid1).
      destruct (heap_ext_external _ _ a' x0' Hh Hx0') as (x1' & Hx1' & Hid1').
      apply (wf_external_ids H g Hwf i j a a' x0 x0' Hi Hj Hx0 Hx0'). congruence. }
    destruct Hext as [Heq|(an & xn & Heq & Hxn & _ & Hfresh & Hnew)]; rewrite Heq.
    + exact Hold.
    + assert (Hclash : forall i a x, externalModules g !! i = Some a ->
                heap g' !! a = Some (OExternal x) -> ext_id x <> ext_id xn).
      { intros i a x Hi Ha Hid.
        destruct (Hext_old a) as (x0 & Hx0 & _ & [t Ht] & _);
          [by eapply list_elem_of_lookup_2|].
        assert (x0 = x) as -> by congruence. rewrite Hid in Ht. congruence. }
      intros i j a a' x x' Hi Hj Ha Ha' Hid.
      apply lookup_snoc_Some in Hi as [[_ Hi]|[Hi <-]];
        apply lookup_snoc_Some in Hj as [[_ Hj]|[Hj <-]].
      * by eapply Hold.
      * assert (x' = xn) as -> by congruence. by destruct (Hclash i a x Hi Ha).
      * assert (x = xn) as -> by congruence. by destruct (Hclash j a' x' Hj Ha').
      * congruence.
  - intros id. rewrite Hl. intros [Hold|Hnew]%elem_of_app; apply elem_of_app; left.
    + by apply (wf_transform_loaded H g Hwf).
    + by apply Htl.
  - intros i j id. rewrite Hl. intros Hi Hj.
    apply lookup_app_Some in Hi as [Hi|[Hi Hi']];
      apply lookup_app_Some in Hj as [Hj|[Hj Hj']].
    + by apply (wf_transform_once H g Hwf i j id).
    + destruct (Htl id) as [_ Hnot]; [by eapply list_elem_of_lookup_2|].
      destruct Hnot. by eapply list_elem_of_lookup_2.
    + destruct (Htl id) as [_ Hnot]; [by eapply list_elem_of_lookup_2|].
      destruct Hnot. by eapply list_elem_of_lookup_2.
    + pose proof (Hto _ _ _ _ Hi' Hj'). lia.
  - intros source importer. rewrite Hl. intros [Hold|Hnew]%elem_of_app.
    + by apply (wf_resolveId H g Hwf).
    + by apply Hres.
Qed.

Lemma modules_allocated (g : Graph) (a : addr) :
  graph_wf H g -> a ∈ modules g -> a < length (heap g).
Proof.
  intros Hwf Ha. destruct (wf_modules H g Hwf a Ha) as (m & Hm & _).
  by eapply lookup_lt_Some.
Qed.

Lemma transform_registered (g : Graph) (id : string) :
  graph_wf H g -> EffTransform id ∈ log g -> is_Some (moduleById g !! id).
Proof.
  intros Hwf Hin. apply (wf_transform_loaded H g Hwf) in Hin.
  destruct (wf_loaded H g Hwf id Hin) as (a & Ha & _). by exists a.
Qed.

(** [fetchModule] for an id that is not registered. *)
Lemma fetchModule_new (g0 g : Graph) (id : string) (importer : option string) :
  since H g0 g -> moduleById g !! id = None ->
  since H g0 (snd (fetchModule id importer g)) /\
  fetch_ok g0 (Loading id importer (length (heap g))) (snd (fetchModule id importer g)).
Proof.
  intros [Hwf Hstep] Hnone. rewrite (fetchModule_first id importer g Hnone). simpl.
  set (g' := with_log _ _).
  assert (Hmod : isModuleAt g' (length (heap g)) id).
  { exists (newModule id). split; [|done]. cbn. by rewrite lookup_app_r, Nat.sub_diag. }
  assert (Hreg : moduleById g' !! id = Some (length (heap g))).
  { cbn. apply lookup_insert_eq. }
  assert (Hsub : moduleById g ⊆ moduleById g') by (by apply insert_subseteq).
  assert (Hheap : heap_ext (heap g) (heap g')) by apply heap_ext_alloc.
  assert (Hwf' : graph_wf H g').
  { apply (graph_wf_extend g g' [EffSetModule id (length (heap g)); EffWatch id;
                                 EffHook (HookLoad id)]); try done.
    - cbn. intros id' [->%elem_of_singleton|?]%elem_of_union; [right|by left].
      set_solver.
    - intros id' Hid'. assert (id' = id) as -> by set_solver. by eexists.
    - intros a Ha. by left.
    - apply (wf_modules_NoDup H g Hwf).
    - by left.
    - intros id' Hin. set_solver.
    - intros i j id1 id2 Hi _. apply list_elem_of_lookup_2 in Hi. set_solver.
    - intros source importer' Hin. set_solver. }
  split; [split; [done|]|].
  - eapply gstep_trans; [done|]. split; try done.
    + cbn. intros id' Hin. apply elem_of_app in Hin as [?|?]; [done|set_solver].
    + cbn. intros id' Hin. apply elem_of_app. by left.
  - split; [by eapply lookup_weaken_None; [|apply (s_moduleById _ _ Hstep)]|].
    simpl. split; [done|]. split; [done|]. split; [cbn; set_solver|]. split.
    + cbn. intros Hin. apply (modules_allocated g) in Hin; [lia|done].
    + cbn. intros [Hin|Hin]%elem_of_app; [|set_solver].
      destruct (transform_registered g id Hwf Hin) as [a Ha]. congruence.
Qed.

Lemma fetchModule_triple (g0 : Graph) (id : string) (importer : option string) :
  triple (since H g0) (fun _ => True) (fetchModule id importer) (fetch_ok g0).
Proof.
  intros g HI _. destruct (moduleById g !! id) as [a|] eqn:Hid.
  - destruct (heap g !! a) as [o|] eqn:Ha.
    + destruct (obj_isExternal o) eqn:Hkind.
      * rewrite (fetchModule_external id importer g a o Hid Ha Hkind). by split.
      * rewrite (fetchModule_again id importer g a o Hid Ha Hkind). split; [done|].
        intros f [= <-]. destruct o as [m|x]; [|done]. by exists m.
    + assert (Hrun : fetchModule id importer g = (Throw ErrType, g)).
      { unfold fetchModule.
        rewrite (bind_Ok _ _ g g (Some a)) by (unfold moduleById_get, gets; by rewrite Hid).
        by rewrite (bind_Ok _ _ g g None) by (unfold readObj, gets; by rewrite Ha). }
      rewrite Hrun. by split.
  - destruct (fetchModule_new g0 g id importer HI Hid) as [HI' Hok].
    rewrite (fetchModule_first id importer g Hid) in HI', Hok |- *.
    split; [done|]. by intros f [= <-].
Qed.

Lemma loadModule_resolved_triple (g0 : Graph) (entryName : string) (id : ResolveIdResult) :
  triple (since H g0) (fun _ => True) (loadModule_resolved entryName id) (fetch_ok g0).
Proof.
  destruct id; simpl; [apply fetchModule_triple|apply triple_throw..].
Qed.

(** The state after [new ExternalModule], [externalModules.push] and
    [moduleById.set(id, target)], for the object [target] that ends up
    registered. *)
Lemma since_registered (g0 g : Graph) (id : string) (target : addr) :
  since H g0 g -> moduleById g !! id = None ->
  since H g0
    (with_log (fun l => l ++ [EffSetModule id target])
       (with_moduleById (fun m => <[id := target]> m)
          (with_externalModules (fun l => l ++ [length (heap g)])
             (with_heap (fun h => h ++ [OExternal (newExternalModule id)]) g)))).
Proof.
  intros [Hwf Hstep] Hnone. set (g' := with_log _ _).
  assert (Hsub : moduleById g ⊆ moduleById g') by (by apply insert_subseteq).
  assert (Hheap : heap_ext (heap g) (heap g')) by apply heap_ext_alloc.
  split.
  - apply (graph_wf_extend g _ [EffSetModule id target]); try done.
    + intros id' Hid'. by left.
    + intros id' Hin. set_solver.
    + intros a Ha. by left.
    + apply (wf_modules_NoDup H g Hwf).
    + right. exists (length (heap g)), (newExternalModule id). split; [done|].
      split; [cbn; by rewrite lookup_app_r, Nat.sub_diag|].
      split; [cbn; rewrite lookup_insert_eq; by eexists|].
      split; [done|]. by apply lookup_ge_None_2.
    + intros id' Hin. set_solver.
    + intros i j id1 id2 Hi _. apply list_elem_of_lookup_2 in Hi. set_solver.
    + intros source importer' Hin. set_solver.
  - eapply gstep_trans; [done|]. split; try done.
    + cbn. intros id' Hin. apply elem_of_app in Hin as [?|?]; [done|set_solver].
    + cbn. intros id' Hin. apply elem_of_app. by left.
Qed.

Lemma register_static_triple (g0 : Graph) (id : string) :
  triple (since H g0) (fun g => moduleById g !! id = None)
    (let! module := alloc (OExternal (newExternalModule id)) in
     externalModules_push module >> moduleById_set id module)
    (fun _ _ => True).
Proof.
  intros g HI Hnone. split; [|done].
  apply (since_registered g0 g id (length (heap g)) HI Hnone).
Qed.

Lemma register_dynamic_triple (g0 : Graph) (id : string) (module : addr) :
  triple (since H g0) (fun g => moduleById g !! id = None)
    (let! externalModule := alloc (OExternal (newExternalModule id)) in
     externalModules_push externalModule >>
     moduleById_set id module >>
     ret (Some externalModule))
    (fun _ _ => True).
Proof.
  intros g HI Hnone. split; [|done].
  apply (since_registered g0 g id module HI Hnone).
Qed.

Lemma resolved_triple (g0 : Graph) (module : addr) (source : string)
    (resolvedId : ResolveIdResult) :
  triple (since H g0) (fun _ => True)
    (fetchAllDependencies_resolved H module source resolvedId)
    (fun d g => match d with StaticFetch f => fetch_ok g0 f g | StaticExternal => True end).
Proof.
  unfold fetchAllDependencies_resolved.
  apply triple_quiet; [apply quiet_getModule|]. intros m.
  apply triple_quiet.
  { destruct (negb (ridTruthy resolvedId) && negb _); [|apply quiet_ret].
    apply quiet_bind; [apply quiet_when, quiet_throw|]. intros _.
    apply quiet_bind; [apply quiet_when, quiet_warn|]. intros _. apply quiet_ret. }
  intros [|].
  - apply triple_quiet; [by apply quiet_updModule|]. intros _.
    eapply triple_bind; [apply triple_gets|]. intros has. cbv beta.
    eapply triple_bind with (R := fun _ _ => True).
    { destruct has; simpl.
      - by apply triple_ret.
      - eapply triple_conseq; [|apply register_static_triple|done].
        intros g _ [_ Hhas]. symmetry in Hhas. apply bool_decide_eq_false in Hhas.
        by apply eq_None_not_Some. }
    intros _. apply triple_quiet; [apply quiet_gets|]. intros externalModule.
    apply triple_quiet.
    { destruct externalModule; [apply quiet_readObj|apply quiet_ret]. }
    intros o.
    destruct externalModule as [e|], o as [[?|?]|]; try apply triple_throw.
    apply triple_quiet; [apply quiet_getModule|]. intros m'.
    apply triple_quiet; [apply quiet_traceImports|]. intros _. by apply triple_ret.
  - apply triple_quiet; [by apply quiet_updModule|]. intros _.
    eapply triple_bind; [apply fetchModule_triple|]. intros f.
    apply triple_ret. by intros g _ Hf.
Qed.

Lemma dynamic_triple (g0 : Graph) (module : addr) (index : nat)
    (expr : DynamicImportExpression) (replacement : option string) :
  triple (since H g0) (fun _ => True)
    (fetchAllDependencies_dynamic H module index expr replacement)
    (fun d g => match d with DynamicFetch _ f => fetch_ok g0 f g | DynamicRecorded => True end).
Proof.
  unfold fetchAllDependencies_dynamic.
  apply triple_quiet; [apply quiet_getModule|]. intros m.
  destruct (negb _).
  { apply triple_quiet; [by apply quiet_updModule|]. intros _. by apply triple_ret. }
  destruct expr as [s|node].
  2:{ apply triple_quiet; [by apply quiet_updModule|]. intros _. by apply triple_ret. }
  destruct (isExternal H _ _ _).
  - eapply triple_bind; [apply triple_gets|]. intros has. cbv beta.
    eapply triple_bind with (R := fun _ _ => True).
    { destruct has; simpl.
      - eapply triple_conseq; [|apply triple_gets|]; done.
      - eapply triple_conseq; [|apply register_dynamic_triple|done].
        intros g _ [_ Hhas]. symmetry in Hhas. apply bool_decide_eq_false in Hhas.
        by apply eq_None_not_Some. }
    intros [externalModule|]; [|apply triple_throw].
    apply triple_quiet; [by apply quiet_updModule|]. intros _.
    apply triple_quiet; [apply quiet_set_exportsNamespace|]. intros _.
    by apply triple_ret.
  - eapply triple_bind; [apply fetchModule_triple|]. intros f.
    apply triple_ret. by intros g _ Hf.
Qed.

End TableSteps.

(** ** The invariants over the steps of a build *)

Section BuildSteps.

Variable H : Host.

Lemma stage_unique_delete (pool : list Task) (i : nat) :
  stage_unique pool -> stage_unique (delete i pool).
Proof.
  intros Hu j k t t' id Hj Hk Ht Ht'.
  destruct (decide (j < i)) as [Hji|Hji], (decide (k < i)) as [Hki|Hki].
  - rewrite list_lookup_delete_lt in Hj, Hk by done. by eapply Hu.
  - rewrite list_lookup_delete_lt in Hj by done. rewrite list_lookup_delete_ge in Hk by lia.
    pose proof (Hu _ _ _ _ _ Hj Hk Ht Ht'). lia.
  - rewrite list_lookup_delete_ge in Hj by lia. rewrite list_lookup_delete_lt in Hk by done.
    pose proof (Hu _ _ _ _ _ Hj Hk Ht Ht'). lia.
  - rewrite list_lookup_delete_ge in Hj, Hk by lia.
    pose proof (Hu _ _ _ _ _ Hj Hk Ht Ht'). lia.
Qed.

Lemma stage_unique_taken (pool : list Task) (i : nat) (t t' : Task) (id : string) :
  stage_unique pool -> pool !! i = Some t -> stage_id t = Some id ->
  t' ∈ delete i pool -> stage_id t' <> Some id.
Proof.
  intros Hu Hi Ht Hin Ht'. apply list_elem_of_lookup_1 in Hin as [j Hj].
  destruct (decide (j < i)) as [Hji|Hji].
  - rewrite list_lookup_delete_lt in Hj by done.
    pose proof (Hu _ _ _ _ _ Hi Hj Ht Ht'). lia.
  - rewrite list_lookup_delete_ge in Hj by lia.
    pose proof (Hu _ _ _ _ _ Hi Hj Ht Ht'). lia.
Qed.

Lemma stage_unique_spawn (pool ts : list Task) :
  stage_unique pool -> (forall t, t ∈ ts -> stage_id t = None) ->
  stage_unique (pool ++ ts).
Proof.
  intros Hu Hts i j t t' id Hi Hj Ht Ht'.
  apply lookup_app_Some in Hi as [Hi|[_ Hi]].
  2:{ apply list_elem_of_lookup_2, Hts in Hi. congruence. }
  apply lookup_app_Some in Hj as [Hj|[_ Hj]].
  2:{ apply list_elem_of_lookup_2, Hts in Hj. congruence. }
  by eapply Hu.
Qed.

Lemma stage_unique_spawn_stage (pool : list Task) (t : Task) (id : string) :
  stage_unique pool -> stage_id t = Some id ->
  (forall t', t' ∈ pool -> stage_id t' <> Some id) ->
  stage_unique (pool ++ [t]).
Proof.
  intros Hu Ht Hfresh i j t1 t2 id' Hi Hj H1 H2.
  apply lookup_snoc_Some in Hi as [[_ Hi]|[Hi <-]];
    apply lookup_snoc_Some in Hj as [[_ Hj]|[Hj <-]].
  - by eapply Hu.
  - apply list_elem_of_lookup_2, Hfresh in Hi. congruence.
  - apply list_elem_of_lookup_2, Hfresh in Hj. congruence.
  - lia.
Qed.

Lemma build_wf_takeTask (b : Build) (i : nat) : build_wf H b -> build_wf H (takeTask i b).
Proof.
  intros [Hg Ht Hu He]. split; simpl; try done.
  - by apply Forall_delete.
  - by apply stage_unique_delete.
Qed.

Lemma build_wf_reject (e : Err) (b : Build) : build_wf H b -> build_wf H (reject e b).
Proof. by intros [Hg Ht Hu He]. Qed.

Lemma build_wf_childDone (parent : addr) (b : Build) :
  build_wf H b -> build_wf H (childDone parent b).
Proof. by intros [Hg Ht Hu He]. Qed.

Lemma build_wf_setJoin (module : addr) (n : nat) (b : Build) :
  build_wf H b -> build_wf H (setJoin module n b).
Proof. by intros [Hg Ht Hu He]. Qed.

Lemma build_wf_spawn (ts : list Task) (b : Build) :
  build_wf H b -> Forall (task_wf (graph b)) ts ->
  (forall t, t ∈ ts -> stage_id t = None) -> build_wf H (spawn ts b).
Proof.
  intros [Hg Ht Hu He] Hts Hnone. split; simpl; try done.
  - by apply Forall_app.
  - by apply stage_unique_spawn.
Qed.

Lemma build_wf_spawn_stage (t : Task) (id : string) (b : Build) :
  build_wf H b -> task_wf (graph b) t -> stage_id t = Some id ->
  (forall t', t' ∈ pool b -> stage_id t' <> Some id) -> build_wf H (spawn [t] b).
Proof.
  intros [Hg Ht Hu He] Hts Hid Hfresh. split; simpl; try done.
  - apply Forall_app. split; [done|]. by constructor.
  - by eapply stage_unique_spawn_stage.
Qed.

Lemma build_wf_resolveWaiter (w : Waiter) (module : addr) (b : Build) :
  build_wf H b -> (exists m, heap (graph b) !! module = Some (OModule m)) ->
  build_wf H (resolveWaiter w module b).
Proof.
  intros Hb Hm. destruct w as [index|parent|parent index alias]; simpl.
  - destruct Hb as [Hg Ht Hu He]. split; simpl; try done.
    intros index' a [Hin|[= -> ->]%list_elem_of_singleton]%elem_of_app; [|done].
    by eapply He.
  - by apply build_wf_childDone.
  - apply build_wf_spawn; [done|by constructor|].
    by intros t ->%list_elem_of_singleton.
Qed.

Lemma stage_registered (g : Graph) (t : Task) (id : string) :
  task_wf g t -> stage_id t = Some id -> is_Some (moduleById g !! id).
Proof. destruct t; simpl; try done; intros (? & _) [= ->]; by eexists. Qed.

Lemma build_wf_awaitFetch (g0 : Graph) (w : Waiter) (f : Fetch) (b : Build) :
  build_wf H b -> Forall (task_wf g0) (pool b) -> fetch_ok g0 f (graph b) ->
  build_wf H (awaitFetch w f b).
Proof.
  intros Hb Hpool Hf. destruct f as [a|id importer module]; simpl in *.
  - by apply build_wf_resolveWaiter.
  - destruct Hf as [Hnone Hload].
    apply (build_wf_spawn_stage _ id); [done|done|done|].
    intros t' Hin Hid. rewrite Forall_forall in Hpool.
    destruct (stage_registered g0 t' id (Hpool t' Hin) Hid). congruence.
Qed.

Lemma build_wf_with_graph (g' : Graph) (b : Build) :
  build_wf H b -> since H (graph b) g' -> build_wf H (with_graph g' b).
Proof.
  intros [Hg Ht Hu He] [Hwf Hstep]. split; simpl; try done.
  - eapply Forall_impl; [exact Ht|]. intros t. by apply task_wf_gstep.
  - intros index a Hin. destruct (He index a Hin) as [m Hm].
    destruct (heap_ext_module _ _ a (mod_id m) (s_heap _ _ Hstep)) as (m' & Hm' & _);
      [by exists m|].
    by exists m'.
Qed.

Lemma runHandler_since {A} (c : M A) (k : A -> Build -> Build)
    (Q : A -> Graph -> Prop) (b : Build) :
  build_wf H b ->
  triple (since H (graph b)) (fun _ => True) c Q ->
  (forall a g', Q a g' -> build_wf H (with_graph g' b) ->
     build_wf H (k a (with_graph g' b))) ->
  build_wf H (runHandler c k b).
Proof.
  intros Hb Hc Hk. unfold runHandler.
  assert (Hinit : since H (graph b) (graph b)).
  { split; [apply (bw_graph H b Hb)|apply gstep_refl]. }
  destruct (Hc (graph b) Hinit I) as [HI HQ].
  destruct (c (graph b)) as [[a|e] g']; simpl in *.
  - apply Hk; [by apply HQ|by apply build_wf_with_graph].
  - by apply build_wf_reject, build_wf_with_graph.
Qed.

Lemma runHandler_quiet {A} (c : M A) (k : A -> Build -> Build) (b : Build) :
  build_wf H b -> quiet H c ->
  (forall a g', qstep H (graph b) g' -> build_wf H (with_graph g' b) ->
     build_wf H (k a (with_graph g' b))) ->
  build_wf H (runHandler c k b).
Proof.
  intros Hb Hc Hk. unfold runHandler. specialize (Hc (graph b)).
  assert (Hb' : build_wf H (with_graph (snd (c (graph b))) b)).
  { apply build_wf_with_graph; [done|]. apply (since_qstep H _ (graph b)); [|done].
    split; [apply (bw_graph H b Hb)|apply gstep_refl]. }
  destruct (c (graph b)) as [[a|e] g']; simpl in *.
  - by apply Hk.
  - by apply build_wf_reject.
Qed.

(** The two handlers that push onto [modules] or call [transform] keep the
    other pending handlers in order, as these work on other ids. *)
Lemma task_wf_frame (g g' : Graph) (id : string) (module : addr) (t : Task) :
  moduleById g ⊆ moduleById g' -> heap_ext (heap g) (heap g') ->
  (forall id', EffHook (HookLoad id') ∈ log g -> EffHook (HookLoad id') ∈ log g') ->
  (forall a, a ∈ modules g' -> a ∈ modules g \/ a = module) ->
  (forall id', EffTransform id' ∈ log g' -> EffTransform id' ∈ log g \/ id' = id) ->
  isModuleAt g module id ->
  task_wf g t -> stage_id t <> Some id -> task_wf g' t.
Proof.
  intros Hm Hh Hl Hmods Htr (m0 & Hm0 & Hid0) Ht Hne.
  assert (Hstage : forall id' module',
    id' <> id ->
    moduleById g !! id' = Some module' /\ isModuleAt g module' id' /\
    EffHook (HookLoad id') ∈ log g /\ (module' ∉ modules g) ->
    moduleById g' !! id' = Some module' /\ isModuleAt g' module' id' /\
    EffHook (HookLoad id') ∈ log g' /\ (module' ∉ modules g')).
  { intros id' module' Hid' (Hreg & Hmod' & Hload & Hnot).
    split; [by eapply lookup_weaken|]. split; [by eapply heap_ext_module|].
    split; [by apply Hl|]. intros [Hin| ->]%Hmods; [done|].
    destruct Hmod' as (m1 & Hm1 & Hid1). congruence. }
  assert (Hmodule : forall a, (exists m, heap g !! a = Some (OModule m)) ->
                              exists m, heap g' !! a = Some (OModule m)).
  { intros a [m Hma].
    destruct (heap_ext_module _ _ a (mod_id m) Hh) as (m' & Hm' & _); [by exists m|].
    by exists m'. }
  destruct t; simpl in *; try done; try (by apply Hmodule).
  - destruct Ht as (? & ? & ? & ? & Hnt).
    destruct (Hstage id0 module0) as (? & ? & ? & ?); [congruence|done|].
    repeat split; try done. intros [Hin| ->]%Htr; [done|congruence].
  - destruct Ht as (? & ? & ? & ? & Hnt).
    destruct (Hstage id0 module0) as (? & ? & ? & ?); [congruence|done|].
    repeat split; try done. intros [Hin| ->]%Htr; [done|congruence].
  - destruct Ht as (? & ? & ? & ?). apply Hstage; [congruence|done].
  - destruct Ht as (? & ? & ? & ?). apply Hstage; [congruence|done].
Qed.

End BuildSteps.

Section BuildInvariant.

Variable H : Host.

Lemma cacheOrTransform_run (id : string) (source : JsValue) (g : Graph) :
  exists r evs,
    fetchModule_cacheOrTransform id source g = (Ok r, with_log (fun l => l ++ evs) g) /\
    ((r = Transforming /\ evs = [EffTransform id]) \/
     ((exists cachedModule, r = Cached cachedModule) /\ Forall (silent H) evs)).
Proof.
  assert (Htransform : (transform id >> ret Transforming) g =
            (Ok Transforming, with_log (fun l => l ++ [EffTransform id]) g)) by done.
  unfold fetchModule_cacheOrTransform. unfold bind at 1. unfold gets.
  destruct (cachedModules g !! id) as [c|].
  2:{ exists Transforming, [EffTransform id]. split; [done|]. by left. }
  destruct (negb _ && _).
  2:{ exists Transforming, [EffTransform id]. split; [done|]. by left. }
  destruct (transformAssets c) as [assets|].
  - exists (Cached c), (map assetEffect assets). split.
    + unfold bind. change (fun asset => emitAsset (asset_name asset) (asset_source asset))
        with (fun asset => emit (assetEffect asset)).
      by rewrite forEach_emit.
    + right. split; [by eexists|]. apply Forall_forall.
      by intros e [asset [-> _]]%list_elem_of_fmap.
  - exists (Cached c), []. split.
    + unfold bind, ret. by rewrite with_log_nil.
    + right. split; [by eexists|constructor].
Qed.

Lemma build_wf_frame (b : Build) (g' : Graph) (id : string) (module : addr) :
  build_wf H b -> graph_wf H g' ->
  moduleById (graph b) ⊆ moduleById g' -> heap_ext (heap (graph b)) (heap g') ->
  (forall id', EffHook (HookLoad id') ∈ log (graph b) -> EffHook (HookLoad id') ∈ log g') ->
  (forall a, a ∈ modules g' -> a ∈ modules (graph b) \/ a = module) ->
  (forall id', EffTransform id' ∈ log g' -> EffTransform id' ∈ log (graph b) \/ id' = id) ->
  isModuleAt (graph b) module id ->
  (forall t, t ∈ pool b -> stage_id t <> Some id) ->
  build_wf H (with_graph g' b).
Proof.
  intros [Hg Ht Hu He] Hwf Hm Hh Hl Hmods Htr Hmod Hfresh. split; simpl; try done.
  - apply Forall_forall. intros t Hin. rewrite Forall_forall in Ht.
    apply (task_wf_frame (graph b) g' id module); auto.
  - intros index a Hin. destruct (He index a Hin) as [m Hma].
    destruct (heap_ext_module _ _ a (mod_id m) Hh) as (m' & Hm' & _); [by exists m|].
    by exists m'.
Qed.

Lemma setSource_state (id : string) (module : addr) (source : ModuleJSON)
    (m : ModuleRec) (g : Graph) :
  heap g !! module = Some (OModule m) ->
  fetchModule_setSource H id module source g =
    fetchAllDependencies module
      (with_log (fun l => l ++ [EffSetModule id module])
         (with_moduleById (fun r => <[id := module]> r)
            (with_modules (fun l => l ++ [module])
               (with_heap (fun h => <[module := OModule (setSource H source m)]> h) g)))).
Proof.
  intros Hm. unfold fetchModule_setSource.
  by rewrite (bind_Ok _ _ g _ tt (updModule_run module _ m g Hm)).
Qed.

Lemma finish_result (module : addr) (g : Graph) (r : addr) :
  fst (fetchModule_finish H module g) = Ok r -> r = module.
Proof.
  assert (Htriple : triple (fun _ => True) (fun _ => True) (fetchModule_finish H module)
                      (fun r _ => r = module)).
  { unfold fetchModule_finish.
    eapply triple_bind with (R := fun _ _ => True); [by intros g0 _ _|]. intros ?.
    eapply triple_bind with (R := fun _ _ => True); [by intros g0 _ _|]. intros m.
    eapply triple_bind with (R := fun _ _ => True); [by intros g0 _ _|]. intros ?.
    by apply triple_ret. }
  intros Hr. by apply (Htriple g I I).
Qed.

Lemma runTask_wf (t : Task) (s : Settled) (b b' : Build) :
  build_wf H b -> task_wf (graph b) t ->
  (forall id t', stage_id t = Some id -> t' ∈ pool b -> stage_id t' <> Some id) ->
  runTask H t s b = Some b' -> build_wf H b'.
Proof.
  intros Hb Ht Hfresh Hrun. pose proof (bw_graph H b Hb) as Hg.
  destruct t; destruct s as [|[?|?]|[?|?]|[?|?]|[?|?]]; simpl in Hrun;
    try discriminate; try injection Hrun as <-;
    try (by apply build_wf_reject).
  - (* TEntry *)
    eapply runHandler_since; [done|apply loadModule_resolved_triple|].
    intros f g' Hf Hb1. apply (build_wf_awaitFetch H (graph b)); [done| |done].
    apply (bw_tasks H b Hb).
  - (* TLoad *)
    destruct (fetchModule_checkSource H id a); injection Hrun as <-.
    + apply (build_wf_spawn_stage H _ id); [done|done|done|].
      intros t' Hin. by apply (Hfresh id).
    + by apply build_wf_reject.
  - (* TSource *)
    unfold runHandler.
    destruct (cacheOrTransform_run id source (graph b))
      as (r & evs & -> & [[-> ->]|[[c ->] Hsilent]]).
    + destruct Ht as (Hreg & Hmod & Hload & Hnot & Hnt).
      set (g' := with_log _ (graph b)).
      assert (Hwf : graph_wf H g').
      { apply (graph_wf_extend H (graph b) g' [EffTransform id] Hg).
        - done.
        - apply heap_ext_refl.
        - done.
        - intros id' Hid'. by left.
        - intros id' Hin. set_solver.
        - intros a Ha. by left.
        - apply (wf_modules_NoDup H _ Hg).
        - by left.
        - intros id' Hin. assert (id' = id) as -> by set_solver. done.
        - intros [|i] [|j] ? ? Hi Hj; done.
        - intros source' importer' Hin. set_solver. }
      assert (Hb1 : build_wf H (with_graph g' b)).
      { apply (build_wf_frame b g' id module); try done.
        - apply heap_ext_refl.
        - cbn. intros id' Hin. apply elem_of_app. by left.
        - intros a Ha. by left.
        - cbn. intros id' [Hin|Hin]%elem_of_app; [by left|right]. set_solver.
        - intros t' Hin. by apply (Hfresh id). }
      apply (build_wf_spawn_stage H _ id); [done| |done|].
      * simpl. split; [done|]. split; [done|]. split; [|done].
        cbn. apply elem_of_app. by left.
      * intros t' Hin. by apply (Hfresh id).
    + set (g' := with_log _ (graph b)).
      assert (Hq : qstep H (graph b) g').
      { split; try done; [by exists evs|apply heap_ext_refl]. }
      assert (Hb1 : build_wf H (with_graph g' b)).
      { apply build_wf_with_graph; [done|]. apply (since_qstep H _ (graph b)); [|done].
        split; [apply (bw_graph H b Hb)|apply gstep_refl]. }
      apply (build_wf_spawn_stage H _ id); [done| |done|].
      * apply (task_wf_gstep (graph b) g' (TSource id module w source))
          in Ht as (? & ? & ? & ? & ?); [done|]. by apply (qstep_gstep H).
      * intros t' Hin. by apply (Hfresh id).
  - (* TTransform *)
    apply (build_wf_spawn_stage H _ id); [done|done|done|].
    intros t' Hin. by apply (Hfresh id).
  - (* TSetSource *)
    destruct Ht as (Hreg & (m & Hm & Hid) & Hload & Hnot).
    unfold runHandler. rewrite (setSource_state id module source m (graph b) Hm).
    set (g3 := with_log _ _).
    assert (Hsub : moduleById (graph b) ⊆ moduleById g3).
    { cbn. by rewrite insert_id. }
    assert (Hheap : heap_ext (heap (graph b)) (heap g3)).
    { cbn. by apply (heap_ext_update _ _ (OModule m)). }
    assert (Hm3 : heap g3 !! module = Some (OModule (setSource H source m))).
    { cbn. apply list_lookup_insert_eq. by eapply lookup_lt_Some. }
    assert (Hwf3 : graph_wf H g3).
    { apply (graph_wf_extend H (graph b) g3 [EffSetModule id module] Hg).
      - done.
      - done.
      - done.
      - intros id' Hid'. by left.
      - intros id' Hin. set_solver.
      - cbn. intros a [Ha| ->%list_elem_of_singleton]%elem_of_app; [by left|right].
        eexists. split; [apply list_lookup_insert_eq; by eapply lookup_lt_Some|].
        cbn. rewrite Hid. apply lookup_insert_eq.
      - cbn. apply NoDup_app. split; [apply (wf_modules_NoDup H _ Hg)|].
        split; [|apply NoDup_singleton]. by intros a Ha ->%list_elem_of_singleton.
      - by left.
      - intros id' Hin. set_solver.
      - intros [|i] [|j] ? ? Hi Hj; done.
      - intros source' importer' Hin. set_solver. }
    assert (Hb3 : build_wf H (with_graph g3 b)).
    { apply (build_wf_frame b g3 id module); try done.
      - cbn. intros id' Hin. apply elem_of_app. by left.
      - cbn. intros a [Ha| ->%list_elem_of_singleton]%elem_of_app; [by left|by right].
      - cbn. intros id' [Hin|Hin]%elem_of_app; [by left|set_solver].
      - by exists m.
      - intros t' Hin. by apply (Hfresh id). }
    pose proof (quiet_fetchAllDependencies H module g3) as Hq.
    assert (Hb4 : build_wf H (with_graph (snd (fetchAllDependencies module g3)) b)).
    { apply (build_wf_with_graph H _ (with_graph g3 b)); [done|].
      apply (since_qstep H _ g3); [|done]. split; [done|apply gstep_refl]. }
    destruct (fetchAllDependencies module g3) as [[m'|e] g4]; simpl in *.
    + apply build_wf_setJoin, build_wf_spawn; [done| |].
      * apply Forall_app. split; [|apply Forall_app; split].
        -- apply Forall_forall. by intros t [i [x [-> _]]]%elem_of_lookup_imap.
        -- apply Forall_forall. by intros t [x [-> _]]%list_elem_of_fmap.
        -- constructor; [|done]. simpl.
           destruct (heap_ext_module _ _ module (mod_id (setSource H source m))
                       (q_heap H _ _ Hq)) as (m4 & Hm4 & _); [by eexists|].
           by exists m4.
      * intros t [Hin|[Hin|Hin]%elem_of_app]%elem_of_app.
        -- by apply elem_of_lookup_imap in Hin as [i [x [-> _]]].
        -- by apply list_elem_of_fmap in Hin as [x [-> _]].
        -- by apply list_elem_of_singleton in Hin as ->.
    + by apply build_wf_reject.
  - (* TStatic *)
    apply runHandler_quiet; [done|apply quiet_resolve|].
    intros r g' _ Hb1. destruct r; (apply build_wf_spawn; [done|by constructor|]);
      by intros t ->%list_elem_of_singleton.
  - (* TResolveId *)
    apply build_wf_spawn; [done|by constructor|]. by intros t ->%list_elem_of_singleton.
  - (* TResolved *)
    eapply runHandler_since; [done|apply resolved_triple|].
    intros d g' Hd Hb1. destruct d.
    + by apply build_wf_childDone.
    + apply (build_wf_awaitFetch H (graph b)); [done| |done]. apply (bw_tasks H b Hb).
  - (* TDynamic *)
    eapply runHandler_since; [done|apply dynamic_triple|].
    intros d g' Hd Hb1. destruct d.
    + by apply build_wf_childDone.
    + apply (build_wf_awaitFetch H (graph b)); [done| |done]. apply (bw_tasks H b Hb).
  - (* TDynamicFetched *)
    apply runHandler_quiet; [done|apply quiet_dynamicFetched|].
    intros r g' _ Hb1. by apply build_wf_childDone.
  - (* TFinish *)
    destruct (decide _); [|discriminate]. injection Hrun as <-.
    unfold runHandler. pose proof (quiet_finish H module (graph b)) as Hq.
    pose proof (finish_result module (graph b)) as Hres.
    assert (Hb1 : build_wf H (with_graph (snd (fetchModule_finish H module (graph b))) b)).
    { apply build_wf_with_graph; [done|]. apply (since_qstep H _ (graph b)); [|done].
      split; [done|apply gstep_refl]. }
    destruct (fetchModule_finish H module (graph b)) as [[r|err] g']; simpl in *.
    + rewrite (Hres r eq_refl).
      apply build_wf_resolveWaiter; [done|]. simpl. destruct Ht as [m Hm].
      destruct (heap_ext_module _ _ module (mod_id m) (q_heap H _ _ Hq))
        as (m' & Hm' & _); [by exists m|].
      by exists m'.
    + by apply build_wf_reject.
Qed.

End BuildInvariant.

Section BuildInvariantSteps.

Variable H : Host.

Lemma step_wf (b b' : Build) : build_wf H b -> step H b b' -> build_wf H b'.
Proof.
  intros Hb (i & s & Hstep). unfold stepAt in Hstep.
  destruct (pool b !! i) as [t|] eqn:Hi; [|discriminate].
  apply (runTask_wf H t s (takeTask i b) b'); [by apply build_wf_takeTask| | |done].
  - simpl. by apply (proj1 (Forall_lookup _ _) (bw_tasks H b Hb) i t).
  - intros id t' Hid Hin. by apply (stage_unique_taken (pool b) i t t' id (bw_stage H b Hb)).
Qed.

Lemma steps_wf (b b' : Build) : build_wf H b -> rtc (step H) b b' -> build_wf H b'.
Proof.
  intros Hb Hsteps. induction Hsteps as [b|b b1 b2 Hstep _ IH]; [done|].
  apply IH. by eapply step_wf.
Qed.

Lemma startBuild_wf (cache : gmap string ModuleJSON) (ids : list string) :
  build_wf H (startBuild cache ids).
Proof.
  assert (Hlog : forall e, e ∈ map (fun id => EffHook (HookResolveId id None)) ids ->
            exists id, e = EffHook (HookResolveId id None)).
  { intros e [id [-> _]]%list_elem_of_fmap. by exists id. }
  split; simpl.
  - unfold loadEntryModules.
    change (fun id => callHook (HookResolveId id None))
      with (fun id => emit (EffHook (HookResolveId id None))).
    rewrite forEach_emit. split; cbn.
    + by intros id ?%not_elem_of_empty.
    + by intros id [? [=]]%Hlog.
    + by intros a ?%elem_of_nil.
    + constructor.
    + by intros a ?%elem_of_nil.
    + intros i j a a' x x' Hi. by rewrite lookup_nil in Hi.
    + by intros id [? [=]]%Hlog.
    + intros i j id Hi. apply list_elem_of_lookup_2 in Hi. by apply Hlog in Hi as [? [=]].
    + by intros source importer [? [=]]%Hlog.
  - apply Forall_forall. by intros t [i [e [-> _]]]%elem_of_lookup_imap.
  - intros i j t t' id Hi _ Ht. apply list_elem_of_lookup_2 in Hi.
    by apply elem_of_lookup_imap in Hi as [k [e [-> _]]].
  - by intros index a ?%elem_of_nil.
Qed.

Lemma reachable_wf (cache : gmap string ModuleJSON) (ids : list string) (b : Build) :
  reachable H cache ids b -> build_wf H b.
Proof. intros Hr. by apply (steps_wf _ _ (startBuild_wf cache ids) Hr). Qed.

End BuildInvariantSteps.

(** ** What holds of every build *)

Section BuildFacts.

Variable H : Host.


(** [externalModules] lists [ExternalModule] objects only, each under an id
    that [moduleById] has registered, and no two of them have the same id. *)
Theorem externalModules_one_per_id (cache : gmap string ModuleJSON)
    (ids : list string) (b : Build) :
  reachable H cache ids b ->
  (forall a, a ∈ externalModules (graph b) ->
     exists x, heap (graph b) !! a = Some (OExternal x) /\
       is_Some (moduleById (graph b) !! ext_id x)) /\
  (forall i j a a' x x',
     externalModules (graph b) !! i = Some a ->
     externalModules (graph b) !! j = Some a' ->
     heap (graph b) !! a = Some (OExternal x) ->
     heap (graph b) !! a' = Some (OExternal x') ->
     ext_id x = ext_id x' -> i = j).
Proof.
  intros Hreach. pose proof (bw_graph H b (reachable_wf H cache ids b Hreach)) as Hg.
  split; [apply (wf_externalModules H _ Hg)|apply (wf_external_ids H _ Hg)].
Qed.

(** [modules] lists [Module] objects only, none twice, and each is the
    object [moduleById] has registered under its id; so no two modules in
    [modules] have the same id. *)
Theorem modules_registered_once (cache : gmap string ModuleJSON)
    (ids : list string) (b : Build) :
  reachable H cache ids b ->
  NoDup (modules (graph b)) /\
  (forall a, a ∈ modules (graph b) ->
     exists m, heap (graph b) !! a = Some (OModule m) /\
       moduleById (graph b) !! mod_id m = Some a) /\
  (forall i j a a' m m',
     modules (graph b) !! i = Some a -> modules (graph b) !! j = Some a' ->
     heap (graph b) !! a = Some (OModule m) -> heap (graph b) !! a' = Some (OModule m') ->
     mod_id m = mod_id m' -> i = j).
Proof.
  intros Hreach. pose proof (bw_graph H b (reachable_wf H cache ids b Hreach)) as Hg.
  split; [apply (wf_modules_NoDup H _ Hg)|]. split; [apply (wf_modules H _ Hg)|].
  intros i j a a' m m' Hi Hj Ha Ha' Hid.
  destruct (wf_modules H _ Hg a) as (m0 & Hm0 & Hreg); [by eapply list_elem_of_lookup_2|].
  destruct (wf_modules H _ Hg a') as (m0' & Hm0' & Hreg');
    [by eapply list_elem_of_lookup_2|].
  assert (a = a') as <- by congruence.
  pose proof (wf_modules_NoDup H _ Hg) as Hnd. rewrite NoDup_alt in Hnd.
  by apply (Hnd i j a).
Qed.

(** [transform] is called at most once for an id, and only for an id whose
    [load] hook has been called. *)
Theorem transform_at_most_once (cache : gmap string ModuleJSON)
    (ids : list string) (b : Build) (id : string) (i : nat) :
  reachable H cache ids b ->
  log (graph b) !! i = Some (EffTransform id) ->
  EffHook (HookLoad id) ∈ log (graph b) /\
  forall j, log (graph b) !! j = Some (EffTransform id) -> j = i.
Proof.
  intros Hreach Hi. pose proof (bw_graph H b (reachable_wf H cache ids b Hreach)) as Hg.
  split.
  - apply (wf_transform_loaded H _ Hg). by eapply list_elem_of_lookup_2.
  - intros j Hj. by apply (wf_transform_once H _ Hg j i id).
Qed.

(** What the promise of an entry's [loadModule] resolves with is a
    [Module]: [fetchModule] never hands on an [ExternalModule]. *)
Theorem entry_modules_are_modules (cache : gmap string ModuleJSON)
    (ids : list string) (b : Build) (index : nat) (a : addr) :
  reachable H cache ids b ->
  (index, a) ∈ entryModules b ->
  exists m, heap (graph b) !! a = Some (OModule m).
Proof.
  intros Hreach Hin. by apply (bw_entries H b (reachable_wf H cache ids b Hreach) index).
Qed.

(** The [resolveId] hook is never asked about an import that [isExternal]
    accepts as it is written. *)
Theorem resolveId_not_called_for_externals (cache : gmap string ModuleJSON)
    (ids : list string) (b : Build) (source importer : string) :
  reachable H cache ids b ->
  EffHook (HookResolveId source (Some importer)) ∈ log (graph b) ->
  isExternal H source importer false = false.
Proof.
  intros Hreach Hin. pose proof (bw_graph H b (reachable_wf H cache ids b Hreach)) as Hg.
  by apply (wf_resolveId H _ Hg).
Qed.

End BuildFacts.


Lemma externalModules_one_per_id_witness :
  (forall a, a ∈ externalModules (graph demoBuild) ->
     exists x, heap (graph demoBuild) !! a = Some (OExternal x) /\
       is_Some (moduleById (graph demoBuild) !! ext_id x)) /\
  (forall i j a a' x x',
     externalModules (graph demoBuild) !! i = Some a ->
     externalModules (graph demoBuild) !! j = Some a' ->
     heap (graph demoBuild) !! a = Some (OExternal x) ->
     heap (graph demoBuild) !! a' = Some (OExternal x') ->
     ext_id x = ext_id x' -> i = j).
Proof.
  apply (externalModules_one_per_id demoHost ∅ ["main.js"] demoBuild).
  apply (runSchedule_steps demoHost demoSchedule). vm_compute. reflexivity.
Defined.

Lemma modules_registered_once_witness :
  NoDup (modules (graph demoBuild)) /\
  (forall a, a ∈ modules (graph demoBuild) ->
     exists m, heap (graph demoBuild) !! a = Some (OModule m) /\
       moduleById (graph demoBuild) !! mod_id m = Some a) /\
  (forall i j a a' m m',
     modules (graph demoBuild) !! i = Some a -> modules (graph demoBuild) !! j = Some a' ->
     heap (graph demoBuild) !! a = Some (OModule m) ->
     heap (graph demoBuild) !! a' = Some (OModule m') ->
     mod_id m = mod_id m' -> i = j).
Proof.
  apply (modules_registered_once demoHost ∅ ["main.js"] demoBuild).
  apply (runSchedule_steps demoHost demoSchedule). vm_compute. reflexivity.
Defined.

Lemma transform_at_most_once_witness :
  EffHook (HookLoad "main.js") ∈ log (graph demoBuild) /\
  forall j, log (graph demoBuild) !! j = Some (EffTransform "main.js") -> j = 4.
Proof.
  apply (transform_at_most_once demoHost ∅ ["main.js"] demoBuild "main.js" 4).
  - apply (runSchedule_steps demoHost demoSchedule). vm_compute. reflexivity.
  - vm_compute. reflexivity.
Defined.

Lemma entry_modules_are_modules_witness :
  exists m, heap (graph demoBuild) !! 0 = Some (OModule m).
Proof.
  apply (entry_modules_are_modules demoHost ∅ ["main.js"] demoBuild 0 0).
  - apply (runSchedule_steps demoHost demoSchedule). vm_compute. reflexivity.
  - apply list_elem_of_In. vm_compute. tauto.
Defined.

Lemma resolveId_not_called_for_externals_witness :
  isExternal demoHost "./local" "main.js" false = false.
Proof.
  apply (resolveId_not_called_for_externals demoHost ∅ ["main.js"] demoBuild
           "./local" "main.js").
  - apply (runSchedule_steps demoHost demoSchedule). vm_compute. reflexivity.
  - apply list_elem_of_In. vm_compute. tauto.
Defined.
